(** * Test-Genie: the test-case derivation, execution and reporting core

    A shallow embedding of [src/app.py]: [generate_test_cases],
    [execute_test], [run_tests], [generate_report], the construction of
    test cases from the simplified declarative configuration, and the
    two branches of the page that hand test cases to [run_tests].

    Python values are modelled as follows.
    - [str] is [string], for the texts of ASCII characters ([Str.isascii]):
      on these [Str.lower], [Str.upper] and [Generator.isdigit] are
      [str.lower], [str.upper] and [str.isdigit].  What Python does with
      other characters is not modelled; the properties of
      [extract_resource] and of the methods of the configuration state
      [Str.isascii] as a hypothesis.
    - The dictionaries [headers], [params], [securitySchemes] and
      [endpoint_results] are finite maps ([gmap]) from strings.
    - [spec['paths']] and each path item are association lists, since the
      derivation walks them in declaration order.
    - A test-case dictionary is a record.  Its ['request'] entry is a value:
      the source copies the request dictionary before every write to it.  Its
      ['expected'] entry is a reference into a store of dictionaries, because
      [dict.copy] is shallow and the source writes through the copy.
    - [requests] is an oracle from the issued call to its outcome, and the
      calls that were issued are returned next to the result.
    - Python floats are binary64 values ([spec_float] at precision 53). *)

From Stdlib Require Import ZArith List String Ascii Bool Lia SpecFloat Sorted.
From stdpp Require Import base option list strings gmap pretty.

Local Open Scope string_scope.
Local Open Scope list_scope.

(** ** Strings *)

Module Str.

(** [s.isascii()]: every character is below 128. *)
Definition isascii_char (c : ascii) : bool := Nat.ltb (nat_of_ascii c) 128.

Fixpoint isascii (s : string) : bool :=
  match s with
  | EmptyString => true
  | String c r => isascii_char c && isascii r
  end.

Definition lower_ascii (c : ascii) : ascii :=
  let n := nat_of_ascii c in
  if andb (Nat.leb 65 n) (Nat.leb n 90) then ascii_of_nat (n + 32) else c.

Definition upper_ascii (c : ascii) : ascii :=
  let n := nat_of_ascii c in
  if andb (Nat.leb 97 n) (Nat.leb n 122) then ascii_of_nat (n - 32) else c.

Fixpoint map_string (f : ascii -> ascii) (s : string) : string :=
  match s with
  | EmptyString => EmptyString
  | String c r => String (f c) (map_string f r)
  end.

(** [s.lower()] and [s.upper()] of a text of ASCII characters *)
Definition lower (s : string) : string := map_string lower_ascii s.
Definition upper (s : string) : string := map_string upper_ascii s.

(** [s[:n]] *)
Fixpoint take (n : nat) (s : string) : string :=
  match n, s with
  | S k, String c r => String c (take k r)
  | _, _ => EmptyString
  end.

(** [x in l] for a list of strings *)
Definition mem (x : string) (l : list string) : bool :=
  existsb (String.eqb x) l.

(** [str(v)] of an optional string: [None] prints as the word None *)
Definition of_option (o : option string) : string :=
  match o with
  | Some s => s
  | None => "None"
  end.

End Str.

Arguments Str.mem : simpl never.
Arguments Str.take : simpl nomatch.

(** ** The contract *)

Record Param := {
  p_name : string;
  p_in : string;
  p_required : bool
}.

(** An entry of [components.securitySchemes], by its [type]. *)
Inductive SecurityScheme :=
  | SchemeApiKey (name location : string)
  | SchemeHttp (scheme : string)
  | SchemeOther (type : string).

(** A security requirement list: each requirement object is given by its
    keys, the scheme names, in order. *)
Definition Security := list (list string).

Record Operation := {
  op_summary : option string;
  op_description : option string;
  op_security : option Security;
  op_parameters : list Param;
  (** the items of [requestBody.content]: content type, and whether its
      [schema] is non-empty *)
  op_requestBody : list (string * bool);
  (** the keys of [responses], in order *)
  op_responses : list string
}.

Record Spec := {
  servers : list string;
  paths : list (string * list (string * Operation));
  security : Security;
  securitySchemes : gmap string SecurityScheme
}.

(** ** Test cases *)

(** The value under ['status'] in an ['expected'] dictionary: a scalar,
    kept as its [str()], or a list of codes. *)
Inductive Status :=
  | StatusStr (s : string)
  | StatusList (l : list string).

Record Expected := { status : Status }.

(** The store of ['expected'] dictionaries; a reference is an index. *)
Abbreviation loc := nat (only parsing).
Abbreviation Store := (list Expected).

Definition alloc (e : Expected) (h : Store) : loc * Store :=
  (length h, h ++ [e]).

(** [d['status'] = v] through the reference [l] *)
Definition set_status (l : loc) (v : Status) (h : Store) : Store :=
  <[l := {| status := v |}]> h.

Definition get_status (l : loc) (h : Store) : option Status :=
  status <$> h !! l.

Abbreviation Dict := (gmap string (option string)).

Record Request := {
  url : string;
  headers : Dict;
  params : Dict;
  body : option string
}.

(** The keys ['auth_type'], ['auth_name'] and ['auth_in'], which the source
    always sets together. *)
Inductive Auth :=
  | NoAuthType
  | ApiKey (name location : string)
  | Bearer.

Record TestCase := {
  tc_path : string;
  tc_method : string;
  tc_name : string;
  tc_description : string;
  tc_request : Request;
  tc_expected : loc;
  tc_auth_required : bool;
  tc_auth : Auth;
  (** absent key = empty list; the source tests it for truth only *)
  tc_required_params : list string;
  tc_auth_value : option string
}.

Definition with_name (n : string) (t : TestCase) : TestCase :=
  {| tc_path := tc_path t; tc_method := tc_method t; tc_name := n;
     tc_description := tc_description t; tc_request := tc_request t;
     tc_expected := tc_expected t; tc_auth_required := tc_auth_required t;
     tc_auth := tc_auth t; tc_required_params := tc_required_params t;
     tc_auth_value := tc_auth_value t |}.

Definition with_request (r : Request) (t : TestCase) : TestCase :=
  {| tc_path := tc_path t; tc_method := tc_method t; tc_name := tc_name t;
     tc_description := tc_description t; tc_request := r;
     tc_expected := tc_expected t; tc_auth_required := tc_auth_required t;
     tc_auth := tc_auth t; tc_required_params := tc_required_params t;
     tc_auth_value := tc_auth_value t |}.

Definition with_auth (req : bool) (a : Auth) (t : TestCase) : TestCase :=
  {| tc_path := tc_path t; tc_method := tc_method t; tc_name := tc_name t;
     tc_description := tc_description t; tc_request := tc_request t;
     tc_expected := tc_expected t; tc_auth_required := req;
     tc_auth := a; tc_required_params := tc_required_params t;
     tc_auth_value := tc_auth_value t |}.

Definition with_required_params (l : list string) (t : TestCase) : TestCase :=
  {| tc_path := tc_path t; tc_method := tc_method t; tc_name := tc_name t;
     tc_description := tc_description t; tc_request := tc_request t;
     tc_expected := tc_expected t; tc_auth_required := tc_auth_required t;
     tc_auth := tc_auth t; tc_required_params := l;
     tc_auth_value := tc_auth_value t |}.

Definition with_auth_value (v : option string) (t : TestCase) : TestCase :=
  {| tc_path := tc_path t; tc_method := tc_method t; tc_name := tc_name t;
     tc_description := tc_description t; tc_request := tc_request t;
     tc_expected := tc_expected t; tc_auth_required := tc_auth_required t;
     tc_auth := tc_auth t; tc_required_params := tc_required_params t;
     tc_auth_value := v |}.

Definition with_headers (h : Dict) (r : Request) : Request :=
  {| url := url r; headers := h; params := params r; body := body r |}.

Definition with_params (p : Dict) (r : Request) : Request :=
  {| url := url r; headers := headers r; params := p; body := body r |}.

Definition with_body (b : option string) (r : Request) : Request :=
  {| url := url r; headers := headers r; params := params r; body := b |}.

(** ** Derivation: [generate_test_cases] *)

Definition supported_methods : list string :=
  ["get"; "post"; "put"; "delete"; "patch"].

Definition supported (method : string) : bool :=
  Str.mem (Str.lower method) supported_methods.

(** [security[0]]'s first key, when [security] and [security[0]] are
    non-empty and the key is a non-empty string *)
Definition auth_scheme_of (sec : Security) : option string :=
  match sec with
  | (k :: _) :: _ => if String.eqb k "" then None else Some k
  | _ => None
  end.

Definition add_authentication (spec : Spec) (operation : Operation)
    (t : TestCase) : TestCase :=
  let sec := default (security spec) (op_security operation) in
  match auth_scheme_of sec with
  | None => t
  | Some auth_scheme =>
      match securitySchemes spec !! auth_scheme with
      | Some (SchemeApiKey n i) => with_auth true (ApiKey n i) t
      | Some (SchemeHttp s) =>
          if String.eqb s "bearer" then with_auth true Bearer t
          else with_auth true (tc_auth t) t
      | _ => with_auth true (tc_auth t) t
      end
  end.

Definition add_parameter (t : TestCase) (param : Param) : TestCase :=
  let r := tc_request t in
  let t1 :=
    if String.eqb (p_in param) "query" then
      with_request (with_params (<[p_name param := None]> (params r)) r) t
    else if String.eqb (p_in param) "header" then
      with_request (with_headers (<[p_name param := None]> (headers r)) r) t
    else t in
  if p_required param then
    with_required_params (tc_required_params t1 ++ [p_name param]) t1
  else t1.

Definition add_content (t : TestCase) (item : string * bool) : TestCase :=
  let r := tc_request t in
  let r1 := with_headers (<["Content-Type" := Some (fst item)]> (headers r)) r in
  with_request (if snd item then with_body (Some "{}") r1 else r1) t.

Definition operation_name (method path : string) (operation : Operation) : string :=
  default (Str.upper method +:+ " " +:+ path) (op_summary operation).

Definition first_status (operation : Operation) : string :=
  match op_responses operation with
  | c :: _ => c
  | [] => "200"
  end.

(** The test case as it stands when it is appended: lines 41-103. *)
Definition base_test_case (spec : Spec) (base_url path method : string)
    (operation : Operation) (e : loc) : TestCase :=
  let t0 :=
    {| tc_path := path;
       tc_method := Str.upper method;
       tc_name := operation_name method path operation;
       tc_description := default "" (op_description operation);
       tc_request := {| url := base_url +:+ path; headers := ∅;
                        params := ∅; body := None |};
       tc_expected := e;
       tc_auth_required := false;
       tc_auth := NoAuthType;
       tc_required_params := [];
       tc_auth_value := None |} in
  let t1 := add_authentication spec operation t0 in
  let t2 := fold_left add_parameter (op_parameters operation) t1 in
  fold_left add_content (op_requestBody operation) t2.

(** The state of the derivation loop: the list built so far and the store. *)
Record Gen := {
  test_cases : list TestCase;
  store : Store
}.

Definition append_case (t : TestCase) (g : Gen) : Gen :=
  {| test_cases := test_cases g ++ [t]; store := store g |}.

(** [error_test = test_case.copy()] and the assignments to its own keys in
    the first error block.  The copy keeps the reference [tc_expected]. *)
Definition missing_params_test (test_case : TestCase) : TestCase :=
  let error_test := test_case in
  let error_test :=
    with_name (tc_name test_case +:+ " - Missing Required Parameters") error_test in
  let error_test := with_request (tc_request test_case) error_test in
  with_request (with_params ∅ (tc_request error_test)) error_test.

Definition invalid_auth_value : string := "invalid_auth_value".

(** The same for the second error block. *)
Definition invalid_auth_test (test_case : TestCase) : TestCase :=
  let error_test := test_case in
  let error_test :=
    with_name (tc_name test_case +:+ " - Invalid Authentication") error_test in
  let error_test := with_request (tc_request test_case) error_test in
  with_auth_value (Some invalid_auth_value) error_test.

(** [error_test['expected']['status'] = code] writes through the reference
    that [error_test] holds, then [error_test] is appended. *)
Definition append_error_case (error_test : TestCase) (code : string) (g : Gen) : Gen :=
  {| test_cases := test_cases g ++ [error_test];
     store := set_status (tc_expected error_test) (StatusStr code) (store g) |}.

Definition missing_params_case (test_case : TestCase) (g : Gen) : Gen :=
  append_error_case (missing_params_test test_case) "400" g.

Definition invalid_auth_case (test_case : TestCase) (g : Gen) : Gen :=
  append_error_case (invalid_auth_test test_case) "401" g.

(** One iteration of the inner loop. *)
Definition generate_operation (spec : Spec) (base_url path : string)
    (g : Gen) (entry : string * Operation) : Gen :=
  let '(method, operation) := entry in
  if negb (supported method) then g
  else
    let '(e, h) :=
      alloc {| status := StatusStr (first_status operation) |} (store g) in
    let test_case := base_test_case spec base_url path method operation e in
    let g1 := append_case test_case {| test_cases := test_cases g; store := h |} in
    let g2 :=
      match tc_required_params test_case with
      | [] => g1
      | _ :: _ => missing_params_case test_case g1
      end in
    if tc_auth_required test_case then invalid_auth_case test_case g2 else g2.

Definition generate_path (spec : Spec) (base_url : string) (g : Gen)
    (entry : string * list (string * Operation)) : Gen :=
  let '(path, path_item) := entry in
  fold_left (generate_operation spec base_url path) path_item g.

Definition base_url_of (spec : Spec) : string :=
  match servers spec with
  | u :: _ => u
  | [] => ""
  end.

Definition generate_from (spec : Spec) (g : Gen) : Gen :=
  fold_left (generate_path spec (base_url_of spec)) (paths spec) g.

Definition generate_test_cases (spec : Spec) : Gen :=
  generate_from spec {| test_cases := []; store := [] |}.

(** [t['expected']['status']] read in the store [h] *)
Definition expected_status (h : Store) (t : TestCase) : option Status :=
  get_status (tc_expected t) h.

(** ** Execution of one case: [execute_test] *)

(** [auth_values]; a missing key reads as [None] *)
Record Credentials := {
  apiKey : option string;
  bearer : option string
}.

(** A call [requests.<verb>(url=..., headers=..., params=..., json=...)];
    [call_json] is [None] when the keyword is not passed. *)
Record HttpCall := {
  call_verb : string;
  call_url : string;
  call_headers : Dict;
  call_params : Dict;
  call_json : option string
}.

Record Response := {
  status_code : Z;
  resp_headers : gmap string string;
  text : string
}.

(** What a call does: it returns a response, or an exception is raised
    while the request is sent or while the response is read; [Raised]
    carries [str(e)]. *)
Inductive HttpOutcome :=
  | Responded (r : Response)
  | Raised (msg : string).

Definition Http := HttpCall -> HttpOutcome.

Inductive Outcome := Pending | Passed | Failed | Error.

(** [result['request']] *)
Record SentRequest := {
  sent_url : string;
  sent_method : string;
  sent_headers : Dict;
  sent_params : Dict;
  sent_body : option string
}.

(** [result['response']] *)
Record StoredResponse := {
  stored_status_code : Z;
  stored_headers : gmap string string;
  stored_body : string
}.

(** The result dictionary; the wall-clock entries ([start_time],
    [end_time], [duration]) are left out. *)
Record Result := {
  r_test_name : string;
  r_path : string;
  r_method : string;
  r_status : Outcome;
  r_request : option SentRequest;
  r_response : option StoredResponse;
  r_passed : bool;
  r_error : option string
}.

Definition fill_authentication (test_case : TestCase) (auth_values : Credentials)
    (hp : Dict * Dict) : Dict * Dict :=
  let '(hdrs, prms) := hp in
  if tc_auth_required test_case then
    match tc_auth test_case with
    | ApiKey auth_name auth_in =>
        let auth_value := apiKey auth_values in
        if String.eqb auth_in "header" then (<[auth_name := auth_value]> hdrs, prms)
        else if String.eqb auth_in "query" then (hdrs, <[auth_name := auth_value]> prms)
        else (hdrs, prms)
    | Bearer =>
        (<["Authorization" :=
             Some ("Bearer " +:+ Str.of_option (bearer auth_values))]> hdrs, prms)
    | NoAuthType => (hdrs, prms)
    end
  else (hdrs, prms).

Definition body_methods : list string := ["post"; "put"; "patch"].

(** [request_kwargs], with the verb of the [requests] function that the
    chain of comparisons selects; [None] when no branch is taken and
    [response] stays [None]. *)
Definition prepare_call (test_case : TestCase) (auth_values : Credentials)
    : option HttpCall * SentRequest :=
  let u := url (tc_request test_case) in
  let method := Str.lower (tc_method test_case) in
  let '(hdrs, prms) :=
    fill_authentication test_case auth_values
      (headers (tc_request test_case), params (tc_request test_case)) in
  let b := body (tc_request test_case) in
  let json :=
    match b with
    | Some v => if Str.mem method body_methods then Some v else None
    | None => None
    end in
  let sent := {| sent_url := u; sent_method := method; sent_headers := hdrs;
                 sent_params := prms; sent_body := b |} in
  let call := {| call_verb := method; call_url := u; call_headers := hdrs;
                 call_params := prms; call_json := json |} in
  (if Str.mem method supported_methods then Some call else None, sent).

(** [str(response.status_code)] compared with the expected status *)
Definition validate (expected : Status) (code : Z) : bool :=
  match expected with
  | StatusList l => Str.mem (pretty code) l
  | StatusStr s => String.eqb (pretty code) s
  end.

Definition none_has_no_status_code : string :=
  "'NoneType' object has no attribute 'status_code'".

(** The body of the [try] block, run on the result built so far.  It
    returns the result as the block left it, [Some (str e)] when an
    exception escaped the block, and the calls that were issued. *)
Definition try_block (test_case : TestCase) (auth_values : Credentials)
    (h : Store) (http : Http) (result : Result)
    : Result * option string * list HttpCall :=
  let '(call, sent) := prepare_call test_case auth_values in
  let result :=
    {| r_test_name := r_test_name result; r_path := r_path result;
       r_method := r_method result; r_status := r_status result;
       r_request := Some sent; r_response := r_response result;
       r_passed := r_passed result; r_error := r_error result |} in
  match call with
  | None => (result, Some none_has_no_status_code, [])
  | Some c =>
      match http c with
      | Raised msg => (result, Some msg, [c])
      | Responded response =>
          let result :=
            {| r_test_name := r_test_name result; r_path := r_path result;
               r_method := r_method result; r_status := r_status result;
               r_request := r_request result;
               r_response :=
                 Some {| stored_status_code := status_code response;
                         stored_headers := resp_headers response;
                         stored_body := Str.take 1000 (text response) |};
               r_passed := r_passed result; r_error := r_error result |} in
          match expected_status h test_case with
          | None => (result, Some "'status'", [c])
          | Some expected =>
              let passed := validate expected (status_code response) in
              ({| r_test_name := r_test_name result; r_path := r_path result;
                  r_method := r_method result;
                  r_status := if passed then Passed else Failed;
                  r_request := r_request result;
                  r_response := r_response result;
                  r_passed := passed; r_error := r_error result |}, None, [c])
          end
      end
  end.

(** [execute_test], with the calls it issued. *)
Definition execute_test_calls (test_case : TestCase) (auth_values : Credentials)
    (h : Store) (http : Http) : Result * list HttpCall :=
  let result :=
    {| r_test_name := tc_name test_case; r_path := tc_path test_case;
       r_method := tc_method test_case; r_status := Pending;
       r_request := None; r_response := None;
       r_passed := false; r_error := None |} in
  match try_block test_case auth_values h http result with
  | (result, None, calls) => (result, calls)
  | (result, Some e, calls) =>
      ({| r_test_name := r_test_name result; r_path := r_path result;
          r_method := r_method result; r_status := Error;
          r_request := r_request result; r_response := r_response result;
          r_passed := false; r_error := Some e |}, calls)
  end.

Definition execute_test (test_case : TestCase) (auth_values : Credentials)
    (h : Store) (http : Http) : Result :=
  fst (execute_test_calls test_case auth_values h http).

(** ** The worker pool: [run_tests] *)

(** A submitted call is waiting in the executor's queue, is being run by a
    worker, or is done: its function returned a result or raised. *)
Inductive Future :=
  | Queued
  | Running
  | Done (v : Result + string).

(** [future_to_test] in insertion order, the list [results] and the counter
    [completed], which is also the position of the collecting loop. *)
Record Pool := {
  futures : list (TestCase * Future);
  results : list Result;
  completed : nat
}.

(** What happens while [run_tests] waits: a free worker takes the oldest
    queued call, the call of future [i] ends, or [future.result()] of the
    future under the loop returns. *)
Inductive Event :=
  | Start
  | Finish (i : nat)
  | Collect.

Definition is_running (f : TestCase * Future) : bool :=
  match snd f with Running => true | _ => false end.

Definition is_queued (f : TestCase * Future) : bool :=
  match snd f with Queued => true | _ => false end.

Definition running (p : Pool) : nat := length (filter is_running (futures p)).

Fixpoint first_queued (l : list (TestCase * Future)) : option nat :=
  match l with
  | [] => None
  | f :: r => if is_queued f then Some 0 else S <$> first_queued r
  end.

(** The dictionary that the [except] branch of the loop appends. *)
Definition failed_future (test_case : TestCase) (e : string) : Result :=
  {| r_test_name := tc_name test_case; r_path := tc_path test_case;
     r_method := tc_method test_case; r_status := Error;
     r_request := None; r_response := None;
     r_passed := false; r_error := Some e |}.

Definition collected (test_case : TestCase) (v : Result + string) : Result :=
  match v with
  | inl result => result
  | inr e => failed_future test_case e
  end.

Definition set_future (i : nat) (f : TestCase * Future) (p : Pool) : Pool :=
  {| futures := <[i := f]> (futures p); results := results p;
     completed := completed p |}.

Section Executor.

(** What the call submitted in position [i] does. *)
Variable job : nat -> TestCase -> Result + string.
Variable max_workers : nat.

(** All calls are submitted before the collecting loop starts. *)
Definition submit_all (tcs : list TestCase) : Pool :=
  {| futures := (fun t => (t, Queued)) <$> tcs; results := []; completed := 0 |}.

Definition step (ev : Event) (p : Pool) : option Pool :=
  match ev with
  | Start =>
      if Nat.ltb (running p) max_workers then
        match first_queued (futures p) with
        | Some i =>
            match futures p !! i with
            | Some (t, _) => Some (set_future i (t, Running) p)
            | None => None
            end
        | None => None
        end
      else None
  | Finish i =>
      match futures p !! i with
      | Some (t, Running) => Some (set_future i (t, Done (job i t)) p)
      | _ => None
      end
  | Collect =>
      match futures p !! completed p with
      | Some (t, Done v) =>
          Some {| futures := futures p;
                  results := results p ++ [collected t v];
                  completed := S (completed p) |}
      | _ => None
      end
  end.

Fixpoint run (sched : list Event) (p : Pool) : option Pool :=
  match sched with
  | [] => Some p
  | ev :: rest =>
      match step ev p with
      | Some p' => run rest p'
      | None => None
      end
  end.

(** The loop has gone through every future. *)
Definition finished (p : Pool) : bool :=
  Nat.eqb (completed p) (length (futures p)).

(** The list returned when the events [sched] take the pool from the
    submission of [tcs] to the end of the loop. *)
Definition pool_results (tcs : list TestCase) (sched : list Event)
    : option (list Result) :=
  match run sched (submit_all tcs) with
  | Some p => if finished p then Some (results p) else None
  | None => None
  end.

(** The result of every case, in the order of the cases. *)
Definition in_order (tcs : list TestCase) : list Result :=
  imap (fun i t => collected t (job i t)) tcs.

(** What holds of the pool all along a run on the cases [tcs]. *)
Definition pool_inv (tcs : list TestCase) (p : Pool) : Prop :=
  (futures p).*1 = tcs /\
  (forall i t v, futures p !! i = Some (t, Done v) -> v = job i t) /\
  completed p <= length tcs /\
  results p = in_order (take (completed p) tcs).

End Executor.

(** What is left to do: a queued call is still to be started and ended,
    a running call to be ended, and every future to be collected. *)
Definition weight (f : TestCase * Future) : nat :=
  match snd f with
  | Queued => 2
  | Running => 1
  | Done _ => 0
  end.

Definition work (p : Pool) : nat :=
  sum_list_with weight (futures p) + (length (futures p) - completed p).

(** [execute_test] as the submitted function; [http i] is how the network
    answers the call of the case in position [i], whatever the other
    workers did before. *)
Definition execute_job (auth_values : Credentials) (h : Store)
    (http : nat -> Http) (i : nat) (test_case : TestCase) : Result + string :=
  inl (execute_test test_case auth_values h (http i)).

Definition run_tests (tcs : list TestCase) (auth_values : Credentials)
    (h : Store) (http : nat -> Http) (max_workers : nat)
    (sched : list Event) : option (list Result) :=
  pool_results (execute_job auth_values h http) max_workers tcs sched.

(** ** Python numbers for the report *)

Module Float.

Definition prec : Z := 53.
Definition emax : Z := 1024.

(** [float(n)] of an integer *)
Definition of_Z (n : Z) : spec_float := binary_normalize prec emax n 0 false.

(** [a / b] of two integers: the quotient rounded once to binary64.
    A zero divisor raises in Python; callers guard it. *)
Definition int_truediv (a b : Z) : spec_float :=
  match a, b with
  | Z0, _ => S754_zero false
  | Zpos p, Zpos q => SFdiv prec emax (S754_finite false p 0) (S754_finite false q 0)
  | Zneg p, Zpos q => SFdiv prec emax (S754_finite true p 0) (S754_finite false q 0)
  | Zpos p, Zneg q => SFdiv prec emax (S754_finite false p 0) (S754_finite true q 0)
  | Zneg p, Zneg q => SFdiv prec emax (S754_finite true p 0) (S754_finite true q 0)
  | _, Z0 => S754_nan
  end.

Definition mul (x y : spec_float) : spec_float := SFmul prec emax x y.

(** The integer nearest to [m * 2^e * 100], ties to even. *)
Definition scaled_half_even (m : positive) (e : Z) : Z :=
  let num := (Zpos m * 100 * 2 ^ Z.max e 0)%Z in
  let den := (2 ^ Z.max (- e) 0)%Z in
  let q := (num / den)%Z in
  let r := (num mod den)%Z in
  match (2 * r ?= den)%Z with
  | Lt => q
  | Gt => (q + 1)%Z
  | Eq => if Z.even q then q else (q + 1)%Z
  end.

(** [round(x, 2)]: the value of [x] is rounded to two decimals, ties to
    even, and the decimal result is read back as the nearest float. *)
Definition round2 (x : spec_float) : spec_float :=
  match x with
  | S754_finite s m e =>
      let k := scaled_half_even m e in
      match k with
      | Z0 => S754_zero s
      | _ => int_truediv (if s then (- k)%Z else k) 100
      end
  | _ => x
  end.

End Float.

Inductive Number :=
  | Int (n : Z)
  | Float (x : spec_float).

(** ** Aggregation: [generate_report] *)

Record Group := {
  g_total : Z;
  g_passed : Z;
  g_failed : Z;
  g_tests : list Result
}.

(** [summary]; [execution_time], a sum of wall-clock durations, is left out. *)
Record Summary := {
  total_tests : Z;
  passed_tests : Z;
  failed_tests : Z;
  success_rate : Number
}.

Record Report := {
  summary : Summary;
  endpoint_results : gmap string Group;
  report_results : list Result
}.

Definition endpoint (result : Result) : string :=
  r_method result +:+ " " +:+ r_path result.

Definition empty_group : Group :=
  {| g_total := 0; g_passed := 0; g_failed := 0; g_tests := [] |}.

(** One iteration of the grouping loop. *)
Definition add_result (m : gmap string Group) (result : Result)
    : gmap string Group :=
  let k := endpoint result in
  let g := default empty_group (m !! k) in
  <[k := {| g_total := g_total g + 1;
            g_passed := if r_passed result then g_passed g + 1 else g_passed g;
            g_failed := if r_passed result then g_failed g else g_failed g + 1;
            g_tests := g_tests g ++ [result] |}]> m.

Definition count_passed (rs : list Result) : Z :=
  Z.of_nat (length (filter (fun r => r_passed r = true) rs)).

Definition rate (passed total : Z) : Number :=
  if (0 <? total)%Z then
    Float (Float.round2
             (Float.mul (Float.int_truediv passed total) (Float.of_Z 100)))
  else Int 0.

Definition generate_report (rs : list Result) : Report :=
  let total := Z.of_nat (length rs) in
  let passed := count_passed rs in
  let failed := (total - passed)%Z in
  {| summary := {| total_tests := total; passed_tests := passed;
                   failed_tests := failed; success_rate := rate passed total |};
     endpoint_results := fold_left add_result rs ∅;
     report_results := rs |}.

(** [sum(group.total for group in endpoint_results.values())] *)
Definition sum_group_totals (m : gmap string Group) : Z :=
  map_fold (fun _ g acc => (g_total g + acc)%Z) 0%Z m.

(** ** Test cases from the simplified configuration *)

Record ConfigCase := {
  c_name : option string;
  c_headers : option Dict;
  c_query_params : option Dict;
  c_body : option string;
  c_expected_status : option Status
}.

Record ConfigApi := {
  a_endpoint : string;
  a_method : option string;
  a_auth : option string;
  a_test_cases : list ConfigCase
}.

Definition config_auth (auth_type : option string) : bool * Auth :=
  match auth_type with
  | None => (false, NoAuthType)
  | Some a =>
      if String.eqb a "" then (false, NoAuthType)
      else if String.eqb a "api_key" then (true, ApiKey "X-API-Key" "header")
      else if String.eqb a "bearer_token" then (true, Bearer)
      else (true, NoAuthType)
  end.

Definition config_test_case (base_url : string) (api : ConfigApi)
    (tc : ConfigCase) (e : loc) : TestCase :=
  let method := default "GET" (a_method api) in
  let '(required, auth) := config_auth (a_auth api) in
  {| tc_path := a_endpoint api;
     tc_method := Str.upper method;
     tc_name := default (method +:+ " " +:+ a_endpoint api) (c_name tc);
     tc_description := "";
     tc_request := {| url := base_url +:+ a_endpoint api;
                      headers := default ∅ (c_headers tc);
                      params := default ∅ (c_query_params tc);
                      body := c_body tc |};
     tc_expected := e;
     tc_auth_required := required;
     tc_auth := auth;
     tc_required_params := [];
     tc_auth_value := None |}.

Definition config_case (base_url : string) (api : ConfigApi) (g : Gen)
    (tc : ConfigCase) : Gen :=
  let '(e, h) :=
    alloc {| status := default (StatusStr "200") (c_expected_status tc) |}
      (store g) in
  append_case (config_test_case base_url api tc e)
    {| test_cases := test_cases g; store := h |}.

Definition config_api (base_url : string) (g : Gen) (api : ConfigApi) : Gen :=
  fold_left (config_case base_url api) (a_test_cases api) g.

Definition config_test_cases (base_url : string) (apis : list ConfigApi) : Gen :=
  fold_left (config_api base_url) apis {| test_cases := []; store := [] |}.

(** ** The page: lines 379-517

    Streamlit runs the script from its first line at every interaction,
    with the values the widgets have then.  [st.button] returns [True] in
    the run that the click on that button started and [False] in every
    other run. *)

Inductive InputMethod := UploadSpec | DirectInput.

Inductive Button := GenerateTests | RunTests.

Global Instance Button_eq_dec : EqDecision Button.
Proof. solve_decision. Defined.

(** What [yaml.safe_load] reads in the text area. *)
Record Config := {
  y_base_url : option string;
  y_apis : list ConfigApi
}.

(** The text area: empty, a text that the conversion rejects with an
    exception, or a configuration. *)
Inductive YamlInput :=
  | NoText
  | BadText
  | Text (yaml_data : Config).

(** One run of the script: the values of the widgets and the button, if
    any, whose click started the run.  [uploaded_file] is the non-empty
    dictionary that [parse_openapi_spec] returns for the uploaded file, if
    there is one. *)
Record Page := {
  input_method : InputMethod;
  api_key : string;
  bearer_token : string;
  uploaded_file : option Spec;
  yaml_input : YamlInput;
  clicked : option Button
}.

(** [st.button(label)] *)
Definition button (p : Page) (b : Button) : bool :=
  bool_decide (clicked p = Some b).

(** What a run of the script does with test cases: none are built, they
    are built and listed for review, or they are built, listed and handed
    to [run_tests], whose results go to [generate_report]. *)
Inductive Shown :=
  | Idle
  | Review (g : Gen)
  | Tested (g : Gen) (report : option Report).

Definition page_auth_values (p : Page) : Credentials :=
  {| apiKey := Some (api_key p); bearer := Some (bearer_token p) |}.

(** The Run Tests block, the same in both branches. *)
Definition run_tests_block (p : Page) (g : Gen) (http : nat -> Http)
    (sched : list Event) : Shown :=
  if button p RunTests then
    Tested g
      (generate_report <$>
         run_tests (test_cases g) (page_auth_values p) (store g) http 5 sched)
  else Review g.

Definition main (p : Page) (http : nat -> Http) (sched : list Event) : Shown :=
  match input_method p with
  | UploadSpec =>
      match uploaded_file p with
      | Some spec => run_tests_block p (generate_test_cases spec) http sched
      | None => Idle
      end
  | DirectInput =>
      match yaml_input p with
      | NoText => Idle
      | BadText => Idle
      | Text yaml_data =>
          if button p GenerateTests then
            let base_url := default "http://localhost:8000" (y_base_url yaml_data) in
            run_tests_block p (config_test_cases base_url (y_apis yaml_data))
              http sched
          else Idle
      end
  end.

(** ** The derivation, operation by operation *)

(** The operations in the order in which the two loops reach them. *)
Definition operations (spec : Spec) : list (string * (string * Operation)) :=
  flat_map (fun entry => map (pair (fst entry)) (snd entry)) (paths spec).

Definition generate_entry (spec : Spec) (base_url : string) (g : Gen)
    (e : string * (string * Operation)) : Gen :=
  generate_operation spec base_url (fst e) g (snd e).

(** What one supported operation appends: its case [t] as built, then
    the variants the two guards let through. *)
Definition block (t : TestCase) : list TestCase :=
  t :: match tc_required_params t with
       | [] => []
       | _ :: _ => [missing_params_test t]
       end
    ++ (if tc_auth_required t then [invalid_auth_test t] else []).

(** The string last written into the ['expected'] dictionary of [t]. *)
Definition final_status (operation : Operation) (t : TestCase) : string :=
  if tc_auth_required t then "401"
  else match tc_required_params t with
       | [] => first_status operation
       | _ :: _ => "400"
       end.

(** ** The scenario of one POST /items operation

    One required query parameter [page], a security requirement naming an
    apiKey scheme, and [code] as the first declared response. *)
Definition scenario_operation (summary : option string) (code : string)
    (more_codes : list string) : Operation :=
  {| op_summary := summary;
     op_description := None;
     op_security := Some [["ApiKeyAuth"]];
     op_parameters := [{| p_name := "page"; p_in := "query"; p_required := true |}];
     op_requestBody := [];
     op_responses := code :: more_codes |}.

Definition scenario_spec (servers : list string) (summary : option string)
    (key_name key_in code : string) (more_codes : list string) : Spec :=
  {| servers := servers;
     paths := [("/items", [("post", scenario_operation summary code more_codes)])];
     security := [];
     securitySchemes := {["ApiKeyAuth" := SchemeApiKey key_name key_in]} |}.

(** An operation with one required parameter and no security. *)
Definition required_only_operation : Operation :=
  {| op_summary := None; op_description := None; op_security := None;
     op_parameters := [{| p_name := "page"; p_in := "query"; p_required := true |}];
     op_requestBody := []; op_responses := ["200"] |}.

Definition required_only_spec : Spec :=
  {| servers := ["http://localhost:8000"];
     paths := [("/items", [("get", required_only_operation)])];
     security := [];
     securitySchemes := ∅ |}.

Definition empty_gen : Gen := {| test_cases := []; store := [] |}.

(** The security requirement that applies to an operation. *)
Definition resolved_security (spec : Spec) (operation : Operation) : Security :=
  default (security spec) (op_security operation).

(** A security requirement that names a scheme of an unsupported kind. *)
Definition oauth_operation : Operation :=
  {| op_summary := None; op_description := None;
     op_security := Some [["OAuth"]]; op_parameters := [];
     op_requestBody := []; op_responses := ["200"] |}.

Definition oauth_spec : Spec :=
  {| servers := ["http://localhost:8000"];
     paths := [("/items", [("get", oauth_operation)])];
     security := [];
     securitySchemes := {["OAuth" := SchemeOther "oauth2"]} |}.

(** The case of an operation carries an authRequirement when one of the
    two supported kinds was recorded on it. *)
Definition carries_auth_requirement (t : TestCase) : Prop :=
  tc_auth t <> NoAuthType.

(** ** Sample cases for execution *)

(** The nominal case of the POST /items scenario, with the key expected in
    the header [X-API-Key]. *)
Definition api_key_case : TestCase :=
  base_test_case
    (scenario_spec ["http://localhost:8000"] None "X-API-Key" "header" "201" [])
    "http://localhost:8000" "/items" "post"
    (scenario_operation None "201" []) 0.

Definition supplied_credentials : Credentials :=
  {| apiKey := Some "secret-key"; bearer := Some "secret-token" |}.

(** A network on which every call fails. *)
Definition unreachable : Http := fun _ => Raised "Connection refused".

(** A server that answers every call with the given status and text. *)
Definition answering (code : Z) (t : string) : Http :=
  fun _ => Responded {| status_code := code; resp_headers := ∅; text := t |}.

(** A configuration entry with a method outside the five verbs. *)
Definition head_api : ConfigApi :=
  {| a_endpoint := "/users"; a_method := Some "HEAD"; a_auth := None;
     a_test_cases :=
       [{| c_name := Some "headers only"; c_headers := None;
           c_query_params := None; c_body := None;
           c_expected_status := Some (StatusStr "200") |}] |}.

(** The page of Direct Input with that entry in the text area, in the run
    that a click on the given button starts. *)
Definition head_page (b : option Button) : Page :=
  {| input_method := DirectInput; api_key := ""; bearer_token := "";
     uploaded_file := None;
     yaml_input := Text {| y_base_url := None; y_apis := [head_api] |};
     clicked := b |}.

(** ** Reading a report *)

Global Instance Outcome_eq_dec : EqDecision Outcome.
Proof. solve_decision. Defined.

(** The results of the endpoint [k], in the order of [rs]. *)
Definition of_endpoint (k : string) (rs : list Result) : list Result :=
  filter (fun r => endpoint r = k) rs.

Definition count_not_passed (rs : list Result) : Z :=
  Z.of_nat (length (filter (fun r => r_passed r = false) rs)).

(** The group [g] after the results [rs] of its endpoint went through the
    grouping loop. *)
Definition extend (g : Group) (rs : list Result) : Group :=
  {| g_total := g_total g + Z.of_nat (length rs);
     g_passed := g_passed g + count_passed rs;
     g_failed := g_failed g + count_not_passed rs;
     g_tests := g_tests g ++ rs |}.

(** A result whose flag [passed] and status agree, as [execute_test] and
    the collecting loop build them. *)
Definition consistent (r : Result) : Prop :=
  (r_passed r = true <-> r_status r = Passed) /\ r_status r <> Pending.

(** binary64 one and one hundred *)
(** ** Reading a float

    What the rounding of [SpecFloat] does is stated on integers: the exact
    result of an operation is a quotient [n / d] in units of [2 ^ e], and
    a float is read in units of [2 ^ (-1200)], below the last place of
    every float met here. *)

(** Where the remainder [r] of a division by [d] lies between two
    consecutive quotients: on the lower one, below the middle, on it, or
    above. *)
Definition located (r d : Z) : location :=
  if (r =? 0)%Z then loc_Exact else loc_Inexact (2 * r ?= d)%Z.




Definition one : spec_float := S754_finite false 4503599627370496 (-52).
Definition hundred : spec_float := S754_finite false 7036874417766400 (-46).

(** ** Sample runs *)

(** The three cases derived for the POST /items scenario, and their store. *)
Definition scenario_gen : Gen :=
  generate_test_cases
    (scenario_spec ["http://localhost:8000"] None "X-API-Key" "header" "201" []).

(** A network that is down for the call of the case in position 1 and
    answers 401 to the others. *)
Definition flaky (i : nat) : Http :=
  if Nat.eqb i 1 then unreachable else answering 401 "unauthorized".

(** The calls of the cases in positions 2 and 1 end before the call of
    the case in position 0. *)
Definition out_of_order : list Event :=
  [Start; Start; Start; Finish 2; Finish 1; Finish 0; Collect; Collect; Collect].

(** ** Counting the derived cases *)

(** The number of cases the derivation appends for an operation. *)
Definition cases_of_operation (spec : Spec) (operation : Operation) : nat :=
  1 + (if existsb p_required (op_parameters operation) then 1 else 0)
    + match auth_scheme_of (resolved_security spec operation) with
      | Some _ => 1
      | None => 0
      end.

(** Path and method of the cases an entry of the contract gives. *)
Definition endpoints_of_entry (spec : Spec)
    (e : string * (string * Operation)) : list (string * string) :=
  if supported (fst (snd e))
  then replicate (cases_of_operation spec (snd (snd e)))
         (fst e, Str.upper (fst (snd e)))
  else [].

Definition case_endpoint (t : TestCase) : string * string :=
  (tc_path t, tc_method t).

Definition supported_operations (spec : Spec) : list (string * (string * Operation)) :=
  filter (fun e => supported (fst (snd e)) = true) (operations spec).

(** The cases of a derivation state can be executed against its store:
    each has one of the five verbs and a reference into the store. *)
Definition executable_gen (g : Gen) : Prop :=
  forall t, In t (test_cases g) ->
    supported (tc_method t) = true /\ tc_expected t < length (store g).

(** ** The request of a nominal case *)

(** The parameter [p] is declared in [location] under the name [k]. *)
Definition declared_in (location k : string) (p : Param) : bool :=
  String.eqb (p_in p) location && String.eqb (p_name p) k.

(** ** The authentication recorded on a nominal case *)

(** What a scheme of the contract is recorded as. *)
Definition auth_of_scheme (s : option SecurityScheme) : Auth :=
  match s with
  | Some (SchemeApiKey n i) => ApiKey n i
  | Some (SchemeHttp k) => if String.eqb k "bearer" then Bearer else NoAuthType
  | _ => NoAuthType
  end.

(** The call carries no more than the request of the case. *)
Definition nothing_injected (t : TestCase) (c : HttpCall) : Prop :=
  call_headers c = headers (tc_request t) /\
  call_params c = params (tc_request t).

(** A case with bearer authentication, as the configuration builds it. *)
Definition bearer_api : ConfigApi :=
  {| a_endpoint := "/users"; a_method := Some "get"; a_auth := Some "bearer_token";
     a_test_cases :=
       [{| c_name := None; c_headers := None; c_query_params := None;
           c_body := None; c_expected_status := None |}] |}.

Definition bearer_case : TestCase :=
  config_test_case "http://localhost:8000" bearer_api
    {| c_name := None; c_headers := None; c_query_params := None;
       c_body := None; c_expected_status := None |} 0.

(** [auth_values] when both fields of the sidebar are left blank. *)
Definition blank_credentials : Credentials := {| apiKey := Some ""; bearer := Some "" |}.

(** ** Sample pools *)

(** A submitted function that raises for the case in position 1. *)
Definition raising_job (i : nat) (t : TestCase) : Result + string :=
  if Nat.eqb i 1 then inr "worker crashed"
  else inl (execute_test t supplied_credentials (store scenario_gen) unreachable).

(** The queued futures are the last ones: calls are started in the order
    in which they were submitted. *)
Definition started_in_order (p : Pool) : Prop :=
  forall i j ti tj fj,
    i <= j ->
    futures p !! i = Some (ti, Queued) ->
    futures p !! j = Some (tj, fj) ->
    fj = Queued.

(** ** More on reports *)

(** The results listed under the endpoint [k]; none when there is no
    such group. *)
Definition group_tests (report : Report) (k : string) : list Result :=
  default [] (g_tests <$> endpoint_results report !! k).

Fixpoint has_space (s : string) : bool :=
  match s with
  | EmptyString => false
  | String c r => Ascii.eqb c " " || has_space r
  end.

(** The pairs of an entry of the configuration and one of its cases, in
    the order of the two loops. *)
Definition config_entries (apis : list ConfigApi) : list (ConfigApi * ConfigCase) :=
  flat_map (fun api => map (pair api) (a_test_cases api)) apis.

Definition declared_status (c : ConfigCase) : Status :=
  default (StatusStr "200") (c_expected_status c).

(** Two results of a sample run. *)
Definition sample_results : list Result :=
  [execute_test api_key_case supplied_credentials
     [{| status := StatusStr "201" |}] (answering 201 "created");
   execute_test (invalid_auth_test api_key_case) supplied_credentials
     [{| status := StatusStr "401" |}] unreachable].

(** * The test executor and generator of [src/test_generator.py] *)

Module Generator.

(** ** [extract_resource] *)

(** The separators of [re.split(r'[/?{}]', endpoint)]. *)
Definition is_separator (c : ascii) : bool :=
  Ascii.eqb c "/" || Ascii.eqb c "?" || Ascii.eqb c "{" || Ascii.eqb c "}".

(** [re.split] on single separator characters: one more part than there
    are separators, empty parts included. *)
Fixpoint split (s : string) : list string :=
  match s with
  | EmptyString => [EmptyString]
  | String c r =>
      if is_separator c then EmptyString :: split r
      else match split r with
           | p :: ps => String c p :: ps
           | [] => [String c EmptyString]
           end
  end.

Definition is_digit (c : ascii) : bool :=
  let n := nat_of_ascii c in Nat.leb 48 n && Nat.leb n 57.

Fixpoint all_digits (s : string) : bool :=
  match s with
  | EmptyString => true
  | String c r => is_digit c && all_digits r
  end.

(** [p.isdigit()] of a text of ASCII characters *)
Definition isdigit (p : string) : bool :=
  match p with
  | EmptyString => false
  | _ => all_digits p
  end.

(** [p and not p.isdigit()] *)
Definition kept (p : string) : bool :=
  match p with
  | EmptyString => false
  | _ => negb (isdigit p)
  end.

Definition extract_resource (endpoint : string) : string :=
  let parts := split endpoint in
  let parts := List.filter kept parts in
  match parts with
  | _ :: p :: _ => p
  | _ => "General"
  end.

Fixpoint has_separator (s : string) : bool :=
  match s with
  | EmptyString => false
  | String c r => is_separator c || has_separator r
  end.

(** A path segment of ASCII characters that [extract_resource] keeps
    whole. *)
Definition plain (s : string) : Prop :=
  Str.isascii s = true /\ has_separator s = false /\ kept s = true.

(** ** [run_tests] *)

Record Row := {
  row_test_case : string;
  row_endpoint : string;
  row_method : string;
  (** the request body after [json.loads], [None] for an empty cell or
      the text null *)
  row_request_body : option string;
  row_expected_status : Z
}.

(** [request_details] *)
Record RequestDetails := {
  rd_method : string;
  rd_url : string;
  rd_headers : Dict;
  rd_body : option string
}.

(** [failure_reason] *)
Record FailureReason := {
  fr_expected_status : Z;
  fr_actual_status : Z;
  fr_response_body : string;
  fr_request_sent : RequestDetails
}.

(** A row of the report; the response time is left out, and the failure
    reason is kept as the dictionary that [json.dumps] prints, [None]
    standing for the text N/A. *)
Record ReportRow := {
  rr_test_case : string;
  rr_endpoint : string;
  rr_expected_status : Z;
  rr_actual_status : Z;
  rr_pass : bool;
  rr_failure_reason : option FailureReason
}.

Definition json_headers : Dict := {["Content-Type" := Some "application/json"]}.

(** [requests.request(method, url, json=request_body, headers=headers)] *)
Definition call_of (base_url : string) (row : Row) : HttpCall :=
  {| call_verb := Str.lower (row_method row);
     call_url := base_url +:+ row_endpoint row;
     call_headers := json_headers;
     call_params := ∅;
     call_json := row_request_body row |}.

(** The body of the loop on an answered call. *)
Definition report_row (base_url : string) (row : Row) (response : Response)
    : ReportRow :=
  let method := Str.lower (row_method row) in
  let request_details :=
    {| rd_method := Str.upper method;
       rd_url := base_url +:+ row_endpoint row;
       rd_headers := json_headers;
       rd_body := row_request_body row |} in
  let actual_status := status_code response in
  let pass := Z.eqb actual_status (row_expected_status row) in
  {| rr_test_case := row_test_case row;
     rr_endpoint := row_endpoint row;
     rr_expected_status := row_expected_status row;
     rr_actual_status := actual_status;
     rr_pass := pass;
     rr_failure_reason :=
       if pass then None
       else Some {| fr_expected_status := row_expected_status row;
                    fr_actual_status := actual_status;
                    fr_response_body := text response;
                    fr_request_sent := request_details |} |}.

(** The loop from the row in position [i] on: the report rows appended, or
    the description of the exception that ended the run, with the calls
    that were issued.  There is no handler: an exception leaves the
    function. *)
Fixpoint run_from (base_url : string) (http : nat -> Http) (i : nat)
    (rows : list Row) : (string + list ReportRow) * list HttpCall :=
  match rows with
  | [] => (inr [], [])
  | row :: rest =>
      let c := call_of base_url row in
      match http i c with
      | Raised msg => (inl msg, [c])
      | Responded response =>
          let '(out, calls) := run_from base_url http (S i) rest in
          (match out with
           | inl msg => inl msg
           | inr results => inr (report_row base_url row response :: results)
           end, c :: calls)
      end
  end.

Definition run_tests (rows : list Row) (base_url : string) (http : nat -> Http)
    : (string + list ReportRow) * list HttpCall :=
  run_from base_url http 0 rows.

(** Two rows of a table. *)
Definition list_users_row : Row :=
  {| row_test_case := "list_users"; row_endpoint := "/api/users";
     row_method := "GET"; row_request_body := None; row_expected_status := 200 |}.

Definition create_user_row : Row :=
  {| row_test_case := "create_user"; row_endpoint := "/api/users";
     row_method := "POST"; row_request_body := Some "{}";
     row_expected_status := 201 |}.

Definition sample_rows : list Row := [list_users_row; create_user_row].

End Generator.

(** * The demonstration server of [src/server.py]

    The two stores are Python dictionaries keyed by integers: lists of
    entries in insertion order.  Request bodies are JSON objects whose
    values have the types of the initial entries: text for [name], [email]
    and [status], integers for [user_id] and [total], a list of texts for
    [items]. *)

Module Server.

Local Open Scope Z_scope.

(** ** Dictionaries in insertion order *)

Section Ordered.

Context {V : Type}.

(** [d.get(k)] *)
Fixpoint get (k : Z) (d : list (Z * V)) : option V :=
  match d with
  | [] => None
  | (k', v) :: r => if Z.eqb k k' then Some v else get k r
  end.

(** [d[k] = v]: in place when [k] is a key, at the end otherwise *)
Fixpoint set (k : Z) (v : V) (d : list (Z * V)) : list (Z * V) :=
  match d with
  | [] => [(k, v)]
  | (k', v') :: r => if Z.eqb k k' then (k, v) :: r else (k', v') :: set k v r
  end.

(** [del d[k]] *)
Fixpoint del (k : Z) (d : list (Z * V)) : list (Z * V) :=
  match d with
  | [] => []
  | (k', v) :: r => if Z.eqb k k' then r else (k', v) :: del k r
  end.

Definition keys (d : list (Z * V)) : list Z := map fst d.
Definition values (d : list (Z * V)) : list V := map snd d.

(** [max(d.keys()) + 1 if d else 1] *)
Definition new_id (d : list (Z * V)) : Z :=
  match keys d with
  | [] => 1
  | k :: ks => fold_left Z.max ks k + 1
  end.

End Ordered.

(** ** The stores *)

Record User := {
  u_id : Z;
  u_name : string;
  u_email : string
}.

Record Order := {
  o_id : Z;
  o_user_id : Z;
  o_items : list string;
  o_total : Z;
  o_status : string
}.

Record State := {
  users : list (Z * User);
  orders : list (Z * Order)
}.

Definition initial : State :=
  {| users :=
       [(1, {| u_id := 1; u_name := "John Doe"; u_email := "john@example.com" |});
        (2, {| u_id := 2; u_name := "Jane Smith"; u_email := "jane@example.com" |})];
     orders :=
       [(1, {| o_id := 1; o_user_id := 1; o_items := ["item1"];
               o_total := 100; o_status := "pending" |});
        (2, {| o_id := 2; o_user_id := 2; o_items := ["item2"];
               o_total := 200; o_status := "completed" |})] |}.

(** ** Requests and responses *)

(** The JSON object of a user request: the keys [name] and [email]. *)
Record UserData := {
  d_name : option string;
  d_email : option string
}.

(** The JSON object of an order request. *)
Record OrderData := {
  d_user_id : option Z;
  d_items : option (list string);
  d_total : option Z
}.

Inductive Body :=
  | BUser (u : User)
  | BUsers (l : list User)
  | BOrder (o : Order)
  | BOrders (l : list Order)
  | BError (msg : string)
  | BEmpty.

Definition Reply : Type := Z * Body.

(** ** The handlers *)

Definition get_users (st : State) : Reply :=
  (200, BUsers (values (users st))).

Definition get_user (st : State) (user_id : Z) : Reply :=
  match get user_id (users st) with
  | None => (404, BError "User not found")
  | Some user => (200, BUser user)
  end.

Definition create_user (st : State) (data : UserData) : State * Reply :=
  match d_name data, d_email data with
  | Some name, Some email =>
      let id := new_id (users st) in
      let new_user := {| u_id := id; u_name := name; u_email := email |} in
      ({| users := set id new_user (users st); orders := orders st |},
       (201, BUser new_user))
  | _, _ => (st, (400, BError "Missing required fields"))
  end.

Definition update_user (st : State) (user_id : Z) (data : UserData)
    : State * Reply :=
  match get user_id (users st) with
  | None => (st, (404, BError "User not found"))
  | Some user =>
      let updated :=
        {| u_id := u_id user;
           u_name := default (u_name user) (d_name data);
           u_email := default (u_email user) (d_email data) |} in
      ({| users := set user_id updated (users st); orders := orders st |},
       (200, BUser updated))
  end.

Definition delete_user (st : State) (user_id : Z) : State * Reply :=
  match get user_id (users st) with
  | None => (st, (404, BError "User not found"))
  | Some _ =>
      ({| users := del user_id (users st); orders := orders st |}, (204, BEmpty))
  end.

Definition get_orders (st : State) : Reply :=
  (200, BOrders (values (orders st))).

Definition get_order (st : State) (order_id : Z) : Reply :=
  match get order_id (orders st) with
  | None => (404, BError "Order not found")
  | Some order => (200, BOrder order)
  end.

Definition create_order (st : State) (data : OrderData) : State * Reply :=
  match d_user_id data, d_items data, d_total data with
  | Some user_id, Some items, Some total =>
      match get user_id (users st) with
      | None => (st, (404, BError "User not found"))
      | Some _ =>
          let id := new_id (orders st) in
          let new_order :=
            {| o_id := id; o_user_id := user_id; o_items := items;
               o_total := total; o_status := "pending" |} in
          ({| users := users st; orders := set id new_order (orders st) |},
           (201, BOrder new_order))
      end
  | _, _, _ => (st, (400, BError "Missing required fields"))
  end.

Definition update_order_status (st : State) (order_id : Z)
    (status : option string) : State * Reply :=
  match get order_id (orders st) with
  | None => (st, (404, BError "Order not found"))
  | Some order =>
      match status with
      | None => (st, (400, BError "Status field is required"))
      | Some s =>
          let updated :=
            {| o_id := o_id order; o_user_id := o_user_id order;
               o_items := o_items order; o_total := o_total order;
               o_status := s |} in
          ({| users := users st; orders := set order_id updated (orders st) |},
           (200, BOrder updated))
      end
  end.

(** ** The routes *)

Inductive Request :=
  | GetUsers
  | GetUser (user_id : Z)
  | CreateUser (data : UserData)
  | UpdateUser (user_id : Z) (data : UserData)
  | DeleteUser (user_id : Z)
  | GetOrders
  | GetOrder (order_id : Z)
  | CreateOrder (data : OrderData)
  | UpdateOrderStatus (order_id : Z) (status : option string).

Definition handle (st : State) (r : Request) : State * Reply :=
  match r with
  | GetUsers => (st, get_users st)
  | GetUser i => (st, get_user st i)
  | CreateUser d => create_user st d
  | UpdateUser i d => update_user st i d
  | DeleteUser i => delete_user st i
  | GetOrders => (st, get_orders st)
  | GetOrder i => (st, get_order st i)
  | CreateOrder d => create_order st d
  | UpdateOrderStatus i s => update_order_status st i s
  end.

(** The state after a sequence of requests. *)
Definition serve (st : State) (rs : list Request) : State :=
  fold_left (fun s r => fst (handle s r)) rs st.

(** The keys of a store are in increasing order and every entry carries
    its key as its id. *)
Definition store_ok {V : Type} (id : V -> Z) (d : list (Z * V)) : Prop :=
  StronglySorted Z.lt (keys d) /\ forall k v, In (k, v) d -> id v = k.

Definition state_ok (st : State) : Prop :=
  store_ok u_id (users st) /\ store_ok o_id (orders st).

End Server.

(** * The sample API of [src/sample_apis.py]

    The handlers are the function bodies: a raised [HTTPException] is the
    left result, with its status code and detail.  Validation of the
    query and path values by the framework is not modelled; [skip] and
    [limit] are natural numbers. *)

Module Sample.

(** [raise HTTPException(status_code, detail)] or a returned value *)
Definition Raises (A : Type) : Type := (Z * string) + A.

(** ** The dependencies *)

Definition verify_api_key (x_api_key : option string) : Raises string :=
  match x_api_key with
  | Some k => if String.eqb k "valid_api_key" then inr k
              else inl (401%Z, "Invalid API key")
  | None => inl (401%Z, "Invalid API key")
  end.

(** [s[n:]] *)
Fixpoint drop (n : nat) (s : string) : string :=
  match n, s with
  | S k, String _ r => drop k r
  | _, _ => s
  end.

(** [s.replace(old, "")] for a non-empty [old]: the occurrences of [old]
    are removed from left to right; [fuel] bounds the number of steps. *)
Fixpoint remove_from (fuel : nat) (old s : string) : string :=
  match fuel with
  | 0 => s
  | S f =>
      match s with
      | EmptyString => EmptyString
      | String c r =>
          if String.prefix old s then remove_from f old (drop (String.length old) s)
          else String c (remove_from f old r)
      end
  end.

Definition remove (old s : string) : string :=
  remove_from (String.length s) old s.

Definition verify_token (authorization : option string) : Raises string :=
  match authorization with
  | None => inl (401%Z, "Invalid authentication")
  | Some a =>
      if String.eqb a "" || negb (String.prefix "Bearer " a)
      then inl (401%Z, "Invalid authentication")
      else
        let token := remove "Bearer " a in
        if String.eqb token "valid_token" then inr token
        else inl (401%Z, "Invalid token")
  end.

(** ** The users *)

Record User := {
  id : Z;
  username : string;
  email : string;
  active : bool
}.

Definition users_db : list User :=
  [{| id := 1; username := "john_doe"; email := "john@example.com"; active := true |};
   {| id := 2; username := "jane_smith"; email := "jane@example.com"; active := true |};
   {| id := 3; username := "bob_johnson"; email := "bob@example.com"; active := false |}].

(** [l[a:b]] for natural numbers [a] and [b] *)
Definition slice {A : Type} (a b : nat) (l : list A) : list A :=
  firstn (b - a) (skipn a l).

Definition get_users (db : list User) (active_filter : option bool)
    (skip limit : nat) : list User :=
  if Nat.ltb (length db) skip then []
  else
    let filtered :=
      match active_filter with
      | Some a => List.filter (fun user => Bool.eqb (active user) a) db
      | None => db
      end in
    slice skip (skip + limit) filtered.

Definition get_user (db : list User) (user_id : Z) : Raises User :=
  match List.find (fun user => Z.eqb (id user) user_id) db with
  | Some user => inr user
  | None => inl (404%Z, "User not found")
  end.

(** The body of [UserCreate]; the validator of [email] is
    [email_must_contain_at]. *)
Record UserCreate := {
  new_username : string;
  new_email : string
}.

Fixpoint contains_at (s : string) : bool :=
  match s with
  | EmptyString => false
  | String c r => Ascii.eqb c "@" || contains_at r
  end.

Definition email_must_contain_at (v : string) : string + string :=
  if contains_at v then inr v else inl "email must contain @".

Definition create_user (db : list User) (user : UserCreate)
    : list User * Raises User :=
  if existsb (fun u => String.eqb (username u) (new_username user)) db
  then (db, inl (400%Z, "Username already exists"))
  else
    let new_user :=
      {| id := Z.of_nat (length db) + 1; username := new_username user;
         email := new_email user; active := true |} in
    (db ++ [new_user], inr new_user).

(** The loop of [update_user]: the first user with the id is updated. *)
Fixpoint update_user (db : list User) (user_id : Z) (user : UserCreate)
    : list User * Raises User :=
  match db with
  | [] => ([], inl (404%Z, "User not found"))
  | existing :: rest =>
      if Z.eqb (id existing) user_id then
        let updated :=
          {| id := id existing; username := new_username user;
             email := new_email user; active := active existing |} in
        (updated :: rest, inr updated)
      else
        let '(rest', reply) := update_user rest user_id user in
        (existing :: rest', reply)
  end.

(** The loop of [delete_user]: the first user with the id is deleted. *)
Fixpoint delete_user (db : list User) (user_id : Z) : list User * Raises string :=
  match db with
  | [] => ([], inl (404%Z, "User not found"))
  | user :: rest =>
      if Z.eqb (id user) user_id then (rest, inr "User deleted")
      else
        let '(rest', reply) := delete_user rest user_id in
        (user :: rest', reply)
  end.

(** [old] occurs nowhere in [s]. *)
Fixpoint free_of (old s : string) : bool :=
  match s with
  | EmptyString => true
  | String _ r => negb (String.prefix old s) && free_of old r
  end.

End Sample.

(** * Properties *)

(** ** Derivation *)

Section Derivation.

Variable spec : Spec.
Variable base_url : string.

Lemma fold_add_parameter_expected ps t :
  tc_expected (fold_left add_parameter ps t) = tc_expected t.
Proof.
  revert t. induction ps as [|p ps IH]; intros t; simpl; [reflexivity|].
  rewrite IH. unfold add_parameter.
  destruct (p_required p), (String.eqb (p_in p) "query"),
    (String.eqb (p_in p) "header"); reflexivity.
Qed.

Lemma fold_add_content_expected cs t :
  tc_expected (fold_left add_content cs t) = tc_expected t.
Proof.
  revert t. induction cs as [|c cs IH]; intros t; simpl; [reflexivity|].
  rewrite IH. reflexivity.
Qed.

Lemma add_authentication_expected operation t :
  tc_expected (add_authentication spec operation t) = tc_expected t.
Proof.
  unfold add_authentication.
  destruct (auth_scheme_of _) as [k|]; [|reflexivity].
  destruct (securitySchemes spec !! k) as [[n i|s|ty]|]; try reflexivity.
  destruct (String.eqb s "bearer"); reflexivity.
Qed.

Lemma base_test_case_expected path method operation e :
  tc_expected (base_test_case spec base_url path method operation e) = e.
Proof.
  unfold base_test_case.
  rewrite fold_add_content_expected, fold_add_parameter_expected,
    add_authentication_expected. reflexivity.
Qed.

Lemma set_status_last (h : Store) x v :
  set_status (length h) v (h ++ [x]) = h ++ [{| status := v |}].
Proof.
  unfold set_status. replace (length h) with (length h + 0) by lia.
  rewrite insert_app_r. reflexivity.
Qed.

Lemma generate_operation_unsupported path method operation g :
  supported method = false ->
  generate_operation spec base_url path g (method, operation) = g.
Proof. intros H. unfold generate_operation. rewrite H. reflexivity. Qed.

Lemma generate_operation_supported path method operation g :
  supported method = true ->
  let t := base_test_case spec base_url path method operation (length (store g)) in
  generate_operation spec base_url path g (method, operation) =
    {| test_cases := test_cases g ++ block t;
       store := store g ++ [{| status := StatusStr (final_status operation t) |}] |}.
Proof.
  intros H t. unfold generate_operation. rewrite H. simpl.
  fold t. unfold block, final_status.
  assert (He : tc_expected t = length (store g))
    by apply base_test_case_expected.
  destruct (tc_required_params t) as [|q qs] eqn:Hq;
    destruct (tc_auth_required t) eqn:Ha; simpl;
    unfold invalid_auth_case, missing_params_case, append_error_case, append_case;
    simpl; rewrite ?He, ?set_status_last, <- ?app_assoc; reflexivity.
Qed.

End Derivation.

Section WholeDerivation.

Variable spec : Spec.

Let step := generate_entry spec (base_url_of spec).

Lemma generate_entry_extends g e :
  exists cs hs,
    step g e = {| test_cases := test_cases g ++ cs; store := store g ++ hs |}.
Proof.
  destruct e as [path [method operation]]. unfold step, generate_entry. cbn [fst snd].
  destruct (supported method) eqn:Hs.
  - rewrite generate_operation_supported by exact Hs. eauto.
  - rewrite generate_operation_unsupported by exact Hs.
    exists [], []. rewrite !app_nil_r. destruct g; reflexivity.
Qed.

Lemma fold_generate_entry_extends ops g :
  exists cs hs,
    fold_left step ops g =
      {| test_cases := test_cases g ++ cs; store := store g ++ hs |}.
Proof.
  revert g. induction ops as [|e ops IH]; intros g; simpl.
  - exists [], []. rewrite !app_nil_r. destruct g; reflexivity.
  - destruct (generate_entry_extends g e) as (cs & hs & ->).
    destruct (IH {| test_cases := test_cases g ++ cs; store := store g ++ hs |})
      as (cs' & hs' & ->).
    simpl. exists (cs ++ cs'), (hs ++ hs'). rewrite !app_assoc. reflexivity.
Qed.

Lemma generate_path_entries path item g :
  fold_left (generate_operation spec (base_url_of spec) path) item g =
  fold_left step (map (pair path) item) g.
Proof.
  revert g. induction item as [|e item IH]; intros g; simpl; [reflexivity|].
  apply IH.
Qed.

Lemma generate_from_operations g :
  generate_from spec g = fold_left step (operations spec) g.
Proof.
  unfold generate_from, operations. revert g.
  induction (paths spec) as [|[path item] ps IH]; intros g; simpl; [reflexivity|].
  rewrite fold_left_app, <- generate_path_entries. apply IH.
Qed.

(** Where the case of an operation stands once the derivation is over:
    it is in the list, and its expected status reads [final_status]. *)
Lemma nominal_after_derivation ops1 path method operation ops2 :
  operations spec = ops1 ++ (path, (method, operation)) :: ops2 ->
  supported method = true ->
  let g1 := fold_left step ops1 empty_gen in
  let t := base_test_case spec (base_url_of spec) path method operation
             (length (store g1)) in
  let g := generate_test_cases spec in
  In t (test_cases g) /\
  block t = firstn (length (block t)) (skipn (length (test_cases g1)) (test_cases g)) /\
  expected_status (store g) t = Some (StatusStr (final_status operation t)).
Proof.
  intros Hops Hs g1 t g.
  assert (Hg : g = fold_left step ops2 (step g1 (path, (method, operation)))).
  { unfold g, generate_test_cases. fold empty_gen.
    rewrite generate_from_operations, Hops, fold_left_app. reflexivity. }
  unfold step at 2 in Hg. unfold generate_entry in Hg. cbn [fst snd] in Hg.
  rewrite generate_operation_supported in Hg by exact Hs. fold g1 t in Hg.
  destruct (fold_generate_entry_extends ops2
    {| test_cases := test_cases g1 ++ block t;
       store := store g1 ++ [{| status := StatusStr (final_status operation t) |}] |})
    as (cs & hs & Hext).
  rewrite Hext in Hg. cbn [test_cases store] in Hg. rewrite Hg.
  cbn [test_cases store].
  split; [|split].
  - apply in_or_app. left. apply in_or_app. right. left. reflexivity.
  - rewrite <- app_assoc, drop_app_length, take_app_length. reflexivity.
  - unfold expected_status, get_status.
    unfold t at 1. rewrite base_test_case_expected.
    rewrite <- app_assoc, lookup_app_r by lia.
    rewrite Nat.sub_diag. reflexivity.
Qed.

End WholeDerivation.

Lemma append_same_prefix (s x y : string) : s +:+ x = s +:+ y -> x = y.
Proof.
  induction s as [|c s IH]; simpl; intros H; [exact H|].
  injection H as H. exact (IH H).
Qed.

Lemma append_not_self (s x : string) : x <> "" -> s +:+ x <> s.
Proof.
  intros Hx H. apply Hx. apply (append_same_prefix s).
  rewrite H. clear. induction s as [|c s IH]; [reflexivity|].
  change (String c s = String c (s +:+ "")). f_equal. exact IH.
Qed.

Section Variants.

Variable spec : Spec.
Variable base_url : string.

Lemma fold_add_parameter_fields ps t :
  let t' := fold_left add_parameter ps t in
  tc_name t' = tc_name t /\
  tc_auth_required t' = tc_auth_required t /\
  tc_auth t' = tc_auth t /\
  tc_required_params t' =
    tc_required_params t ++ map p_name (filter (fun p => p_required p = true) ps).
Proof.
  revert t. induction ps as [|p ps IH]; intros t; simpl.
  - rewrite app_nil_r. auto.
  - destruct (IH (add_parameter t p)) as (-> & -> & -> & ->).
    unfold add_parameter.
    destruct (String.eqb (p_in p) "query"), (String.eqb (p_in p) "header");
      destruct (p_required p) eqn:Hr; simpl;
      rewrite ?filter_cons_True, ?filter_cons_False by (rewrite Hr; congruence);
      simpl; rewrite <- ?app_assoc; auto.
Qed.

Lemma fold_add_content_fields cs t :
  let t' := fold_left add_content cs t in
  tc_name t' = tc_name t /\
  tc_auth_required t' = tc_auth_required t /\
  tc_auth t' = tc_auth t /\
  tc_required_params t' = tc_required_params t.
Proof.
  revert t. induction cs as [|c cs IH]; intros t; simpl; [auto|].
  destruct (IH (add_content t c)) as (-> & -> & -> & ->). auto.
Qed.

Lemma add_authentication_fields operation t :
  tc_auth_required t = false ->
  tc_auth t = NoAuthType ->
  let t' := add_authentication spec operation t in
  tc_name t' = tc_name t /\
  tc_required_params t' = tc_required_params t /\
  tc_auth_required t' =
    bool_decide (auth_scheme_of (resolved_security spec operation) <> None) /\
  (tc_auth t' <> NoAuthType -> tc_auth_required t' = true).
Proof.
  intros Hr Ha. unfold add_authentication. fold (resolved_security spec operation).
  destruct (auth_scheme_of _) as [k|]; case_bool_decide; try congruence.
  - destruct (securitySchemes spec !! k) as [[n i|s|ty]|]; simpl; auto.
    destruct (String.eqb s "bearer"); simpl; auto.
  - rewrite Hr, Ha. repeat split; congruence.
Qed.

Lemma base_test_case_fields path method operation e :
  let t := base_test_case spec base_url path method operation e in
  tc_required_params t =
    map p_name (filter (fun p => p_required p = true) (op_parameters operation)) /\
  tc_auth_required t =
    bool_decide (auth_scheme_of (resolved_security spec operation) <> None) /\
  (tc_auth t <> NoAuthType -> tc_auth_required t = true).
Proof.
  unfold base_test_case.
  match goal with
  | |- context [add_authentication spec operation ?t0] =>
      destruct (add_authentication_fields operation t0 eq_refl eq_refl)
        as (_ & Hq & Hr & Ha);
      destruct (fold_add_parameter_fields (op_parameters operation)
                  (add_authentication spec operation t0)) as (_ & Hr1 & Ha1 & Hq1)
  end.
  match goal with
  | |- context [fold_left add_content ?cs ?t2] =>
      destruct (fold_add_content_fields cs t2) as (_ & Hr2 & Ha2 & Hq2)
  end.
  cbv zeta in *. rewrite Hq2, Hr2, Ha2, Hq1, Hr1, Ha1, Hq, Hr.
  split; [reflexivity|]. split; [reflexivity|]. rewrite <- Hr. exact Ha.
Qed.

Lemma missing_in_block t :
  In (missing_params_test t) (block t) <-> tc_required_params t <> [].
Proof.
  unfold block. split.
  - intros [H|H].
    + exfalso. apply (f_equal tc_name) in H. simpl in H.
      symmetry in H. revert H. apply append_not_self. discriminate.
    + apply in_app_or in H. destruct H as [H|H].
      * destruct (tc_required_params t); [destruct H | discriminate].
      * destruct (tc_auth_required t); [|destruct H].
        destruct H as [H|[]]. apply (f_equal tc_name) in H. simpl in H.
        apply append_same_prefix in H. discriminate.
  - intros H. right. apply in_or_app. left.
    destruct (tc_required_params t); [congruence | left; reflexivity].
Qed.

Lemma invalid_in_block t :
  In (invalid_auth_test t) (block t) <-> tc_auth_required t = true.
Proof.
  unfold block. split.
  - intros [H|H].
    + exfalso. apply (f_equal tc_name) in H. simpl in H.
      symmetry in H. revert H. apply append_not_self. discriminate.
    + apply in_app_or in H. destruct H as [H|H].
      * destruct (tc_required_params t); [destruct H|].
        destruct H as [H|[]]. apply (f_equal tc_name) in H. simpl in H.
        apply append_same_prefix in H. discriminate.
      * destruct (tc_auth_required t); [reflexivity | destruct H].
  - intros H. right. apply in_or_app. right. rewrite H. left. reflexivity.
Qed.

End Variants.

(** C1.  The scenario of one POST /items operation with one required query
    parameter [page] and apiKey security, with [code] as the declared
    response: the derivation yields three cases in the order nominal,
    missing required parameters, invalid authentication, and the expected
    status read from each of the three is "401", since the three hold one
    ['expected'] dictionary.  The statuses are not [code], "400", "401". *)
Theorem scenario_cases_share_expected servers summary key_name key_in code more :
  let g := generate_test_cases
             (scenario_spec servers summary key_name key_in code more) in
  let name := default "POST /items" summary in
  map tc_name (test_cases g) =
    [name; name +:+ " - Missing Required Parameters";
     name +:+ " - Invalid Authentication"] /\
  map tc_expected (test_cases g) = [0; 0; 0] /\
  map (expected_status (store g)) (test_cases g) =
    [Some (StatusStr "401"); Some (StatusStr "401"); Some (StatusStr "401")] /\
  map (expected_status (store g)) (test_cases g) <>
    [Some (StatusStr code); Some (StatusStr "400"); Some (StatusStr "401")].
Proof.
  intros g name. subst g name.
  destruct summary as [s|]; repeat split; try reflexivity; discriminate.
Qed.

(** C2.  For an operation of the contract with a supported method, once the
    derivation is over its nominal case is in the list, followed by its
    variants, and its expected status reads the string written for the
    last variant emitted: "401" when the invalid-authentication variant
    was emitted, else "400" when the missing-parameters variant was, and
    the first declared response code (default "200") only when no variant
    was emitted. *)
Theorem nominal_status_after_derivation spec ops1 path method operation ops2 :
  operations spec = ops1 ++ (path, (method, operation)) :: ops2 ->
  supported method = true ->
  let g1 := fold_left (generate_entry spec (base_url_of spec)) ops1 empty_gen in
  let t := base_test_case spec (base_url_of spec) path method operation
             (length (store g1)) in
  let g := generate_test_cases spec in
  In t (test_cases g) /\
  block t = firstn (length (block t)) (skipn (length (test_cases g1)) (test_cases g)) /\
  expected_status (store g) t =
    Some (StatusStr
            (if tc_auth_required t then "401"
             else match tc_required_params t with
                  | [] => first_status operation
                  | _ :: _ => "400"
                  end)).
Proof. apply nominal_after_derivation. Qed.

Lemma nominal_status_after_derivation_witness :
  let t := base_test_case required_only_spec "http://localhost:8000" "/items"
             "get" required_only_operation 0 in
  first_status required_only_operation = "200" /\
  In t (test_cases (generate_test_cases required_only_spec)) /\
  expected_status (store (generate_test_cases required_only_spec)) t =
    Some (StatusStr "400").
Proof.
  split; [reflexivity|].
  destruct (nominal_status_after_derivation required_only_spec [] "/items" "get"
              required_only_operation [] eq_refl eq_refl) as (Hin & _ & Hst).
  split; [exact Hin | exact Hst].
Defined.

(** C8, as amended.  For an operation with a supported method the
    derivation appends its nominal case followed by its variants; the
    missing-required-parameters variant is among them if and only if the
    operation declares a required parameter, and the invalid-authentication
    variant if and only if the security requirement that applies to the
    operation names a scheme, which is what the flag [auth_required] of the
    nominal case records.  A nominal case that carries an authRequirement
    has the flag set. *)
Theorem variants_emitted spec base_url path method operation g :
  supported method = true ->
  let t := base_test_case spec base_url path method operation (length (store g)) in
  let g' := generate_operation spec base_url path g (method, operation) in
  test_cases g' = test_cases g ++ block t /\
  (In (missing_params_test t) (block t) <->
     exists p, In p (op_parameters operation) /\ p_required p = true) /\
  (In (invalid_auth_test t) (block t) <-> tc_auth_required t = true) /\
  (tc_auth_required t = true <->
     auth_scheme_of (resolved_security spec operation) <> None) /\
  (carries_auth_requirement t -> In (invalid_auth_test t) (block t)).
Proof.
  intros Hs t g'. subst g'.
  rewrite generate_operation_supported by exact Hs. fold t. cbn [test_cases].
  destruct (base_test_case_fields spec base_url path method operation
              (length (store g))) as (Hq & Hr & Ha). fold t in Hq, Hr, Ha.
  split; [reflexivity|]. split; [|split; [|split]].
  - rewrite missing_in_block, Hq. split.
    + intros Hne.
      destruct (filter (fun p => p_required p = true) (op_parameters operation))
        as [|p l] eqn:Hf; [simpl in Hne; congruence|].
      assert (Hp : p ∈ filter (fun p => p_required p = true) (op_parameters operation))
        by (rewrite Hf; left).
      apply list_elem_of_filter in Hp. destruct Hp as [Hp1 Hp2].
      exists p. split; [apply list_elem_of_In; exact Hp2 | exact Hp1].
    + intros (p & Hp & Hreq) Hnil.
      assert (Hp' : p ∈ filter (fun p => p_required p = true) (op_parameters operation)).
      { apply list_elem_of_filter. split; [exact Hreq | apply list_elem_of_In; exact Hp]. }
      destruct (filter _ _); [inversion Hp' | discriminate].
  - apply invalid_in_block.
  - rewrite Hr. apply bool_decide_eq_true.
  - intros Hc. apply invalid_in_block. apply Ha. exact Hc.
Qed.

Lemma variants_emitted_witness :
  let t := base_test_case oauth_spec "http://localhost:8000" "/items" "get"
             oauth_operation 0 in
  test_cases (generate_test_cases oauth_spec) = block t /\
  (In (invalid_auth_test t) (block t) <-> tc_auth_required t = true).
Proof.
  destruct (variants_emitted oauth_spec "http://localhost:8000" "/items" "get"
              oauth_operation empty_gen eq_refl) as (Hb & _ & Hi & _).
  split; [exact Hb | exact Hi].
Defined.

(** C8 as stated fails: the operation of [oauth_spec] names a scheme of an
    unsupported kind, so that its nominal case carries no authRequirement,
    and the derivation still emits the invalid-authentication variant. *)
Lemma invalid_auth_without_requirement :
  let g := generate_test_cases oauth_spec in
  exists t,
    test_cases g = [t; invalid_auth_test t] /\
    tc_auth t = NoAuthType /\
    ~ (In (invalid_auth_test t) (test_cases g) <-> carries_auth_requirement t).
Proof.
  eexists. split; [reflexivity|]. split; [reflexivity|].
  unfold carries_auth_requirement. intros [H _]. apply H; [|reflexivity].
  right. left. reflexivity.
Qed.

(** ** Execution of one case *)

Lemma lower_upper_ascii c : Str.lower_ascii (Str.upper_ascii c) = Str.lower_ascii c.
Proof. destruct c as [[] [] [] [] [] [] [] []]; reflexivity. Qed.

Lemma lower_upper s :
  Str.isascii s = true -> Str.lower (Str.upper s) = Str.lower s.
Proof.
  intros _.
  induction s as [|c s IH]; [reflexivity|].
  change (String (Str.lower_ascii (Str.upper_ascii c)) (Str.lower (Str.upper s)) =
          String (Str.lower_ascii c) (Str.lower s)).
  rewrite lower_upper_ascii, IH. reflexivity.
Qed.

Lemma isascii_lower_ascii c :
  Str.isascii_char (Str.lower_ascii c) = Str.isascii_char c.
Proof. destruct c as [[] [] [] [] [] [] [] []]; reflexivity. Qed.

Lemma isascii_lower s : Str.isascii (Str.lower s) = Str.isascii s.
Proof.
  induction s as [|c s IH]; [reflexivity|].
  change (Str.isascii_char (Str.lower_ascii c) && Str.isascii (Str.lower s) =
          Str.isascii_char c && Str.isascii s).
  rewrite isascii_lower_ascii, IH. reflexivity.
Qed.

(** A method that passes the test of line 37 is a text of ASCII letters. *)
Lemma supported_isascii method :
  supported method = true -> Str.isascii method = true.
Proof.
  unfold supported, Str.mem, supported_methods. intros H.
  rewrite <- isascii_lower.
  apply existsb_exists in H. destruct H as (x & Hin & Heq).
  apply String.eqb_eq in Heq. rewrite Heq.
  repeat (destruct Hin as [<-|Hin]; [reflexivity|]). destruct Hin.
Qed.




Section Execution.

Variable auth_values : Credentials.
Variable h : Store.
Variable http : Http.

Lemma prepare_call_supported t :
  fst (prepare_call t auth_values) <> None <-> supported (tc_method t) = true.
Proof.
  unfold prepare_call, supported.
  destruct (fill_authentication _ _ _) as [hdrs prms]. simpl.
  destruct (Str.mem (Str.lower (tc_method t)) supported_methods); simpl;
    split; intros H; congruence.
Qed.

(** The calls issued are the prepared call, once, or none. *)
Lemma execute_test_calls_issued t :
  snd (execute_test_calls t auth_values h http) =
    match fst (prepare_call t auth_values) with
    | Some c => [c]
    | None => []
    end.
Proof.
  unfold execute_test_calls, try_block.
  destruct (prepare_call t auth_values) as [[c|] sent]; simpl; [|reflexivity].
  destruct (http c) as [response|msg]; simpl; [|reflexivity].
  destruct (expected_status h t); reflexivity.
Qed.

(** The key ['auth_value'] is never read. *)
Lemma prepare_call_invalid_auth_test t :
  prepare_call (invalid_auth_test t) auth_values = prepare_call t auth_values.
Proof. reflexivity. Qed.

Lemma execute_raised t c msg :
  fst (prepare_call t auth_values) = Some c ->
  http c = Raised msg ->
  execute_test_calls t auth_values h http =
    ({| r_test_name := tc_name t; r_path := tc_path t; r_method := tc_method t;
        r_status := Error; r_request := Some (snd (prepare_call t auth_values));
        r_response := None; r_passed := false; r_error := Some msg |}, [c]).
Proof.
  intros Hc Hm. unfold execute_test_calls, try_block.
  destruct (prepare_call t auth_values) as [c' sent]. simpl in Hc. subst c'.
  rewrite Hm. reflexivity.
Qed.

Lemma execute_unsupported t :
  supported (tc_method t) = false ->
  execute_test_calls t auth_values h http =
    ({| r_test_name := tc_name t; r_path := tc_path t; r_method := tc_method t;
        r_status := Error; r_request := Some (snd (prepare_call t auth_values));
        r_response := None; r_passed := false;
        r_error := Some none_has_no_status_code |}, []).
Proof.
  intros Hs. unfold execute_test_calls, try_block.
  destruct (prepare_call t auth_values) as [c sent] eqn:Hp.
  assert (Hc : c = None).
  { destruct c as [c|]; [|reflexivity]. exfalso.
    assert (Hn : fst (prepare_call t auth_values) <> None) by (rewrite Hp; discriminate).
    apply prepare_call_supported in Hn. congruence. }
  subst c. reflexivity.
Qed.

(** The flag [passed] and the status always agree. *)
Lemma execute_test_consistent t :
  let r := execute_test t auth_values h http in
  (r_passed r = true <-> r_status r = Passed) /\ r_status r <> Pending /\
  (r_status r = Error <-> r_error r <> None).
Proof.
  unfold execute_test, execute_test_calls, try_block.
  destruct (prepare_call t auth_values) as [[c|] sent]; simpl.
  - destruct (http c) as [response|msg]; simpl.
    + destruct (expected_status h t) as [e|]; simpl.
      * destruct (validate e (status_code response)); simpl;
          repeat split; congruence.
      * repeat split; congruence.
    + repeat split; congruence.
  - repeat split; congruence.
Qed.

End Execution.

(** C3.  What is dispatched for an invalid-authentication variant: the
    variant records the sentinel under ['auth_value'], yet the call issued
    for it is the call issued for its nominal case, and the credential it
    carries is the supplied one: the apiKey value in the declared header or
    query parameter, or [Bearer <supplied token>] in [Authorization]. *)
Theorem invalid_auth_variant_sends_supplied test_case auth_values h http c :
  tc_auth_required test_case = true ->
  In c (snd (execute_test_calls (invalid_auth_test test_case) auth_values h http)) ->
  tc_auth_value (invalid_auth_test test_case) = Some invalid_auth_value /\
  In c (snd (execute_test_calls test_case auth_values h http)) /\
  match tc_auth test_case with
  | ApiKey auth_name auth_in =>
      (auth_in = "header" -> call_headers c !! auth_name = Some (apiKey auth_values)) /\
      (auth_in = "query" -> call_params c !! auth_name = Some (apiKey auth_values))
  | Bearer =>
      call_headers c !! "Authorization" =
        Some (Some ("Bearer " +:+ Str.of_option (bearer auth_values)))
  | NoAuthType => True
  end.
Proof.
  intros Hreq Hin. split; [reflexivity|].
  rewrite execute_test_calls_issued in *.
  rewrite prepare_call_invalid_auth_test in Hin. split; [exact Hin|].
  unfold prepare_call, fill_authentication in Hin. rewrite Hreq in Hin.
  destruct (tc_auth test_case) as [|auth_name auth_in|]; [exact I| |].
  - split; intros ->; simpl in Hin;
      destruct (Str.mem (Str.lower (tc_method test_case)) supported_methods);
      simpl in Hin; try contradiction;
      destruct Hin as [<-|[]]; simpl; apply lookup_insert_eq.
  - simpl in Hin.
    destruct (Str.mem (Str.lower (tc_method test_case)) supported_methods);
      simpl in Hin; try contradiction;
      destruct Hin as [<-|[]]; simpl; apply lookup_insert_eq.
Qed.

Lemma invalid_auth_variant_sends_supplied_witness :
  let variant := invalid_auth_test api_key_case in
  tc_auth_value variant = Some "invalid_auth_value" /\
  exists c,
    snd (execute_test_calls variant supplied_credentials [] unreachable) = [c] /\
    call_headers c !! "X-API-Key" = Some (Some "secret-key").
Proof.
  split; [reflexivity|]. eexists. split; [reflexivity|].
  refine (proj1 (proj2 (proj2
    (invalid_auth_variant_sends_supplied api_key_case supplied_credentials []
       unreachable _ eq_refl (or_introl eq_refl)))) eq_refl).
Defined.



(** ** The worker pool *)

Lemma first_queued_lookup l i :
  first_queued l = Some i -> exists t, l !! i = Some (t, Queued).
Proof.
  revert i. induction l as [|[t f] l IH]; intros i; simpl; [discriminate|].
  unfold is_queued. simpl. destruct f; simpl.
  - intros [= <-]. exists t. reflexivity.
  - destruct (first_queued l) as [j|]; simpl; [|discriminate].
    intros [= <-]. apply (IH j eq_refl).
  - destruct (first_queued l) as [j|]; simpl; [|discriminate].
    intros [= <-]. apply (IH j eq_refl).
Qed.

Lemma first_queued_exists l j t :
  l !! j = Some (t, Queued) -> exists i, first_queued l = Some i.
Proof.
  revert j. induction l as [|[t' f] l IH]; intros j; [discriminate|].
  simpl. unfold is_queued. simpl.
  destruct f; simpl; [eauto| |];
    (destruct j as [|j]; simpl; [discriminate|]; intros H;
     destruct (IH j H) as [i ->]; simpl; eauto).
Qed.

Lemma running_exists l :
  0 < length (filter is_running l) -> exists j t, l !! j = Some (t, Running).
Proof.
  induction l as [|[t f] l IH]; simpl; [lia|].
  destruct f.
  - rewrite filter_cons_False by (unfold is_running; simpl; auto).
    intros H. destruct (IH H) as (j & t' & Hj). exists (S j), t'. exact Hj.
  - intros _. exists 0, t. reflexivity.
  - rewrite filter_cons_False by (unfold is_running; simpl; auto).
    intros H. destruct (IH H) as (j & t' & Hj). exists (S j), t'. exact Hj.
Qed.

Lemma weight_insert l i x y :
  l !! i = Some x ->
  sum_list_with weight (<[i := y]> l) + weight x = sum_list_with weight l + weight y.
Proof.
  revert i. induction l as [|z l IH]; intros i; [discriminate|].
  destruct i as [|i]; simpl.
  - intros [= ->]. lia.
  - intros H. specialize (IH i H). lia.
Qed.

Section ExecutorProperties.

Variable job : nat -> TestCase -> Result + string.
Variable max_workers : nat.

Lemma pool_inv_submit tcs : pool_inv job tcs (submit_all tcs).
Proof.
  unfold pool_inv, submit_all. simpl. repeat split.
  - rewrite <- list_fmap_compose. apply list_fmap_id.
  - intros i t v H. rewrite list_lookup_fmap in H.
    destruct (tcs !! i); simpl in H; congruence.
  - lia.
Qed.

Lemma pool_inv_set_future tcs p i t f f' :
  pool_inv job tcs p ->
  futures p !! i = Some (t, f) ->
  (forall v, f' = Done v -> v = job i t) ->
  pool_inv job tcs (set_future i (t, f') p).
Proof.
  intros (Hf & Hd & Hc & Hr) Hi Hv. unfold pool_inv, set_future. simpl.
  repeat split; try assumption.
  - rewrite list_fmap_insert. simpl. rewrite list_insert_id; [exact Hf|].
    rewrite list_lookup_fmap, Hi. reflexivity.
  - intros j t' v Hj. apply list_lookup_insert_Some in Hj.
    destruct Hj as [(-> & Heq & _)|(_ & Hj)].
    + injection Heq as <- Hdone. apply Hv. exact Hdone.
    + apply (Hd j t' v Hj).
Qed.

Lemma pool_inv_step tcs ev p p' :
  pool_inv job tcs p -> step job max_workers ev p = Some p' -> pool_inv job tcs p'.
Proof.
  intros Hinv. unfold step. destruct ev as [|i|].
  - destruct (Nat.ltb (running p) max_workers); [|discriminate].
    destruct (first_queued (futures p)) as [i|]; [|discriminate].
    destruct (futures p !! i) as [[t f]|] eqn:Hi; [|discriminate].
    intros [= <-]. apply (pool_inv_set_future tcs p i t f); auto. discriminate.
  - destruct (futures p !! i) as [[t [| |v]]|] eqn:Hi; try discriminate.
    intros [= <-]. apply (pool_inv_set_future tcs p i t Running); auto.
    intros v [= <-]. reflexivity.
  - destruct (futures p !! completed p) as [[t [| |v]]|] eqn:Hi; try discriminate.
    intros [= <-]. destruct Hinv as (Hf & Hd & Hc & Hr).
    assert (Ht : tcs !! completed p = Some t).
    { rewrite <- Hf, list_lookup_fmap, Hi. reflexivity. }
    unfold pool_inv. simpl. repeat split; try assumption.
    + apply lookup_lt_Some in Ht. lia.
    + rewrite Hr, (take_S_r _ _ _ Ht). unfold in_order.
      rewrite imap_app. simpl. rewrite length_take_le by exact Hc.
      rewrite Nat.add_0_r, (Hd _ _ _ Hi). reflexivity.
Qed.

Lemma pool_inv_run tcs sched p p' :
  pool_inv job tcs p -> run job max_workers sched p = Some p' -> pool_inv job tcs p'.
Proof.
  revert p. induction sched as [|ev sched IH]; intros p Hinv; simpl.
  - intros [= <-]. exact Hinv.
  - destruct (step job max_workers ev p) as [q|] eqn:Hq; [|discriminate].
    apply IH. apply (pool_inv_step tcs ev p q Hinv Hq).
Qed.

Lemma pool_inv_finished tcs p :
  pool_inv job tcs p -> finished p = true -> results p = in_order job tcs.
Proof.
  intros (Hf & _ & _ & Hr) Hfin. unfold finished in Hfin.
  apply Nat.eqb_eq in Hfin. rewrite Hr, Hfin.
  rewrite take_ge; [reflexivity|]. rewrite <- Hf, length_fmap. lia.
Qed.

(** Every event brings the end closer. *)
Lemma step_work ev p p' : step job max_workers ev p = Some p' -> work p' < work p.
Proof.
  unfold step, work. destruct ev as [|i|].
  - destruct (Nat.ltb (running p) max_workers); [|discriminate].
    destruct (first_queued (futures p)) as [i|] eqn:Hq; [|discriminate].
    destruct (first_queued_lookup _ _ Hq) as [t Hi]. rewrite Hi.
    intros [= <-]. simpl. rewrite length_insert.
    pose proof (weight_insert (futures p) i _ (t, Running) Hi) as Hw.
    unfold weight in Hw at 2 4. simpl in Hw. lia.
  - destruct (futures p !! i) as [[t [| |v]]|] eqn:Hi; try discriminate.
    intros [= <-]. simpl. rewrite length_insert.
    pose proof (weight_insert (futures p) i _ (t, Done (job i t)) Hi) as Hw.
    unfold weight in Hw at 2 4. simpl in Hw. lia.
  - destruct (futures p !! completed p) as [[t [| |v]]|] eqn:Hi; try discriminate.
    intros [= <-]. simpl. apply lookup_lt_Some in Hi. lia.
Qed.

Lemma run_work sched p p' :
  run job max_workers sched p = Some p' -> length sched + work p' <= work p.
Proof.
  revert p. induction sched as [|ev sched IH]; intros p; simpl.
  - intros [= <-]. lia.
  - destruct (step job max_workers ev p) as [q|] eqn:Hq; [|discriminate].
    intros H. specialize (IH q H). pose proof (step_work ev p q Hq). lia.
Qed.

Lemma work_submit tcs : work (submit_all tcs) = 3 * length tcs.
Proof.
  unfold work, submit_all. simpl. rewrite length_fmap, Nat.sub_0_r.
  induction tcs as [|t tcs IH]; [reflexivity|].
  rewrite fmap_cons. cbn [sum_list_with length]. unfold weight at 1. simpl. lia.
Qed.

(** While the loop is not over, some event can happen. *)
Lemma progress tcs p :
  1 <= max_workers ->
  pool_inv job tcs p -> finished p = false ->
  exists ev p', step job max_workers ev p = Some p'.
Proof.
  intros Hw (Hf & _ & Hc & _) Hfin. unfold finished in Hfin.
  apply Nat.eqb_neq in Hfin.
  assert (Hlt : completed p < length (futures p)).
  { rewrite <- Hf, length_fmap in Hc. lia. }
  destruct (lookup_lt_is_Some_2 _ _ Hlt) as [[t f] Hi].
  destruct f as [| |v].
  - destruct (Nat.ltb (running p) max_workers) eqn:Hr.
    + destruct (first_queued_exists _ _ _ Hi) as [i Hq].
      destruct (first_queued_lookup _ _ Hq) as [t' Hi'].
      exists Start. unfold step. rewrite Hr, Hq, Hi'. eauto.
    + apply Nat.ltb_ge in Hr.
      destruct (running_exists (futures p)) as (j & t' & Hj);
        [unfold running in Hr; lia|].
      exists (Finish j). unfold step. rewrite Hj. eauto.
  - exists (Finish (completed p)). unfold step. rewrite Hi. eauto.
  - exists Collect. unfold step. rewrite Hi. eauto.
Qed.

(** From any state of a run the loop can be brought to its end. *)
Lemma completion tcs p :
  1 <= max_workers ->
  pool_inv job tcs p ->
  exists sched p', run job max_workers sched p = Some p' /\ finished p' = true.
Proof.
  intros Hw. remember (work p) as n eqn:Hn. revert p Hn.
  induction n as [n IH] using lt_wf_ind. intros p Hn Hinv.
  destruct (finished p) eqn:Hfin.
  - exists [], p. split; [reflexivity | exact Hfin].
  - destruct (progress tcs p Hw Hinv Hfin) as (ev & q & Hq).
    pose proof (step_work ev p q Hq) as Hlt.
    destruct (IH (work q) ltac:(lia) q eq_refl (pool_inv_step tcs ev p q Hinv Hq))
      as (sched & p' & Hrun & Hend).
    exists (ev :: sched), p'. split; [|exact Hend].
    simpl. rewrite Hq. exact Hrun.
Qed.

(** The list that a completed run returns does not depend on the run. *)
Lemma pool_results_in_order tcs sched rs :
  pool_results job max_workers tcs sched = Some rs ->
  rs = in_order job tcs /\ length sched <= 3 * length tcs.
Proof.
  unfold pool_results.
  destruct (run job max_workers sched (submit_all tcs)) as [p|] eqn:Hrun;
    [|discriminate].
  destruct (finished p) eqn:Hfin; [|discriminate].
  intros [= <-]. split.
  - apply (pool_inv_finished tcs); [|exact Hfin].
    apply (pool_inv_run tcs sched (submit_all tcs)); [apply pool_inv_submit | exact Hrun].
  - pose proof (run_work sched _ _ Hrun) as H. rewrite work_submit in H. lia.
Qed.

Lemma pool_results_exist tcs :
  1 <= max_workers ->
  exists sched, pool_results job max_workers tcs sched = Some (in_order job tcs).
Proof.
  intros Hw.
  destruct (completion tcs (submit_all tcs) Hw (pool_inv_submit tcs))
    as (sched & p & Hrun & Hfin).
  exists sched. unfold pool_results. rewrite Hrun, Hfin.
  f_equal. apply (pool_inv_finished tcs); [|exact Hfin].
  apply (pool_inv_run tcs sched (submit_all tcs)); [apply pool_inv_submit | exact Hrun].
Qed.

End ExecutorProperties.

(** ** Aggregation *)

Lemma count_passed_cons r rs :
  count_passed (r :: rs) = ((if r_passed r then 1 else 0) + count_passed rs)%Z.
Proof.
  unfold count_passed. destruct (r_passed r) eqn:Hp.
  - rewrite filter_cons_True by exact Hp. simpl length. lia.
  - rewrite filter_cons_False by congruence. lia.
Qed.

Lemma count_not_passed_cons r rs :
  count_not_passed (r :: rs) =
    ((if r_passed r then 0 else 1) + count_not_passed rs)%Z.
Proof.
  unfold count_not_passed. destruct (r_passed r) eqn:Hp.
  - rewrite filter_cons_False by congruence. lia.
  - rewrite filter_cons_True by exact Hp. simpl length. lia.
Qed.

Lemma count_split rs :
  (count_passed rs + count_not_passed rs = Z.of_nat (length rs))%Z.
Proof.
  induction rs as [|r rs IH]; [reflexivity|].
  rewrite count_passed_cons, count_not_passed_cons. simpl length.
  destruct (r_passed r); lia.
Qed.


Lemma add_result_lookup m r k :
  add_result m r !! k =
    if decide (endpoint r = k)
    then Some (extend (default empty_group (m !! k)) [r])
    else m !! k.
Proof.
  unfold add_result. destruct (decide (endpoint r = k)) as [<-|Hne].
  - rewrite lookup_insert_eq. f_equal. unfold extend.
    rewrite count_passed_cons, count_not_passed_cons.
    change (count_passed []) with 0%Z. change (count_not_passed []) with 0%Z.
    destruct (r_passed r); simpl; f_equal; lia.
  - apply lookup_insert_ne. exact Hne.
Qed.

Lemma extend_app g rs1 rs2 : extend (extend g rs1) rs2 = extend g (rs1 ++ rs2).
Proof.
  unfold extend, count_passed, count_not_passed. simpl.
  rewrite !filter_app, !length_app, app_assoc. f_equal; lia.
Qed.

(** Each group holds the results of its endpoint, and counts them. *)
Lemma grouping_lookup rs m k :
  fold_left add_result rs m !! k =
    match of_endpoint k rs with
    | [] => m !! k
    | _ :: _ => Some (extend (default empty_group (m !! k)) (of_endpoint k rs))
    end.
Proof.
  revert m. induction rs as [|r rs IH]; intros m; [reflexivity|].
  simpl. rewrite IH, add_result_lookup. unfold of_endpoint.
  destruct (decide (endpoint r = k)) as [He|He].
  - rewrite filter_cons_True by exact He. simpl.
    destruct (filter (fun r0 => endpoint r0 = k) rs) as [|r' l]; [reflexivity|].
    rewrite extend_app. reflexivity.
  - rewrite filter_cons_False by exact He. reflexivity.
Qed.

Lemma sum_group_totals_add m r :
  sum_group_totals (add_result m r) = (sum_group_totals m + 1)%Z.
Proof.
  assert (Hcomm : forall (m' : gmap string Group) (j1 j2 : string) (z1 z2 : Group) (y : Z),
            j1 <> j2 -> m' !! j1 = Some z1 -> m' !! j2 = Some z2 ->
            (g_total z1 + (g_total z2 + y) = g_total z2 + (g_total z1 + y))%Z)
    by (intros; lia).
  unfold sum_group_totals, add_result.
  destruct (m !! endpoint r) as [g|] eqn:Hk; simpl.
  - rewrite <- insert_delete_eq.
    rewrite map_fold_insert_L; [|apply Hcomm|apply lookup_delete_eq].
    rewrite (map_fold_delete_L _ _ (endpoint r) g m); [|apply Hcomm|exact Hk].
    simpl. lia.
  - rewrite map_fold_insert_L; [|apply Hcomm|exact Hk]. simpl. lia.
Qed.

Lemma sum_group_totals_fold rs m :
  sum_group_totals (fold_left add_result rs m) =
    (sum_group_totals m + Z.of_nat (length rs))%Z.
Proof.
  revert m. induction rs as [|r rs IH]; intros m; simpl.
  - lia.
  - rewrite IH, sum_group_totals_add. lia.
Qed.

Lemma consistent_not_passed rs :
  (forall r, In r rs -> consistent r) ->
  count_not_passed rs =
    Z.of_nat (length (filter (fun r => r_status r = Failed) rs) +
              length (filter (fun r => r_status r = Error) rs)).
Proof.
  induction rs as [|r rs IH]; intros H; [reflexivity|].
  rewrite count_not_passed_cons, IH by (intros; apply H; simpl; auto).
  destruct (H r (or_introl eq_refl)) as [[H1 H2] H3].
  destruct (r_status r) eqn:Hs; destruct (r_passed r) eqn:Hp;
    try congruence; try (specialize (H1 eq_refl); congruence);
    try (specialize (H2 eq_refl); congruence).
  - rewrite !filter_cons_False by congruence. lia.
  - rewrite filter_cons_True by exact Hs.
    rewrite filter_cons_False by congruence. simpl length. lia.
  - rewrite filter_cons_False by congruence.
    rewrite filter_cons_True by exact Hs. simpl length. lia.
Qed.

Lemma execute_test_is_consistent t auth_values h http :
  consistent (execute_test t auth_values h http).
Proof.
  destruct (execute_test_consistent auth_values h http t) as (H1 & H2 & _).
  split; assumption.
Qed.

(** What [generate_report] computes from a list of results. *)
Lemma report_facts rs :
  let report := generate_report rs in
  let s := summary report in
  report_results report = rs /\
  total_tests s = Z.of_nat (length (report_results report)) /\
  (passed_tests s + failed_tests s = total_tests s)%Z /\
  failed_tests s = count_not_passed rs /\
  ((forall r, In r rs -> consistent r) ->
   failed_tests s =
     Z.of_nat (length (filter (fun r => r_status r = Failed) rs) +
               length (filter (fun r => r_status r = Error) rs))) /\
  sum_group_totals (endpoint_results report) = total_tests s /\
  (forall k g,
     endpoint_results report !! k = Some g ->
     g_tests g = of_endpoint k rs /\
     g_total g = Z.of_nat (length (g_tests g)) /\
     g_passed g = count_passed (g_tests g) /\
     g_failed g = count_not_passed (g_tests g)) /\
  (forall r1 r2,
     In r1 rs -> In r2 rs ->
     r_method r1 = r_method r2 -> r_path r1 = r_path r2 ->
     exists g,
       endpoint_results report !! endpoint r1 = Some g /\
       endpoint_results report !! endpoint r2 = Some g /\
       In r1 (g_tests g) /\ In r2 (g_tests g)).
Proof.
  intros report s. subst report s. unfold generate_report. simpl.
  pose proof (count_split rs) as Hsplit.
  assert (Hgroup : forall k g,
            fold_left add_result rs ∅ !! k = Some g ->
            g = extend empty_group (of_endpoint k rs)).
  { intros k g. rewrite grouping_lookup, lookup_empty.
    destruct (of_endpoint k rs); [discriminate|]. intros [= <-]. reflexivity. }
  split; [reflexivity|]. split; [reflexivity|]. split; [lia|].
  split; [lia|]. split; [|split; [|split]].
  - intros Hc. rewrite <- consistent_not_passed by exact Hc. lia.
  - rewrite sum_group_totals_fold. reflexivity.
  - intros k g Hk. rewrite (Hgroup k g Hk). unfold extend. simpl.
    repeat split; lia.
  - intros r1 r2 H1 H2 Hm Hp.
    assert (Hk : endpoint r2 = endpoint r1)
      by (unfold endpoint; rewrite Hm, Hp; reflexivity).
    assert (Hin1 : In r1 (of_endpoint (endpoint r1) rs)).
    { apply list_elem_of_In, list_elem_of_filter.
      split; [reflexivity | apply list_elem_of_In; exact H1]. }
    assert (Hin2 : In r2 (of_endpoint (endpoint r1) rs)).
    { apply list_elem_of_In, list_elem_of_filter.
      split; [exact Hk | apply list_elem_of_In; exact H2]. }
    exists (extend empty_group (of_endpoint (endpoint r1) rs)).
    rewrite Hk, grouping_lookup, lookup_empty.
    destruct (of_endpoint (endpoint r1) rs) as [|r l] eqn:Hf; [destruct Hin1|].
    repeat split; assumption.
Qed.

(** C6.  For every list of results the report keeps the list; the total is
    its length; passed and failed add up to the total, failed counting
    the results whose flag [passed] is false, which for results as the
    execution builds them are the failed and the errored ones; the group
    totals add up to the total; every group holds exactly the results of
    its endpoint, in order, and counts them; and two results of the list
    with the same method and path are in one group. *)
Theorem report_invariants rs :
  let report := generate_report rs in
  let s := summary report in
  report_results report = rs /\
  total_tests s = Z.of_nat (length (report_results report)) /\
  (passed_tests s + failed_tests s = total_tests s)%Z /\
  failed_tests s = count_not_passed rs /\
  ((forall r, In r rs -> consistent r) ->
   failed_tests s =
     Z.of_nat (length (filter (fun r => r_status r = Failed) rs) +
               length (filter (fun r => r_status r = Error) rs))) /\
  sum_group_totals (endpoint_results report) = total_tests s /\
  (forall k g,
     endpoint_results report !! k = Some g ->
     g_tests g = of_endpoint k rs /\
     g_total g = Z.of_nat (length (g_tests g)) /\
     g_passed g = count_passed (g_tests g) /\
     g_failed g = count_not_passed (g_tests g)) /\
  (forall r1 r2,
     In r1 rs -> In r2 rs ->
     r_method r1 = r_method r2 -> r_path r1 = r_path r2 ->
     exists g,
       endpoint_results report !! endpoint r1 = Some g /\
       endpoint_results report !! endpoint r2 = Some g /\
       In r1 (g_tests g) /\ In r2 (g_tests g)).
Proof. apply report_facts. Qed.

Lemma report_invariants_witness :
  let nominal := execute_test api_key_case supplied_credentials
                   [{| status := StatusStr "201" |}] (answering 201 "created") in
  let variant := execute_test (invalid_auth_test api_key_case) supplied_credentials
                   [{| status := StatusStr "401" |}] unreachable in
  let report := generate_report [nominal; variant] in
  failed_tests (summary report) = 1%Z /\
  exists g,
    endpoint_results report !! "POST /items" = Some g /\
    g_total g = 2%Z /\ In nominal (g_tests g) /\ In variant (g_tests g).
Proof.
  intros nominal variant report. subst report.
  destruct (report_invariants [nominal; variant])
    as (_ & _ & _ & _ & Hf & _ & Hg & Hsame).
  split.
  - rewrite Hf; [reflexivity|].
    intros r [<-|[<-|[]]]; apply execute_test_is_consistent.
  - destruct (Hsame nominal variant (or_introl eq_refl)
                (or_intror (or_introl eq_refl)) eq_refl eq_refl)
      as (g & Hk & _ & Hn & Hv).
    exists g. split; [exact Hk|].
    destruct (Hg _ g Hk) as (Ht & Hl & _).
    split; [rewrite Hl, Ht; reflexivity | split; [exact Hn | exact Hv]].
Defined.

(** ** The success rate *)



Example hundred_is_float_100 : Float.of_Z 100 = hundred.
Proof. reflexivity. Qed.

Example round2_of_hundred : Float.round2 (Float.mul one hundred) = hundred.
Proof. reflexivity. Qed.

(** One passed case out of three: the float nearest to 33.33. *)
Example rate_one_of_three :
  rate 1 3 = Float (S754_finite false 4690780486883082 (-47)).
Proof. reflexivity. Qed.

(** ** Rounding in binary64

    The operations of [SpecFloat] shift the mantissa of the exact result
    to the precision of the format and round it to the nearest float,
    ties to even.  The lemmas follow a quotient [n / d] through the shift
    and the rounding, and bound the distance between the stored value and
    the exact one by half a unit in the last place. *)

Section Rounding.

Local Open Scope Z_scope.





Lemma located_record m r d :
  loc_of_shr_record (shr_record_of_loc m (located r d)) = located r d /\
  shr_m (shr_record_of_loc m (located r d)) = m.
Proof.
  unfold located. destruct (r =? 0); [split; reflexivity|].
  destruct (2 * r ?= d); split; reflexivity.
Qed.














End Rounding.




(** ** Runs of [run_tests] *)

Lemma execute_test_identity t auth_values h http :
  let r := execute_test t auth_values h http in
  r_test_name r = tc_name t /\ r_path r = tc_path t /\ r_method r = tc_method t.
Proof.
  unfold execute_test, execute_test_calls, try_block.
  destruct (prepare_call t auth_values) as [[c|] sent]; simpl; [|auto].
  destruct (http c) as [response|msg]; simpl; [|auto].
  destruct (expected_status h t); simpl; auto.
Qed.

Lemma count_delete rs i r :
  rs !! i = Some r -> r_passed r = false ->
  count_passed rs = count_passed (delete i rs) /\
  count_not_passed rs = (count_not_passed (delete i rs) + 1)%Z.
Proof.
  revert i. induction rs as [|x rs IH]; intros i Hi Hp; [discriminate|].
  destruct i as [|i]; simpl in Hi.
  - injection Hi as ->. simpl.
    rewrite count_passed_cons, count_not_passed_cons, Hp. lia.
  - destruct (IH i Hi Hp) as [H1 H2].
    change (delete (S i) (x :: rs)) with (x :: delete i rs).
    rewrite !count_passed_cons, !count_not_passed_cons. lia.
Qed.

Lemma count_not_passed_in rs r :
  In r rs -> r_passed r = false -> (1 <= count_not_passed rs)%Z.
Proof.
  induction rs as [|x rs IH]; intros Hin Hp; [destruct Hin|].
  rewrite count_not_passed_cons. destruct Hin as [->|Hin].
  - rewrite Hp. unfold count_not_passed. lia.
  - specialize (IH Hin Hp). destruct (r_passed x); lia.
Qed.

(** Completed runs of [run_tests]: one exists, and each returns the
    results of the cases in the order of the cases. *)
Lemma run_tests_completed tcs auth_values h http max_workers :
  1 <= max_workers ->
  (exists sched,
     run_tests tcs auth_values h http max_workers sched =
       Some (imap (fun i t => execute_test t auth_values h (http i)) tcs)) /\
  (forall sched rs,
     run_tests tcs auth_values h http max_workers sched = Some rs ->
     rs = imap (fun i t => execute_test t auth_values h (http i)) tcs /\
     length rs = length tcs /\
     length sched <= 3 * length tcs /\
     (forall i t,
        tcs !! i = Some t ->
        exists r,
          rs !! i = Some r /\
          r = execute_test t auth_values h (http i) /\
          r_test_name r = tc_name t /\ r_path r = tc_path t /\
          r_method r = tc_method t)).
Proof.
  intros Hw. split.
  - destruct (pool_results_exist (execute_job auth_values h http) max_workers tcs Hw)
      as [sched Hs].
    exists sched. exact Hs.
  - intros sched rs Hrun.
    destruct (pool_results_in_order _ _ _ _ _ Hrun) as [-> Hlen].
    split; [reflexivity|]. split; [apply length_imap|]. split; [exact Hlen|].
    intros i t Hi. exists (execute_test t auth_values h (http i)).
    split.
    + unfold in_order. rewrite list_lookup_imap, Hi. reflexivity.
    + split; [reflexivity|]. apply execute_test_identity.
Qed.

(** C4.  With at least one worker a run of [run_tests] can be completed,
    and every completed run, whatever the order in which the calls were
    started and ended, returns the results of the cases in the order of
    the cases: as many results as cases, the result in position [i] being
    the result of executing the case in position [i]. *)
Theorem run_tests_in_order tcs auth_values h http max_workers :
  1 <= max_workers ->
  (exists sched,
     run_tests tcs auth_values h http max_workers sched =
       Some (imap (fun i t => execute_test t auth_values h (http i)) tcs)) /\
  (forall sched rs,
     run_tests tcs auth_values h http max_workers sched = Some rs ->
     rs = imap (fun i t => execute_test t auth_values h (http i)) tcs /\
     length rs = length tcs /\
     length sched <= 3 * length tcs /\
     (forall i t,
        tcs !! i = Some t ->
        exists r,
          rs !! i = Some r /\
          r = execute_test t auth_values h (http i) /\
          r_test_name r = tc_name t /\ r_path r = tc_path t /\
          r_method r = tc_method t)).
Proof. apply run_tests_completed. Qed.

Lemma run_tests_in_order_witness :
  run_tests (test_cases scenario_gen) supplied_credentials (store scenario_gen)
    flaky 3 out_of_order =
  Some (imap (fun i t => execute_test t supplied_credentials (store scenario_gen) (flaky i))
          (test_cases scenario_gen)).
Proof.
  pose proof (proj2 (run_tests_in_order (test_cases scenario_gen) supplied_credentials
                       (store scenario_gen) flaky 3 ltac:(lia)) out_of_order) as H.
  destruct (run_tests (test_cases scenario_gen) supplied_credentials
              (store scenario_gen) flaky 3 out_of_order) as [rs|] eqn:E.
  - destruct (H rs eq_refl) as [-> _]. reflexivity.
  - vm_compute in E. discriminate E.
Defined.

(** C5.  When the call of a case fails in transport, its result has status
    Error, no response, the failure description as its error and [passed]
    false.  A run with such a case can still be completed, and every
    completed run returns a result for every case, each the result of its
    own case; the errored result is not among the passed and is among the
    failed, in the summary and in the group of its endpoint. *)
Theorem transport_failure_is_isolated tcs auth_values h http max_workers i t c msg :
  1 <= max_workers ->
  tcs !! i = Some t ->
  fst (prepare_call t auth_values) = Some c ->
  http i c = Raised msg ->
  let r := execute_test t auth_values h (http i) in
  (r_status r = Error /\ r_response r = None /\ r_error r = Some msg /\
   r_passed r = false) /\
  (exists sched rs, run_tests tcs auth_values h http max_workers sched = Some rs) /\
  (forall sched rs,
     run_tests tcs auth_values h http max_workers sched = Some rs ->
     let s := summary (generate_report rs) in
     length rs = length tcs /\
     rs !! i = Some r /\
     (forall j t', tcs !! j = Some t' ->
        rs !! j = Some (execute_test t' auth_values h (http j))) /\
     passed_tests s = count_passed (delete i rs) /\
     failed_tests s = (count_not_passed (delete i rs) + 1)%Z /\
     exists g,
       endpoint_results (generate_report rs) !! endpoint r = Some g /\
       In r (g_tests g) /\ (1 <= g_failed g)%Z /\ (g_passed g < g_total g)%Z).
Proof.
  intros Hw Hi Hc Hm r.
  assert (Hr : r = {| r_test_name := tc_name t; r_path := tc_path t;
                      r_method := tc_method t; r_status := Error;
                      r_request := Some (snd (prepare_call t auth_values));
                      r_response := None; r_passed := false;
                      r_error := Some msg |}).
  { unfold r, execute_test.
    rewrite (execute_raised auth_values h (http i) t c msg Hc Hm). reflexivity. }
  assert (Hp : r_passed r = false) by (rewrite Hr; reflexivity).
  destruct (run_tests_completed tcs auth_values h http max_workers Hw) as [[sched0 H0] Hall].
  split; [rewrite Hr; simpl; auto|]. split; [eauto|].
  intros sched rs Hrun s.
  destruct (Hall sched rs Hrun) as (Hrs & Hlen & _ & Hpos).
  assert (Hlook : forall j t', tcs !! j = Some t' ->
            rs !! j = Some (execute_test t' auth_values h (http j))).
  { intros j t' Hj. destruct (Hpos j t' Hj) as (r' & Hr' & -> & _). exact Hr'. }
  pose proof (Hlook i t Hi) as Hri. fold r in Hri.
  destruct (count_delete rs i r Hri Hp) as [Hcp Hcn].
  destruct (report_facts rs)
    as (_ & _ & Hsum & Hfail & _ & _ & Hgroups & Hsame).
  assert (Hin : In r rs).
  { apply list_elem_of_In, list_elem_of_lookup. exists i. exact Hri. }
  split; [exact Hlen|]. split; [exact Hri|]. split; [exact Hlook|].
  split; [subst s; unfold generate_report; simpl; exact Hcp|].
  split; [subst s; rewrite Hfail; exact Hcn|].
  destruct (Hsame r r Hin Hin eq_refl eq_refl) as (g & Hg & _ & Hing & _).
  exists g. split; [exact Hg|]. split; [exact Hing|].
  destruct (Hgroups _ g Hg) as (_ & Ht & Hgp & Hgf).
  pose proof (count_not_passed_in (g_tests g) r Hing Hp).
  pose proof (count_split (g_tests g)). lia.
Qed.

Lemma transport_failure_is_isolated_witness :
  exists rs,
    run_tests (test_cases scenario_gen) supplied_credentials (store scenario_gen)
      flaky 3 out_of_order = Some rs /\
    length rs = 3 /\
    (exists r, rs !! 1 = Some r /\ r_status r = Error /\
               r_error r = Some "Connection refused").
Proof.
  destruct (transport_failure_is_isolated (test_cases scenario_gen)
              supplied_credentials (store scenario_gen) flaky 3 1
              (missing_params_test api_key_case)
              (default
                 {| call_verb := ""; call_url := ""; call_headers := ∅;
                    call_params := ∅; call_json := None |}
                 (fst (prepare_call (missing_params_test api_key_case)
                         supplied_credentials)))
              "Connection refused" ltac:(lia))
    as ((Hs & _ & He & _) & _ & Hall).
  - vm_compute. reflexivity.
  - vm_compute. reflexivity.
  - reflexivity.
  - destruct (run_tests (test_cases scenario_gen) supplied_credentials
                (store scenario_gen) flaky 3 out_of_order) as [rs|] eqn:E.
    + exists rs. split; [reflexivity|].
      destruct (Hall out_of_order rs E) as (Hl & Hi & _).
      split; [rewrite Hl; vm_compute; reflexivity|].
      eexists. split; [exact Hi|]. split; [exact Hs | exact He].
    + vm_compute in E. discriminate E.
Defined.

(** ** The shape of the derived list *)

Section Shape.

Variable spec : Spec.
Variable base_url : string.

Lemma fold_add_parameter_endpoint ps t :
  case_endpoint (fold_left add_parameter ps t) = case_endpoint t.
Proof.
  revert t. induction ps as [|p ps IH]; intros t; simpl; [reflexivity|].
  rewrite IH. unfold add_parameter.
  destruct (p_required p), (String.eqb (p_in p) "query"),
    (String.eqb (p_in p) "header"); reflexivity.
Qed.

Lemma fold_add_content_endpoint cs t :
  case_endpoint (fold_left add_content cs t) = case_endpoint t.
Proof.
  revert t. induction cs as [|c cs IH]; intros t; simpl; [reflexivity|].
  rewrite IH. reflexivity.
Qed.

Lemma add_authentication_endpoint operation t :
  case_endpoint (add_authentication spec operation t) = case_endpoint t.
Proof.
  unfold add_authentication.
  destruct (auth_scheme_of _) as [k|]; [|reflexivity].
  destruct (securitySchemes spec !! k) as [[n i|s|ty]|]; try reflexivity.
  destruct (String.eqb s "bearer"); reflexivity.
Qed.

Lemma base_test_case_endpoint path method operation e :
  case_endpoint (base_test_case spec base_url path method operation e) =
    (path, Str.upper method).
Proof.
  unfold base_test_case.
  rewrite fold_add_content_endpoint, fold_add_parameter_endpoint,
    add_authentication_endpoint. reflexivity.
Qed.

Lemma required_params_existsb ps :
  map p_name (filter (fun p => p_required p = true) ps) = [] <->
  existsb p_required ps = false.
Proof.
  induction ps as [|p ps IH]; simpl; [tauto|].
  destruct (p_required p) eqn:Hp.
  - rewrite filter_cons_True by exact Hp. simpl. split; discriminate.
  - rewrite filter_cons_False by congruence. exact IH.
Qed.

Lemma block_length path method operation e :
  let t := base_test_case spec base_url path method operation e in
  length (block t) = cases_of_operation spec operation.
Proof.
  intros t. unfold block, cases_of_operation.
  destruct (base_test_case_fields spec base_url path method operation e)
    as (Hq & Hr & _). fold t in Hq, Hr.
  simpl. rewrite length_app. f_equal.
  assert (H1 : length match tc_required_params t with
                      | [] => []
                      | _ :: _ => [missing_params_test t]
                      end =
               if existsb p_required (op_parameters operation) then 1 else 0).
  { destruct (existsb p_required (op_parameters operation)) eqn:He.
    - destruct (tc_required_params t) eqn:Ht; [|reflexivity].
      symmetry in Hq. apply required_params_existsb in Hq. congruence.
    - apply required_params_existsb in He. rewrite Hq, He. reflexivity. }
  assert (H2 : length (if tc_auth_required t then [invalid_auth_test t] else []) =
               match auth_scheme_of (resolved_security spec operation) with
               | Some _ => 1
               | None => 0
               end).
  { rewrite Hr. destruct (auth_scheme_of (resolved_security spec operation));
      case_bool_decide; try congruence; reflexivity. }
  rewrite H1, H2. reflexivity.
Qed.

Lemma block_endpoints path method operation e :
  let t := base_test_case spec base_url path method operation e in
  map case_endpoint (block t) =
    replicate (cases_of_operation spec operation) (path, Str.upper method).
Proof.
  intros t. rewrite <- (block_length path method operation e). fold t.
  pose proof (base_test_case_endpoint path method operation e) as He. fold t in He.
  unfold block.
  destruct (tc_required_params t), (tc_auth_required t); simpl;
    unfold case_endpoint in *; simpl; rewrite ?He; reflexivity.
Qed.

Lemma fold_generate_entry_endpoints ops g :
  map case_endpoint (test_cases (fold_left (generate_entry spec base_url) ops g)) =
    map case_endpoint (test_cases g) ++ flat_map (endpoints_of_entry spec) ops.
Proof.
  revert g. induction ops as [|[path [method operation]] ops IH]; intros g.
  - simpl. rewrite app_nil_r. reflexivity.
  - cbn [fold_left flat_map]. rewrite IH.
    unfold generate_entry, endpoints_of_entry.
    cbn [fst snd]. destruct (supported method) eqn:Hs.
    + rewrite generate_operation_supported by exact Hs. cbn [test_cases].
      rewrite map_app, block_endpoints, <- app_assoc. reflexivity.
    + rewrite generate_operation_unsupported by exact Hs. reflexivity.
Qed.

End Shape.

Lemma cases_of_operation_bounds spec operation :
  1 <= cases_of_operation spec operation <= 3.
Proof.
  unfold cases_of_operation.
  destruct (existsb p_required (op_parameters operation)),
    (auth_scheme_of (resolved_security spec operation)); lia.
Qed.

Lemma flat_map_endpoints_length spec ops :
  length (filter (fun e => supported (fst (snd e)) = true) ops) <=
    length (flat_map (endpoints_of_entry spec) ops) <=
  3 * length (filter (fun e => supported (fst (snd e)) = true) ops).
Proof.
  induction ops as [|e ops IH]; simpl; [lia|].
  rewrite length_app. unfold endpoints_of_entry at 1 3.
  destruct (supported (fst (snd e))) eqn:Hs.
  - rewrite filter_cons_True by exact Hs. rewrite length_replicate. simpl length.
    pose proof (cases_of_operation_bounds spec (snd (snd e))). lia.
  - rewrite filter_cons_False by congruence. simpl. lia.
Qed.

(** X1.  The derived list follows the contract: going through the
    operations in declaration order, an operation whose method is not one
    of the five verbs contributes nothing, and a supported one contributes
    one case, plus one when it declares a required parameter, plus one
    when its security requirement names a scheme, all with its path and
    its uppercased method.  So the list has at least as many cases as there
    are supported operations and at most three times as many. *)
Theorem derivation_follows_contract spec :
  let g := generate_test_cases spec in
  map case_endpoint (test_cases g) =
    flat_map (endpoints_of_entry spec) (operations spec) /\
  length (supported_operations spec) <= length (test_cases g) <=
    3 * length (supported_operations spec).
Proof.
  intros g.
  assert (H : map case_endpoint (test_cases g) =
              flat_map (endpoints_of_entry spec) (operations spec)).
  { unfold g, generate_test_cases. rewrite generate_from_operations.
    rewrite fold_generate_entry_endpoints. reflexivity. }
  split; [exact H|].
  rewrite <- (length_map case_endpoint), H.
  apply flat_map_endpoints_length.
Qed.

(** ** Executing derived cases *)

Lemma execute_responded auth_values h http t c response e :
  fst (prepare_call t auth_values) = Some c ->
  http c = Responded response ->
  expected_status h t = Some e ->
  let r := execute_test t auth_values h http in
  r_status r = (if validate e (status_code response) then Passed else Failed) /\
  r_passed r = validate e (status_code response) /\
  r_error r = None.
Proof.
  intros Hc Hr He. unfold execute_test, execute_test_calls, try_block.
  destruct (prepare_call t auth_values) as [c' sent]. simpl in Hc. subst c'.
  rewrite Hr, He. simpl. auto.
Qed.

Lemma supported_upper method :
  supported method = true -> supported (Str.upper method) = true.
Proof.
  intros Hs. unfold supported.
  rewrite lower_upper by (apply supported_isascii, Hs). exact Hs.
Qed.

Lemma block_executable spec base_url path method operation (h : Store) t' :
  supported method = true ->
  In t' (block (base_test_case spec base_url path method operation (length h))) ->
  supported (tc_method t') = true /\ tc_expected t' = length h.
Proof.
  intros Hs Hin.
  pose proof (base_test_case_endpoint spec base_url path method operation (length h)) as He.
  pose proof (base_test_case_expected spec base_url path method operation (length h)) as Hx.
  unfold case_endpoint in He. injection He as _ Hm.
  assert (Hsup : supported (tc_method (base_test_case spec base_url path method
                                         operation (length h))) = true)
    by (rewrite Hm; apply supported_upper, Hs).
  unfold block in Hin. destruct Hin as [<-|Hin]; [auto|].
  apply in_app_or in Hin. destruct Hin as [Hin|Hin].
  - destruct (tc_required_params _); [destruct Hin|].
    destruct Hin as [<-|[]]. auto.
  - destruct (tc_auth_required _); [|destruct Hin].
    destruct Hin as [<-|[]]. auto.
Qed.

Lemma generate_entry_executable spec base_url g e :
  executable_gen g -> executable_gen (generate_entry spec base_url g e).
Proof.
  intros Hg. destruct e as [path [method operation]].
  unfold generate_entry. cbn [fst snd].
  destruct (supported method) eqn:Hs.
  - rewrite generate_operation_supported by exact Hs.
    intros t Hin. cbn [test_cases store] in *. rewrite length_app. simpl length.
    apply in_app_or in Hin. destruct Hin as [Hin|Hin].
    + destruct (Hg t Hin) as [H1 H2]. split; [exact H1 | lia].
    + destruct (block_executable spec base_url path method operation (store g) t Hs Hin)
        as [H1 H2].
      split; [exact H1 | lia].
  - rewrite generate_operation_unsupported by exact Hs. exact Hg.
Qed.

Lemma generate_test_cases_executable spec :
  executable_gen (generate_test_cases spec).
Proof.
  unfold generate_test_cases. rewrite generate_from_operations.
  assert (H : forall ops g, executable_gen g ->
            executable_gen (fold_left (generate_entry spec (base_url_of spec)) ops g)).
  { induction ops as [|e ops IH]; intros g Hg; simpl; [exact Hg|].
    apply IH, generate_entry_executable, Hg. }
  apply H. intros t [].
Qed.

(** ** Unsupported methods *)

Lemma button_exclusive p :
  button p GenerateTests = true -> button p RunTests = false.
Proof.
  unfold button. intros H. apply bool_decide_eq_true in H. rewrite H.
  reflexivity.
Qed.

(** C10.  A case whose lowercased method is none of get, post, put,
    delete, patch is executed without any call being issued; its result
    has status Error, [passed] false, no response, and the message of the
    attribute error on [None].  The simplified configuration builds such
    cases: the method of an entry, a text of ASCII characters, is kept in
    upper case whatever it is.  But no run of the page executes one.
    With Direct Input a run builds nothing, or was started by Generate
    Tests and lists the cases of the configuration for review: the Run
    Tests button stands inside the block of the Generate Tests button,
    which is not entered in the run that a click on Run Tests starts.
    And the cases that a run does execute have one of the five methods:
    they are those derived from an uploaded contract, which a click on
    Run Tests does hand to [run_tests]. *)
Theorem unsupported_method_never_executed :
  (forall t auth_values h http,
     supported (tc_method t) = false ->
     let r := execute_test t auth_values h http in
     snd (execute_test_calls t auth_values h http) = [] /\
     r_status r = Error /\ r_passed r = false /\ r_response r = None /\
     r_error r = Some none_has_no_status_code) /\
  (forall base_url api g tc m,
     a_method api = Some m ->
     Str.isascii m = true ->
     supported m = false ->
     exists t,
       test_cases (config_case base_url api g tc) = test_cases g ++ [t] /\
       tc_method t = Str.upper m /\
       supported (tc_method t) = false) /\
  (forall p http sched,
     input_method p = DirectInput ->
     main p http sched = Idle \/
     exists yaml_data,
       yaml_input p = Text yaml_data /\
       clicked p = Some GenerateTests /\
       main p http sched =
         Review (config_test_cases
                   (default "http://localhost:8000" (y_base_url yaml_data))
                   (y_apis yaml_data))) /\
  (forall p http sched g report t,
     main p http sched = Tested g report ->
     In t (test_cases g) ->
     supported (tc_method t) = true) /\
  (forall p http sched spec,
     input_method p = UploadSpec ->
     uploaded_file p = Some spec ->
     clicked p = Some RunTests ->
     exists report,
       main p http sched = Tested (generate_test_cases spec) report).
Proof.
  split; [|split; [|split; [|split]]].
  - intros t auth_values h http Hs r. subst r. unfold execute_test.
    rewrite (execute_unsupported auth_values h http t Hs). simpl. auto.
  - intros base_url api g tc m Hm Hascii Hs.
    exists (config_test_case base_url api tc (length (store g))).
    split; [reflexivity|].
    unfold config_test_case. rewrite Hm.
    destruct (config_auth (a_auth api)) as [required auth]. simpl.
    split; [reflexivity|].
    unfold supported in *. rewrite lower_upper by exact Hascii. exact Hs.
  - intros p http sched Hd. unfold main. rewrite Hd.
    destruct (yaml_input p) as [| |yaml_data]; [left; reflexivity..|].
    destruct (button p GenerateTests) eqn:Hb; [|left; reflexivity].
    right. exists yaml_data. split; [reflexivity|].
    split; [apply bool_decide_eq_true in Hb; exact Hb|].
    unfold run_tests_block. rewrite (button_exclusive p Hb). reflexivity.
  - intros p http sched g report t. unfold main.
    destruct (input_method p).
    + destruct (uploaded_file p) as [spec|]; [|discriminate].
      unfold run_tests_block.
      destruct (button p RunTests); [|discriminate].
      intros [= <- _] Hin.
      apply (generate_test_cases_executable spec t Hin).
    + destruct (yaml_input p) as [| |yaml_data]; try discriminate.
      destruct (button p GenerateTests) eqn:Hb; [|discriminate].
      unfold run_tests_block. rewrite (button_exclusive p Hb). discriminate.
  - intros p http sched spec Hu Hf Hc. unfold main, run_tests_block, button.
    rewrite Hu, Hf, Hc. rewrite bool_decide_eq_true_2 by reflexivity.
    eexists. reflexivity.
Qed.

Lemma unsupported_method_never_executed_witness :
  let g := config_test_cases "http://localhost:8000" [head_api] in
  (exists t,
     test_cases g = [t] /\ tc_method t = "HEAD" /\
     r_status (execute_test t blank_credentials (store g) (answering 200 "")) =
       Error /\
     snd (execute_test_calls t blank_credentials (store g) (answering 200 "")) =
       []) /\
  main (head_page (Some GenerateTests)) (fun _ => answering 200 "") [] = Review g /\
  main (head_page (Some RunTests)) (fun _ => answering 200 "") [] = Idle.
Proof.
  split; [|split].
  - eexists. split; [reflexivity|]. split; [reflexivity|].
    match goal with
    | |- r_status (execute_test ?t ?a ?h ?n) = _ /\ _ =>
        destruct (proj1 unsupported_method_never_executed t a h n eq_refl)
          as (H1 & H2 & _)
    end.
    split; [exact H2 | exact H1].
  - reflexivity.
  - destruct (proj1 (proj2 (proj2 unsupported_method_never_executed))
                (head_page (Some RunTests)) (fun _ => answering 200 "") []
                eq_refl) as [H|(y & _ & Hc & _)]; [exact H | discriminate Hc].
Defined.

(** X2.  Every case that the derivation returns can be executed against
    the store it returns: its method is one of the five verbs and its
    expected status is defined, so exactly one call is issued for it, and
    its result is Error only when that call raised; when the call is
    answered the result is Passed or Failed by the expected status. *)
Theorem derived_case_execution spec t auth_values http :
  let g := generate_test_cases spec in
  In t (test_cases g) ->
  exists c e,
    snd (execute_test_calls t auth_values (store g) http) = [c] /\
    expected_status (store g) t = Some e /\
    let r := execute_test t auth_values (store g) http in
    match http c with
    | Raised msg =>
        r_status r = Error /\ r_error r = Some msg /\ r_response r = None
    | Responded response =>
        r_status r = (if validate e (status_code response) then Passed else Failed) /\
        r_passed r = validate e (status_code response) /\ r_error r = None
    end.
Proof.
  intros g Hin.
  destruct (generate_test_cases_executable spec t Hin) as [Hs Hx]. fold g in Hx.
  destruct (fst (prepare_call t auth_values)) as [c|] eqn:Hc.
  2:{ exfalso. apply (prepare_call_supported auth_values t) in Hs. congruence. }
  destruct (lookup_lt_is_Some_2 (store g) (tc_expected t) Hx) as [x Hl].
  exists c, (status x). split; [|split].
  - rewrite execute_test_calls_issued, Hc. reflexivity.
  - unfold expected_status, get_status. rewrite Hl. reflexivity.
  - intros r. destruct (http c) as [response|msg] eqn:Hh.
    + apply (execute_responded auth_values (store g) http t c response (status x) Hc Hh).
      unfold expected_status, get_status. rewrite Hl. reflexivity.
    + unfold r, execute_test.
      rewrite (execute_raised auth_values (store g) http t c msg Hc Hh).
      simpl. auto.
Qed.

Lemma derived_case_execution_witness :
  exists c,
    snd (execute_test_calls api_key_case supplied_credentials (store scenario_gen)
           unreachable) = [c] /\
    r_status (execute_test api_key_case supplied_credentials (store scenario_gen)
                unreachable) = Error.
Proof.
  destruct (derived_case_execution
              (scenario_spec ["http://localhost:8000"] None "X-API-Key" "header" "201" [])
              api_key_case supplied_credentials unreachable)
    as (c & e & Hc & _ & Hr).
  - vm_compute. left. reflexivity.
  - exists c. split; [exact Hc|]. exact (proj1 Hr).
Defined.

(** ** The request of a nominal case *)

Lemma add_authentication_request spec operation t :
  tc_request (add_authentication spec operation t) = tc_request t.
Proof.
  unfold add_authentication.
  destruct (auth_scheme_of _) as [k|]; [|reflexivity].
  destruct (securitySchemes spec !! k) as [[n i|s|ty]|]; try reflexivity.
  destruct (String.eqb s "bearer"); reflexivity.
Qed.

Lemma fold_add_parameter_request ps t :
  let r := tc_request (fold_left add_parameter ps t) in
  url r = url (tc_request t) /\
  body r = body (tc_request t) /\
  (forall k, params r !! k =
     if existsb (declared_in "query" k) ps then Some None
     else params (tc_request t) !! k) /\
  (forall k, headers r !! k =
     if existsb (declared_in "header" k) ps then Some None
     else headers (tc_request t) !! k).
Proof.
  revert t. induction ps as [|p ps IH]; intros t; [simpl; auto|].
  cbn [fold_left existsb].
  destruct (IH (add_parameter t p)) as (Hu & Hb & Hp & Hh).
  assert (Hreq : tc_request (add_parameter t p) =
            if String.eqb (p_in p) "query" then
              with_params (<[p_name p := None]> (params (tc_request t))) (tc_request t)
            else if String.eqb (p_in p) "header" then
              with_headers (<[p_name p := None]> (headers (tc_request t))) (tc_request t)
            else tc_request t).
  { unfold add_parameter.
    destruct (String.eqb (p_in p) "query"), (String.eqb (p_in p) "header"),
      (p_required p); reflexivity. }
  cbv zeta. rewrite Hu, Hb. rewrite Hreq. clear Hu Hb.
  split; [|split; [|split]].
  - destruct (String.eqb (p_in p) "query"), (String.eqb (p_in p) "header"); reflexivity.
  - destruct (String.eqb (p_in p) "query"), (String.eqb (p_in p) "header"); reflexivity.
  - intros k. rewrite Hp, Hreq.
    destruct (existsb (declared_in "query" k) ps); [rewrite orb_true_r; reflexivity|].
    rewrite orb_false_r. unfold declared_in.
    destruct (String.eqb (p_in p) "query") eqn:Hq; simpl.
    + destruct (String.eqb (p_name p) k) eqn:Hk.
      * apply String.eqb_eq in Hk. subst k. apply lookup_insert_eq.
      * apply String.eqb_neq in Hk. apply lookup_insert_ne. exact Hk.
    + destruct (String.eqb (p_in p) "header"); reflexivity.
  - intros k. rewrite Hh, Hreq.
    destruct (existsb (declared_in "header" k) ps); [rewrite orb_true_r; reflexivity|].
    rewrite orb_false_r. unfold declared_in.
    destruct (String.eqb (p_in p) "query") eqn:Hq.
    + apply String.eqb_eq in Hq. rewrite Hq. reflexivity.
    + destruct (String.eqb (p_in p) "header") eqn:Hd; simpl; [|reflexivity].
      destruct (String.eqb (p_name p) k) eqn:Hk.
      * apply String.eqb_eq in Hk. subst k. apply lookup_insert_eq.
      * apply String.eqb_neq in Hk. apply lookup_insert_ne. exact Hk.
Qed.

Lemma fold_add_content_request cs t :
  let r := tc_request (fold_left add_content cs t) in
  url r = url (tc_request t) /\
  params r = params (tc_request t) /\
  body r = (if existsb snd cs then Some "{}" else body (tc_request t)) /\
  (forall k, headers r !! k =
     match last cs with
     | Some c =>
         if String.eqb k "Content-Type" then Some (Some (fst c))
         else headers (tc_request t) !! k
     | None => headers (tc_request t) !! k
     end).
Proof.
  revert t. induction cs as [|c cs IH]; intros t; [simpl; auto|].
  cbn [fold_left existsb].
  destruct (IH (add_content t c)) as (Hu & Hp & Hb & Hh).
  cbv zeta. rewrite Hu, Hp, Hb. clear Hu Hp Hb.
  split; [|split; [|split]].
  - unfold add_content. simpl. destruct (snd c); reflexivity.
  - unfold add_content. simpl. destruct (snd c); reflexivity.
  - unfold add_content. simpl. destruct (snd c), (existsb snd cs); reflexivity.
  - intros k. rewrite Hh. rewrite last_cons.
    assert (Hhd : headers (tc_request (add_content t c)) =
              <["Content-Type" := Some (fst c)]> (headers (tc_request t)))
      by (unfold add_content; simpl; destruct (snd c); reflexivity).
    rewrite Hhd.
    destruct (last cs) as [c'|]; destruct (String.eqb k "Content-Type") eqn:Hk;
      try reflexivity.
    + apply String.eqb_neq in Hk. apply lookup_insert_ne. congruence.
    + apply String.eqb_eq in Hk. subst k. apply lookup_insert_eq.
    + apply String.eqb_neq in Hk. apply lookup_insert_ne. congruence.
Qed.

(** X3.  The request of the nominal case of an operation: its URL is the
    base URL followed by the path as declared; its query parameters are
    the names declared in [query], each unset; its headers are the names
    declared in [header], each unset, and Content-Type with the last
    declared content type when the request body declares any; its body
    is the empty object when a declared content has a schema and is
    absent otherwise.  A parameter declared elsewhere, as in [path], adds
    nothing to the request.  The names of the required parameters, of
    every location and in the order of their declaration, are recorded
    in [required_params]. *)
Theorem nominal_request spec base_url path method operation e :
  let t := base_test_case spec base_url path method operation e in
  let r := tc_request t in
  tc_required_params t =
    map p_name (filter (fun p => p_required p = true) (op_parameters operation)) /\
  url r = base_url +:+ path /\
  (forall k, params r !! k =
     if existsb (declared_in "query" k) (op_parameters operation)
     then Some None else None) /\
  (forall k, headers r !! k =
     match last (op_requestBody operation) with
     | Some c =>
         if String.eqb k "Content-Type" then Some (Some (fst c))
         else if existsb (declared_in "header" k) (op_parameters operation)
              then Some None else None
     | None =>
         if existsb (declared_in "header" k) (op_parameters operation)
         then Some None else None
     end) /\
  body r = if existsb snd (op_requestBody operation) then Some "{}" else None.
Proof.
  cbv zeta.
  split; [apply (base_test_case_fields spec base_url path method operation e)|].
  unfold base_test_case.
  match goal with
  | |- context [fold_left add_content ?cs (fold_left add_parameter ?ps ?t1)] =>
      destruct (fold_add_content_request cs (fold_left add_parameter ps t1))
        as (Hu & Hp & Hb & Hh);
      destruct (fold_add_parameter_request ps t1) as (Hu' & Hb' & Hp' & Hh')
  end.
  cbv zeta in *. rewrite add_authentication_request in Hu', Hb', Hp', Hh'.
  simpl in Hu', Hb', Hp', Hh'.
  rewrite Hu, Hu', Hp, Hb, Hb'.
  split; [reflexivity|]. split; [|split; [|reflexivity]].
  - intros k. rewrite Hp'. rewrite lookup_empty. reflexivity.
  - intros k. rewrite Hh.
    destruct (last (op_requestBody operation)) as [c|].
    + destruct (String.eqb k "Content-Type"); [reflexivity|].
      rewrite Hh', lookup_empty. reflexivity.
    + rewrite Hh', lookup_empty. reflexivity.
Qed.

(** ** Authentication, from the contract to the call *)

Lemma add_authentication_auth spec operation t :
  tc_auth_required t = false ->
  tc_auth t = NoAuthType ->
  let t' := add_authentication spec operation t in
  tc_auth t' =
    match auth_scheme_of (resolved_security spec operation) with
    | Some k => auth_of_scheme (securitySchemes spec !! k)
    | None => NoAuthType
    end /\
  tc_auth_value t' = tc_auth_value t.
Proof.
  intros Hr Ha. unfold add_authentication. fold (resolved_security spec operation).
  destruct (auth_scheme_of _) as [k|]; [|auto].
  unfold auth_of_scheme.
  destruct (securitySchemes spec !! k) as [[n i|s|ty]|]; simpl; auto.
  destruct (String.eqb s "bearer"); simpl; auto.
Qed.

Lemma fold_add_parameter_auth_value ps t :
  tc_auth_value (fold_left add_parameter ps t) = tc_auth_value t.
Proof.
  revert t. induction ps as [|p ps IH]; intros t; simpl; [reflexivity|].
  rewrite IH. unfold add_parameter.
  destruct (p_required p), (String.eqb (p_in p) "query"),
    (String.eqb (p_in p) "header"); reflexivity.
Qed.

Lemma fold_add_content_auth_value cs t :
  tc_auth_value (fold_left add_content cs t) = tc_auth_value t.
Proof.
  revert t. induction cs as [|c cs IH]; intros t; simpl; [reflexivity|].
  rewrite IH. reflexivity.
Qed.

(** X4.  The authentication of a nominal case comes from the first scheme
    named by the first requirement of the operation's own [security] when
    the operation has that key, else of the contract's: the case is marked
    as requiring authentication when there is such a name, an apiKey
    scheme is recorded with its name and location, an http scheme with
    scheme bearer as bearer, and any other or undeclared scheme is not
    recorded.  An operation whose own [security] is the empty list is not
    marked, whatever the contract's [security] says.  No credential value
    is recorded on a nominal case. *)
Theorem nominal_authentication spec base_url path method operation e :
  let t := base_test_case spec base_url path method operation e in
  let scheme :=
    auth_scheme_of (default (security spec) (op_security operation)) in
  tc_auth_required t = (if scheme is Some _ then true else false) /\
  tc_auth t =
    (if scheme is Some k then auth_of_scheme (securitySchemes spec !! k)
     else NoAuthType) /\
  tc_auth_value t = None /\
  (op_security operation = Some [] -> tc_auth_required t = false).
Proof.
  intros t scheme.
  destruct (base_test_case_fields spec base_url path method operation e)
    as (_ & Hr & _). fold t in Hr.
  assert (Ha : tc_auth t =
            (if scheme is Some k then auth_of_scheme (securitySchemes spec !! k)
             else NoAuthType) /\ tc_auth_value t = None).
  { unfold t, base_test_case.
    rewrite fold_add_content_auth_value, fold_add_parameter_auth_value.
    match goal with
    | |- context [fold_left add_content ?cs (fold_left add_parameter ?ps ?t1)] =>
        destruct (fold_add_content_fields cs (fold_left add_parameter ps t1))
          as (_ & _ & -> & _);
        destruct (fold_add_parameter_fields ps t1) as (_ & _ & -> & _)
    end.
    match goal with
    | |- context [add_authentication spec operation ?t0] =>
        destruct (add_authentication_auth spec operation t0 eq_refl eq_refl)
          as (-> & ->)
    end.
    split; reflexivity. }
  destruct Ha as [Ha Hv].
  assert (Hreq : tc_auth_required t = (if scheme is Some _ then true else false)).
  { rewrite Hr. fold (resolved_security spec operation). unfold scheme, resolved_security.
    destruct (auth_scheme_of _); case_bool_decide; congruence. }
  split; [exact Hreq|]. split; [exact Ha|]. split; [exact Hv|].
  intros Hs. rewrite Hreq. unfold scheme. rewrite Hs. reflexivity.
Qed.

Lemma nominal_authentication_witness :
  tc_auth_required
    (base_test_case
       {| servers := []; paths := []; security := [["ApiKeyAuth"]];
          securitySchemes := {["ApiKeyAuth" := SchemeApiKey "X-API-Key" "header"]} |}
       "" "/open" "get"
       {| op_summary := None; op_description := None; op_security := Some [];
          op_parameters := []; op_requestBody := []; op_responses := [] |} 0) = false.
Proof.
  apply (nominal_authentication
           {| servers := []; paths := []; security := [["ApiKeyAuth"]];
              securitySchemes := {["ApiKeyAuth" := SchemeApiKey "X-API-Key" "header"]} |}).
  reflexivity.
Defined.

Section Injection.

Variable auth_values : Credentials.

(** X5.  No credential is added to the call of a case that is not marked
    as requiring authentication, of a marked case without a recorded
    scheme, or of an apiKey case whose location is neither [header] nor
    [query] (a cookie, say): the headers and query parameters of the call
    are those of the case. *)
Theorem no_credential_injected t c :
  fst (prepare_call t auth_values) = Some c ->
  tc_auth_required t = false \/
  tc_auth t = NoAuthType \/
  (exists n i, tc_auth t = ApiKey n i /\ i <> "header" /\ i <> "query") ->
  nothing_injected t c /\ call_url c = url (tc_request t).
Proof.
  unfold prepare_call, fill_authentication, nothing_injected. intros Hc Hcase.
  assert (Hfill :
    (if tc_auth_required t
     then match tc_auth t with
          | NoAuthType => (headers (tc_request t), params (tc_request t))
          | ApiKey auth_name auth_in =>
              if String.eqb auth_in "header"
              then (<[auth_name := apiKey auth_values]> (headers (tc_request t)),
                    params (tc_request t))
              else if String.eqb auth_in "query"
                   then (headers (tc_request t),
                         <[auth_name := apiKey auth_values]> (params (tc_request t)))
                   else (headers (tc_request t), params (tc_request t))
          | Bearer =>
              (<["Authorization" :=
                   Some ("Bearer " +:+ Str.of_option (bearer auth_values))]>
                 (headers (tc_request t)), params (tc_request t))
          end
     else (headers (tc_request t), params (tc_request t))) =
    (headers (tc_request t), params (tc_request t))).
  { destruct Hcase as [->|[->|(n & i & -> & Hh & Hq)]]; [reflexivity| |].
    - destruct (tc_auth_required t); reflexivity.
    - apply String.eqb_neq in Hh, Hq. rewrite Hh, Hq.
      destruct (tc_auth_required t); reflexivity. }
  rewrite Hfill in Hc. simpl in Hc.
  destruct (Str.mem (Str.lower (tc_method t)) supported_methods); [|discriminate].
  injection Hc as <-. simpl. auto.
Qed.

End Injection.

Lemma no_credential_injected_witness :
  exists c,
    fst (prepare_call (with_auth true (ApiKey "session" "cookie") api_key_case)
           supplied_credentials) = Some c /\
    call_headers c = headers (tc_request api_key_case).
Proof.
  eexists. split; [reflexivity|].
  refine (proj1 (proj1 (no_credential_injected supplied_credentials
            (with_auth true (ApiKey "session" "cookie") api_key_case) _ eq_refl _))).
  right. right. exists "session", "cookie". repeat split; discriminate.
Defined.

(** X6.  The call of a case that requires authentication carries the
    supplied credential as it is, also when it is the empty text of a
    field left blank: a bearer case gets the header [Authorization] with
    Bearer, a space and the token, an apiKey case gets the key under its
    declared name among the headers or among the query parameters, in
    place of a value the case had under that name; every other header
    and query parameter is that of the case. *)
Theorem supplied_credential_is_injected t key token c :
  tc_auth_required t = true ->
  fst (prepare_call t {| apiKey := Some key; bearer := Some token |}) = Some c ->
  match tc_auth t with
  | Bearer =>
      call_headers c =
        <["Authorization" := Some ("Bearer " +:+ token)]> (headers (tc_request t)) /\
      call_params c = params (tc_request t)
  | ApiKey n i =>
      (i = "header" ->
       call_headers c = <[n := Some key]> (headers (tc_request t)) /\
       call_params c = params (tc_request t)) /\
      (i = "query" ->
       call_params c = <[n := Some key]> (params (tc_request t)) /\
       call_headers c = headers (tc_request t))
  | NoAuthType => nothing_injected t c
  end.
Proof.
  intros Hr Hc. unfold prepare_call, fill_authentication in Hc. rewrite Hr in Hc.
  destruct (tc_auth t) as [|n i|].
  - simpl in Hc.
    destruct (Str.mem (Str.lower (tc_method t)) supported_methods);
      try discriminate; injection Hc as <-; split; reflexivity.
  - split; intros ->; simpl in Hc;
      destruct (Str.mem (Str.lower (tc_method t)) supported_methods);
      try discriminate; injection Hc as <-; split; reflexivity.
  - simpl in Hc.
    destruct (Str.mem (Str.lower (tc_method t)) supported_methods);
      try discriminate; injection Hc as <-; split; reflexivity.
Qed.

Lemma supplied_credential_is_injected_witness :
  exists c,
    fst (prepare_call bearer_case blank_credentials) = Some c /\
    call_headers c !! "Authorization" = Some (Some "Bearer ").
Proof.
  eexists. split; [reflexivity|].
  destruct (supplied_credential_is_injected bearer_case "" "" _ eq_refl eq_refl)
    as [H _].
  exact (f_equal (fun m : Dict => m !! "Authorization") H).
Defined.

(** ** Judging an answered call *)

(** X7.  When the call of a case is answered and the expected status is a
    single code, the result is Passed if the decimal text of the status
    code is that code and Failed otherwise, never Error; so at most one
    status code makes the case pass.  With a list of codes the case
    passes when the text of the status code is in the list. *)
Theorem answered_call_is_judged t auth_values h http c response e :
  fst (prepare_call t auth_values) = Some c ->
  http c = Responded response ->
  expected_status h t = Some e ->
  let r := execute_test t auth_values h http in
  (r_status r = Passed \/ r_status r = Failed) /\
  r_error r = None /\
  match e with
  | StatusStr s =>
      (r_status r = Passed <-> pretty (status_code response) = s) /\
      (forall code, r_status r = Passed -> pretty code = s ->
                    code = status_code response)
  | StatusList l => r_status r = Passed <-> In (pretty (status_code response)) l
  end.
Proof.
  intros Hc Hr He r.
  destruct (execute_responded auth_values h http t c response e Hc Hr He)
    as (Hs & _ & Herr).
  fold r in Hs, Herr. rewrite Hs. split; [|split; [exact Herr|]].
  - destruct (validate e (status_code response)); auto.
  - destruct e as [s|l]; simpl.
    + destruct (String.eqb (pretty (status_code response)) s) eqn:Heq.
      * apply String.eqb_eq in Heq. split; [tauto|].
        intros code _ Hcode. apply (inj pretty). congruence.
      * apply String.eqb_neq in Heq. split; [split; [discriminate | tauto]|].
        discriminate.
    + unfold Str.mem.
      destruct (existsb (String.eqb (pretty (status_code response))) l) eqn:Hex.
      * split; [|reflexivity]. intros _. apply existsb_exists in Hex.
        destruct Hex as (x & Hx & Heq). apply String.eqb_eq in Heq. subst x. exact Hx.
      * split; [discriminate|]. intros Hin. exfalso.
        assert (existsb (String.eqb (pretty (status_code response))) l = true).
        { apply existsb_exists. exists (pretty (status_code response)).
          split; [exact Hin | apply String.eqb_refl]. }
        congruence.
Qed.

Lemma answered_call_is_judged_witness :
  r_status (execute_test api_key_case supplied_credentials
              [{| status := StatusStr "201" |}] (answering 404 "missing")) = Failed.
Proof.
  destruct (answered_call_is_judged api_key_case supplied_credentials
              [{| status := StatusStr "201" |}] (answering 404 "missing")
              _ _ (StatusStr "201") eq_refl eq_refl eq_refl)
    as ([Hp|Hf] & _ & Hiff & _).
  - apply Hiff in Hp. vm_compute in Hp. discriminate Hp.
  - exact Hf.
Defined.

(** ** More on the worker pool *)

Lemma first_queued_least l i j t :
  first_queued l = Some i -> l !! j = Some (t, Queued) -> i <= j.
Proof.
  revert i j. induction l as [|[t' f] l IH]; intros i j; [discriminate|].
  simpl. unfold is_queued. simpl. destruct f; simpl.
  - intros [= <-] _. lia.
  - destruct (first_queued l) as [k|]; simpl; [|discriminate].
    intros [= <-]. destruct j as [|j]; simpl; [discriminate|].
    intros Hj. specialize (IH k j eq_refl Hj). lia.
  - destruct (first_queued l) as [k|]; simpl; [|discriminate].
    intros [= <-]. destruct j as [|j]; simpl; [discriminate|].
    intros Hj. specialize (IH k j eq_refl Hj). lia.
Qed.

Lemma running_insert l i x y :
  l !! i = Some x ->
  length (filter is_running (<[i := y]> l)) + (if is_running x then 1 else 0) =
  length (filter is_running l) + (if is_running y then 1 else 0).
Proof.
  revert i. induction l as [|z l IH]; intros i; [discriminate|].
  destruct i as [|i]; simpl.
  - intros [= ->]. rewrite !filter_cons.
    destruct (decide (is_running y)) as [Hy|Hy], (decide (is_running x)) as [Hx|Hx];
      simpl; destruct (is_running x), (is_running y); simpl in *;
      try contradiction; try lia; exfalso; auto.
  - intros H. specialize (IH i H). rewrite !filter_cons.
    destruct (decide (is_running z)); simpl; lia.
Qed.

Section PoolOrder.

Variable job : nat -> TestCase -> Result + string.
Variable max_workers : nat.

Lemma step_running ev p p' :
  running p <= max_workers ->
  step job max_workers ev p = Some p' ->
  running p' <= max_workers.
Proof.
  intros Hle. unfold step. destruct ev as [|i|].
  - destruct (Nat.ltb (running p) max_workers) eqn:Hlt; [|discriminate].
    apply Nat.ltb_lt in Hlt.
    destruct (first_queued (futures p)) as [i|] eqn:Hq; [|discriminate].
    destruct (first_queued_lookup _ _ Hq) as [t Hi]. rewrite Hi.
    intros [= <-]. unfold running in *. simpl.
    pose proof (running_insert (futures p) i _ (t, Running) Hi) as H.
    simpl in H. lia.
  - destruct (futures p !! i) as [[t [| |v]]|] eqn:Hi; try discriminate.
    intros [= <-]. unfold running in *. simpl.
    pose proof (running_insert (futures p) i _ (t, Done (job i t)) Hi) as H.
    simpl in H. lia.
  - destruct (futures p !! completed p) as [[t [| |v]]|]; try discriminate.
    intros [= <-]. exact Hle.
Qed.

Lemma step_started_in_order ev p p' :
  started_in_order p ->
  step job max_workers ev p = Some p' ->
  started_in_order p'.
Proof.
  intros Hord. unfold step. destruct ev as [|i0|].
  - destruct (Nat.ltb (running p) max_workers); [|discriminate].
    destruct (first_queued (futures p)) as [i0|] eqn:Hq; [|discriminate].
    destruct (first_queued_lookup _ _ Hq) as [t Hi0]. rewrite Hi0.
    intros [= <-] i j ti tj fj Hij Hi Hj. simpl in Hi, Hj.
    apply list_lookup_insert_Some in Hi. destruct Hi as [(_ & Heq & _)|(Hne & Hi)];
      [discriminate|].
    pose proof (first_queued_least _ _ _ _ Hq Hi) as Hleast.
    rewrite list_lookup_insert_ne in Hj by lia.
    apply (Hord i j ti tj fj Hij Hi Hj).
  - destruct (futures p !! i0) as [[t [| |v]]|] eqn:Hi0; try discriminate.
    intros [= <-] i j ti tj fj Hij Hi Hj. simpl in Hi, Hj.
    apply list_lookup_insert_Some in Hi. destruct Hi as [(_ & Heq & _)|(Hne & Hi)];
      [discriminate|].
    destruct (decide (i0 = j)) as [<-|Hnej].
    + pose proof (Hord i i0 ti t Running Hij Hi Hi0). discriminate.
    + rewrite list_lookup_insert_ne in Hj by exact Hnej.
      apply (Hord i j ti tj fj Hij Hi Hj).
  - destruct (futures p !! completed p) as [[t [| |v]]|]; try discriminate.
    intros [= <-]. exact Hord.
Qed.

Lemma run_bounded sched p p' :
  running p <= max_workers -> started_in_order p ->
  run job max_workers sched p = Some p' ->
  running p' <= max_workers /\ started_in_order p'.
Proof.
  revert p. induction sched as [|ev sched IH]; intros p Hle Hord; simpl.
  - intros [= <-]. auto.
  - destruct (step job max_workers ev p) as [q|] eqn:Hq; [|discriminate].
    apply IH; [apply (step_running ev p q Hle Hq) |
               apply (step_started_in_order ev p q Hord Hq)].
Qed.

Lemma submit_all_bounded tcs :
  running (submit_all tcs) = 0 /\ started_in_order (submit_all tcs).
Proof.
  unfold running, submit_all, started_in_order. simpl. split.
  - induction tcs as [|t tcs IH]; [reflexivity|].
    rewrite fmap_cons, filter_cons_False by (unfold is_running; simpl; auto).
    exact IH.
  - intros i j ti tj fj _ _ Hj. rewrite list_lookup_fmap in Hj.
    destruct (tcs !! j); simpl in Hj; congruence.
Qed.

End PoolOrder.

(** X8.  At every moment of a run of the pool, the number of calls being
    run is at most [max_workers], and the calls that are still queued are
    the last ones submitted: the calls are started in the order of the
    cases. *)
Theorem pool_is_bounded_and_fifo job max_workers tcs sched p :
  run job max_workers sched (submit_all tcs) = Some p ->
  running p <= max_workers /\ started_in_order p.
Proof.
  intros Hrun. destruct (submit_all_bounded tcs) as [H0 Hord].
  apply (run_bounded job max_workers sched (submit_all tcs) p); [lia | exact Hord | exact Hrun].
Qed.

Lemma pool_is_bounded_and_fifo_witness :
  exists p,
    run (execute_job supplied_credentials (store scenario_gen) flaky) 2
      [Start; Start; Finish 1] (submit_all (test_cases scenario_gen)) = Some p /\
    running p <= 2.
Proof.
  destruct (run (execute_job supplied_credentials (store scenario_gen) flaky) 2
              [Start; Start; Finish 1] (submit_all (test_cases scenario_gen)))
    as [p|] eqn:E.
  - exists p. split; [reflexivity|].
    apply (pool_is_bounded_and_fifo _ _ _ _ _ E).
  - vm_compute in E. discriminate E.
Defined.

(** X9.  When the function submitted for a case raises instead of
    returning, a completed run still returns one result per case, in the
    order of the cases; the result of that case is built by the loop from
    the case: its name, path and method, status Error, [passed] false and
    the description of the exception, with no request and no response. *)
Theorem raised_job_is_collected job max_workers tcs sched rs i t e :
  pool_results job max_workers tcs sched = Some rs ->
  tcs !! i = Some t ->
  job i t = inr e ->
  length rs = length tcs /\
  (forall j t', tcs !! j = Some t' -> rs !! j = Some (collected t' (job j t'))) /\
  exists r,
    rs !! i = Some r /\
    r_test_name r = tc_name t /\ r_path r = tc_path t /\ r_method r = tc_method t /\
    r_status r = Error /\ r_passed r = false /\ r_error r = Some e /\
    r_request r = None /\ r_response r = None.
Proof.
  intros Hrun Hi He.
  destruct (pool_results_in_order job max_workers tcs sched rs Hrun) as [-> _].
  unfold in_order. split; [apply length_imap|]. split.
  - intros j t' Hj. rewrite list_lookup_imap, Hj. reflexivity.
  - exists (failed_future t e). rewrite list_lookup_imap, Hi. simpl.
    rewrite He. simpl. repeat split; reflexivity.
Qed.

Lemma raised_job_is_collected_witness :
  exists rs,
    pool_results raising_job 3 (test_cases scenario_gen) out_of_order = Some rs /\
    length rs = 3 /\
    exists r, rs !! 1 = Some r /\ r_error r = Some "worker crashed".
Proof.
  destruct (pool_results raising_job 3 (test_cases scenario_gen) out_of_order)
    as [rs|] eqn:E.
  - exists rs. split; [reflexivity|].
    destruct (raised_job_is_collected raising_job 3 (test_cases scenario_gen)
                out_of_order rs 1 (missing_params_test api_key_case)
                "worker crashed" E)
      as (Hl & _ & r & Hr & _ & _ & _ & _ & _ & He & _).
    + vm_compute. reflexivity.
    + reflexivity.
    + split; [rewrite Hl; vm_compute; reflexivity|].
      exists r. split; [exact Hr | exact He].
  - vm_compute in E. discriminate E.
Defined.

(** ** More on aggregation *)

Lemma size_add_result m r : size (add_result m r) <= S (size m).
Proof.
  unfold add_result. rewrite map_size_insert.
  destruct (m !! endpoint r); simpl; lia.
Qed.

Lemma size_grouping rs m :
  size (fold_left add_result rs m) <= size m + length rs.
Proof.
  revert m. induction rs as [|r rs IH]; intros m; simpl; [lia|].
  specialize (IH (add_result m r)). pose proof (size_add_result m r). lia.
Qed.

Lemma of_endpoint_in k rs r :
  In r (of_endpoint k rs) <-> In r rs /\ endpoint r = k.
Proof.
  unfold of_endpoint. rewrite <- !list_elem_of_In, list_elem_of_filter. tauto.
Qed.

Lemma of_endpoint_nil k rs :
  of_endpoint k rs = [] <-> ~ exists r, In r rs /\ endpoint r = k.
Proof.
  unfold of_endpoint. split.
  - intros Hnil (r & Hin & Hk).
    assert (Hr : r ∈ filter (fun r => endpoint r = k) rs).
    { apply list_elem_of_filter. split; [exact Hk | apply list_elem_of_In; exact Hin]. }
    rewrite Hnil in Hr. inversion Hr.
  - intros Hno. destruct (filter (fun r => endpoint r = k) rs) as [|r l] eqn:Hf;
      [reflexivity|].
    exfalso. apply Hno. exists r.
    assert (Hr : r ∈ filter (fun r => endpoint r = k) rs) by (rewrite Hf; left).
    apply list_elem_of_filter in Hr. destruct Hr as [Hk Hin].
    split; [apply list_elem_of_In; exact Hin | exact Hk].
Qed.

(** X10.  The groups of a report are the endpoints of its results: there
    is a group under a key exactly when some result has that method and
    path, no group is empty, and there are at most as many groups as
    results. *)
Theorem groups_are_the_endpoints rs :
  let m := endpoint_results (generate_report rs) in
  (forall k, is_Some (m !! k) <-> exists r, In r rs /\ endpoint r = k) /\
  (forall k g, m !! k = Some g -> (1 <= g_total g)%Z /\ g_tests g <> []) /\
  size m <= length rs.
Proof.
  intros m. subst m. unfold generate_report. cbn [endpoint_results].
  split; [|split].
  - intros k. rewrite grouping_lookup, lookup_empty.
    destruct (of_endpoint k rs) as [|r l] eqn:Hf.
    + apply of_endpoint_nil in Hf. split; [intros [x Hx]; discriminate | tauto].
    + split; [|intros _; eauto].
      intros _. exists r. apply (of_endpoint_in k rs r). rewrite Hf. left. reflexivity.
  - intros k g. rewrite grouping_lookup, lookup_empty.
    destruct (of_endpoint k rs) as [|r l]; [discriminate|].
    intros [= <-]. unfold extend. simpl. split; [lia | discriminate].
  - pose proof (size_grouping rs ∅) as H. rewrite map_size_empty in H. lia.
Qed.

Lemma groups_are_the_endpoints_witness :
  exists g,
    endpoint_results (generate_report sample_results) !! "POST /items" = Some g /\
    (1 <= g_total g)%Z.
Proof.
  destruct (groups_are_the_endpoints sample_results) as (Hdom & Hne & _).
  destruct (proj2 (Hdom "POST /items")) as [g Hg].
  - eexists. split; [left; reflexivity | reflexivity].
  - exists g. split; [exact Hg | exact (proj1 (Hne _ g Hg))].
Defined.

Lemma count_passed_app rs1 rs2 :
  count_passed (rs1 ++ rs2) = (count_passed rs1 + count_passed rs2)%Z.
Proof.
  unfold count_passed. rewrite filter_app, length_app. lia.
Qed.

(** X11.  The report of two lists of results put end to end: the totals,
    the passed counts and the failed counts of the two reports add up,
    and under every endpoint the results are those of the first report
    followed by those of the second. *)
Theorem report_of_concatenation rs1 rs2 :
  let s := summary (generate_report (rs1 ++ rs2)) in
  let s1 := summary (generate_report rs1) in
  let s2 := summary (generate_report rs2) in
  total_tests s = (total_tests s1 + total_tests s2)%Z /\
  passed_tests s = (passed_tests s1 + passed_tests s2)%Z /\
  failed_tests s = (failed_tests s1 + failed_tests s2)%Z /\
  forall k,
    group_tests (generate_report (rs1 ++ rs2)) k =
      group_tests (generate_report rs1) k ++ group_tests (generate_report rs2) k.
Proof.
  unfold generate_report. cbn [summary total_tests passed_tests failed_tests].
  rewrite count_passed_app, length_app.
  split; [lia|]. split; [reflexivity|]. split; [lia|].
  intros k. unfold group_tests. cbn [endpoint_results].
  rewrite !grouping_lookup, !lookup_empty.
  unfold of_endpoint. rewrite filter_app.
  destruct (filter (fun r => endpoint r = k) rs1) as [|a l1];
    destruct (filter (fun r => endpoint r = k) rs2) as [|b l2]; reflexivity.
Qed.

Lemma has_space_append_inj m1 m2 p1 p2 :
  has_space m1 = false -> has_space m2 = false ->
  m1 +:+ " " +:+ p1 = m2 +:+ " " +:+ p2 ->
  m1 = m2 /\ p1 = p2.
Proof.
  revert m2. induction m1 as [|a m1 IH]; intros [|b m2] H1 H2 Heq.
  - change (String " " p1 = String " " p2) in Heq. injection Heq as Heq. auto.
  - exfalso. change (String " " p1 = String b (m2 +:+ " " +:+ p2)) in Heq.
    injection Heq as <- _. simpl in H2. discriminate.
  - exfalso. change (String a (m1 +:+ " " +:+ p1) = String " " p2) in Heq.
    injection Heq as -> _. simpl in H1. discriminate.
  - change (String a (m1 +:+ " " +:+ p1) = String b (m2 +:+ " " +:+ p2)) in Heq.
    injection Heq as -> Heq. simpl in H1, H2.
    apply orb_false_iff in H1, H2.
    destruct (IH m2 (proj2 H1) (proj2 H2) Heq) as [-> ->]. auto.
Qed.

Lemma lower_ascii_space c :
  Ascii.eqb (Str.lower_ascii c) " " = Ascii.eqb c " ".
Proof. destruct c as [[] [] [] [] [] [] [] []]; reflexivity. Qed.

Lemma has_space_lower s : has_space (Str.lower s) = has_space s.
Proof.
  induction s as [|c s IH]; [reflexivity|].
  change (Ascii.eqb (Str.lower_ascii c) " " || has_space (Str.lower s) =
          Ascii.eqb c " " || has_space s).
  rewrite lower_ascii_space, IH. reflexivity.
Qed.

Lemma supported_no_space method : supported method = true -> has_space method = false.
Proof.
  unfold supported, Str.mem, supported_methods. intros H.
  rewrite <- has_space_lower.
  apply existsb_exists in H. destruct H as (x & Hin & Heq).
  apply String.eqb_eq in Heq. rewrite Heq.
  repeat (destruct Hin as [<-|Hin]; [reflexivity|]). destruct Hin.
Qed.

(** X12.  The results of two cases of a derivation are reported under the
    same endpoint key exactly when the cases have the same method and the
    same path: a derived method has no space, so the key, the method, a
    space and the path, determines both. *)
Theorem derived_results_group_by_operation spec t1 t2 auth_values h http1 http2 :
  In t1 (test_cases (generate_test_cases spec)) ->
  In t2 (test_cases (generate_test_cases spec)) ->
  endpoint (execute_test t1 auth_values h http1) =
    endpoint (execute_test t2 auth_values h http2) <->
  tc_method t1 = tc_method t2 /\ tc_path t1 = tc_path t2.
Proof.
  intros H1 H2.
  destruct (generate_test_cases_executable spec t1 H1) as [Hs1 _].
  destruct (generate_test_cases_executable spec t2 H2) as [Hs2 _].
  destruct (execute_test_identity t1 auth_values h http1) as (_ & Hp1 & Hm1).
  destruct (execute_test_identity t2 auth_values h http2) as (_ & Hp2 & Hm2).
  unfold endpoint. rewrite Hp1, Hm1, Hp2, Hm2. split.
  - apply has_space_append_inj; apply supported_no_space; assumption.
  - intros [-> ->]. reflexivity.
Qed.

Lemma derived_results_group_by_operation_witness :
  endpoint (execute_test api_key_case supplied_credentials (store scenario_gen)
              unreachable) =
  endpoint (execute_test (invalid_auth_test api_key_case) supplied_credentials
              (store scenario_gen) (answering 401 "")).
Proof.
  apply (derived_results_group_by_operation
           (scenario_spec ["http://localhost:8000"] None "X-API-Key" "header" "201" [])).
  - vm_compute. left. reflexivity.
  - vm_compute. right. right. left. reflexivity.
  - split; reflexivity.
Defined.

(** X13.  When there are results and none passed, the success rate is
    the float zero, where the report of no result has the integer 0. *)
Theorem success_rate_none_passed rs :
  rs <> [] ->
  (forall r, In r rs -> r_passed r = false) ->
  success_rate (summary (generate_report rs)) = Float (S754_zero false) /\
  passed_tests (summary (generate_report rs)) = 0%Z /\
  failed_tests (summary (generate_report rs)) = total_tests (summary (generate_report rs)).
Proof.
  intros Hne Hall.
  assert (Hp : count_passed rs = 0%Z).
  { clear Hne. induction rs as [|r rs IH]; [reflexivity|].
    rewrite count_passed_cons, (Hall r) by (left; reflexivity).
    rewrite IH by (intros r' Hr'; apply Hall; right; exact Hr'). reflexivity. }
  unfold generate_report. cbn [summary success_rate passed_tests failed_tests total_tests].
  rewrite Hp. split; [|split; [reflexivity | lia]].
  unfold rate. destruct rs as [|r rs]; [congruence|].
  destruct (Z.of_nat (length (r :: rs))) as [|p|p] eqn:Hl; simpl in Hl; try lia.
  reflexivity.
Qed.

Lemma success_rate_none_passed_witness :
  success_rate
    (summary
       (generate_report
          [execute_test api_key_case supplied_credentials [] unreachable])) =
    Float (S754_zero false).
Proof.
  apply success_rate_none_passed; [discriminate|].
  intros r [<-|[]]. reflexivity.
Defined.

(** ** Cases from the configuration *)

Lemma config_api_entries base_url api g :
  config_api base_url g api =
    fold_left (fun g e => config_case base_url (fst e) g (snd e))
      (map (pair api) (a_test_cases api)) g.
Proof.
  unfold config_api. revert g.
  induction (a_test_cases api) as [|c cs IH]; intros g; simpl; [reflexivity|].
  apply IH.
Qed.

Lemma config_fold_entries base_url apis g :
  fold_left (config_api base_url) apis g =
    fold_left (fun g e => config_case base_url (fst e) g (snd e))
      (config_entries apis) g.
Proof.
  unfold config_entries. revert g.
  induction apis as [|api apis IH]; intros g; simpl; [reflexivity|].
  rewrite fold_left_app, <- config_api_entries. apply IH.
Qed.

Lemma config_entries_fold base_url es g :
  length (store g) = length (test_cases g) ->
  let g' := fold_left (fun g e => config_case base_url (fst e) g (snd e)) es g in
  test_cases g' =
    test_cases g ++
    imap (fun i e => config_test_case base_url (fst e) (snd e) (length (test_cases g) + i)) es /\
  store g' = store g ++ ((fun e => {| status := declared_status (snd e) |}) <$> es).
Proof.
  revert g. induction es as [|e es IH]; intros g Hlen.
  - simpl. rewrite !app_nil_r. auto.
  - cbn [fold_left].
    assert (Hstep : config_case base_url (fst e) g (snd e) =
              {| test_cases := test_cases g ++
                   [config_test_case base_url (fst e) (snd e) (length (test_cases g))];
                 store := store g ++ [{| status := declared_status (snd e) |}] |}).
    { unfold config_case, alloc, append_case. rewrite Hlen. reflexivity. }
    rewrite Hstep.
    match goal with
    | |- context [fold_left ?f es ?g1] =>
        destruct (IH g1) as [Ht Hs];
          [cbn [test_cases store]; rewrite !length_app; simpl; lia|]
    end.
    cbv zeta in *. rewrite Ht, Hs. cbn [test_cases store].
    rewrite imap_cons, fmap_cons, <- !app_assoc. simpl.
    rewrite Nat.add_0_r. split; [|reflexivity].
    do 2 f_equal. apply imap_ext. intros i x _. simpl.
    rewrite length_app. simpl. f_equal. lia.
Qed.

(** X14.  The cases built from the simplified configuration are one per
    declared case, entry after entry in order, and each has an expected
    dictionary of its own: the case in position [i] refers to the
    dictionary in position [i], and reads from it the status declared for
    that case, or "200" when none is declared. *)
Theorem config_cases_own_expected base_url apis :
  let g := config_test_cases base_url apis in
  test_cases g =
    imap (fun i e => config_test_case base_url (fst e) (snd e) i) (config_entries apis) /\
  length (test_cases g) = length (config_entries apis) /\
  (forall i t,
     test_cases g !! i = Some t ->
     tc_expected t = i /\
     exists api c,
       config_entries apis !! i = Some (api, c) /\
       expected_status (store g) t = Some (declared_status c)).
Proof.
  intros g.
  destruct (config_entries_fold base_url (config_entries apis)
              {| test_cases := []; store := [] |} eq_refl) as [Ht Hs].
  cbv zeta in Ht, Hs. rewrite <- config_fold_entries in Ht, Hs.
  fold (config_test_cases base_url apis) in Ht, Hs. fold g in Ht, Hs.
  simpl in Ht, Hs.
  split; [exact Ht|]. split; [rewrite Ht; apply length_imap|].
  intros i t Hi. rewrite Ht, list_lookup_imap in Hi.
  destruct (config_entries apis !! i) as [[api c]|] eqn:He; [|discriminate].
  simpl in Hi. injection Hi as <-.
  assert (Hx : tc_expected (config_test_case base_url api c i) = i).
  { unfold config_test_case. destruct (config_auth (a_auth api)). reflexivity. }
  split; [exact Hx|]. exists api, c. split; [reflexivity|].
  unfold expected_status, get_status. rewrite Hx, Hs.
  rewrite list_lookup_fmap, He. reflexivity.
Qed.

Lemma config_cases_own_expected_witness :
  let g := config_test_cases "http://localhost:8000" [head_api; bearer_api] in
  exists t,
    test_cases g !! 1 = Some t /\ tc_expected t = 1 /\
    expected_status (store g) t = Some (StatusStr "200").
Proof.
  intros g. subst g.
  destruct (config_cases_own_expected "http://localhost:8000" [head_api; bearer_api])
    as (_ & _ & H).
  destruct (test_cases (config_test_cases "http://localhost:8000"
                          [head_api; bearer_api]) !! 1) as [t|] eqn:E.
  - exists t. split; [reflexivity|].
    destruct (H 1 t E) as (Hx & api & c & Hc & Hs).
    split; [exact Hx|]. rewrite Hs.
    vm_compute in Hc. injection Hc as _ <-. reflexivity.
  - vm_compute in E. discriminate E.
Defined.

(** ** From the contract to the report *)

(** X15.  The report of a completed run of the cases derived from a
    contract: its total, and the sum of its group totals, is the number
    of derived cases, whatever the schedule and the failures; its failed
    count is the number of failed and errored results; and a result is
    errored only when the call of its case raised, the error being the
    description of that exception. *)
Theorem report_of_a_derivation_run spec auth_values http max_workers sched rs :
  let g := generate_test_cases spec in
  run_tests (test_cases g) auth_values (store g) http max_workers sched = Some rs ->
  let report := generate_report rs in
  total_tests (summary report) = Z.of_nat (length (test_cases g)) /\
  sum_group_totals (endpoint_results report) = Z.of_nat (length (test_cases g)) /\
  failed_tests (summary report) =
    Z.of_nat (length (filter (fun r => r_status r = Failed) rs) +
              length (filter (fun r => r_status r = Error) rs)) /\
  (forall i r,
     rs !! i = Some r -> r_status r = Error ->
     exists t c msg,
       test_cases g !! i = Some t /\
       fst (prepare_call t auth_values) = Some c /\
       http i c = Raised msg /\ r_error r = Some msg).
Proof.
  intros g Hrun report.
  destruct (pool_results_in_order _ _ _ _ _ Hrun) as [Hrs _].
  assert (Hlen : length rs = length (test_cases g))
    by (rewrite Hrs; apply length_imap).
  assert (Hat : forall i r, rs !! i = Some r ->
            exists t, test_cases g !! i = Some t /\
                      r = execute_test t auth_values (store g) (http i)).
  { intros i r Hi. rewrite Hrs in Hi. unfold in_order in Hi.
    rewrite list_lookup_imap in Hi.
    destruct (test_cases g !! i) as [t|]; [|discriminate].
    simpl in Hi. injection Hi as <-. exists t. split; reflexivity. }
  destruct (report_facts rs) as (_ & Htot & _ & _ & Hfail & Hsum & _).
  fold report in Htot, Hfail, Hsum. cbn [report_results report generate_report] in Htot.
  split; [rewrite Htot, Hlen; reflexivity|].
  split; [rewrite Hsum, Htot, Hlen; reflexivity|].
  split.
  - apply Hfail. intros r Hin.
    apply list_elem_of_In, list_elem_of_lookup in Hin. destruct Hin as [i Hi].
    destruct (Hat i r Hi) as (t & _ & ->). apply execute_test_is_consistent.
  - intros i r Hi Herr. destruct (Hat i r Hi) as (t & Ht & ->).
    assert (Hin : In t (test_cases g)).
    { apply list_elem_of_In, list_elem_of_lookup. exists i. exact Ht. }
    destruct (generate_test_cases_executable spec t Hin) as [Hs Hx]. fold g in Hx.
    destruct (fst (prepare_call t auth_values)) as [c|] eqn:Hc.
    2:{ exfalso. apply (prepare_call_supported auth_values t) in Hs. congruence. }
    destruct (lookup_lt_is_Some_2 (store g) (tc_expected t) Hx) as [x Hl].
    exists t, c. destruct (http i c) as [response|msg] eqn:Hh.
    + exfalso.
      destruct (execute_responded auth_values (store g) (http i) t c response (status x)
                  Hc Hh) as (Hst & _).
      { unfold expected_status, get_status. rewrite Hl. reflexivity. }
      rewrite Hst in Herr. destruct (validate _ _); discriminate.
    + exists msg. split; [exact Ht|]. split; [exact Hc|]. split; [reflexivity|].
      unfold execute_test.
      rewrite (execute_raised auth_values (store g) (http i) t c msg Hc Hh).
      reflexivity.
Qed.

Lemma report_of_a_derivation_run_witness :
  exists rs,
    run_tests (test_cases scenario_gen) supplied_credentials (store scenario_gen)
      flaky 3 out_of_order = Some rs /\
    total_tests (summary (generate_report rs)) = 3%Z.
Proof.
  destruct (run_tests (test_cases scenario_gen) supplied_credentials
              (store scenario_gen) flaky 3 out_of_order) as [rs|] eqn:E.
  - exists rs. split; [reflexivity|].
    exact (proj1 (report_of_a_derivation_run
                    (scenario_spec ["http://localhost:8000"] None "X-API-Key"
                       "header" "201" [])
                    supplied_credentials flaky 3 out_of_order rs E)).
  - vm_compute in E. discriminate E.
Defined.

(** * Properties of the test executor and generator *)

Module GeneratorProperties.

Import Generator.

Example resource_of_api_users : extract_resource "/api/users/{id}" = "users".
Proof. reflexivity. Qed.

Example resource_of_users : extract_resource "/users/1" = "General".
Proof. reflexivity. Qed.

Lemma split_no_separator s p : In p (split s) -> has_separator p = false.
Proof.
  revert p. induction s as [|c s IH]; intros p; simpl.
  - intros [<-|[]]. reflexivity.
  - destruct (is_separator c) eqn:Hc.
    + intros [<-|H]; [reflexivity | apply IH, H].
    + destruct (split s) as [|q qs].
      * intros [<-|[]]. simpl. rewrite Hc. reflexivity.
      * intros [<-|H].
        -- simpl. rewrite Hc. apply IH. left. reflexivity.
        -- apply IH. right. exact H.
Qed.

Lemma split_plain s : has_separator s = false -> split s = [s].
Proof.
  induction s as [|c s IH]; simpl; [reflexivity|].
  intros H. apply orb_false_iff in H. destruct H as [Hc Hs].
  rewrite Hc, (IH Hs). reflexivity.
Qed.

Lemma split_append s c r :
  has_separator s = false -> is_separator c = true ->
  split (s +:+ String c r) = s :: split r.
Proof.
  intros Hs Hc. induction s as [|a s IH].
  - change (split (String c r) = "" :: split r). simpl. rewrite Hc. reflexivity.
  - change (split (String a (s +:+ String c r)) = String a s :: split r).
    simpl in Hs. apply orb_false_iff in Hs. destruct Hs as [Ha Hs].
    simpl. rewrite Ha, (IH Hs). reflexivity.
Qed.

Lemma general_is_kept : kept "General" = true /\ has_separator "General" = false.
Proof. split; reflexivity. Qed.

Lemma split_isascii s p :
  Str.isascii s = true -> In p (split s) -> Str.isascii p = true.
Proof.
  revert p. induction s as [|c s IH]; intros p Hs; simpl.
  - intros [<-|[]]. reflexivity.
  - simpl in Hs. apply andb_true_iff in Hs. destruct Hs as [Hc Hs].
    destruct (is_separator c).
    + intros [<-|H]; [reflexivity | apply (IH p Hs H)].
    + destruct (split s) as [|q qs].
      * intros [<-|[]]. simpl. rewrite Hc. reflexivity.
      * intros [<-|H].
        -- simpl. rewrite Hc. apply (IH q Hs). left. reflexivity.
        -- apply (IH p Hs). right. exact H.
Qed.

(** X16.  For an endpoint of ASCII characters, the resource name that
    [extract_resource] returns is a text of ASCII characters that is not
    empty, is not made of digits only, and contains none of the
    characters / ? { }: it is a part of the endpoint between two
    separators, or the word General. *)
Theorem extract_resource_is_a_name endpoint :
  Str.isascii endpoint = true ->
  let r := extract_resource endpoint in
  Str.isascii r = true /\
  r <> "" /\ isdigit r = false /\ has_separator r = false /\
  (r = "General" \/ In r (split endpoint)).
Proof.
  intros Hascii r. subst r. unfold extract_resource.
  destruct (List.filter kept (split endpoint)) as [|p0 [|p ps]] eqn:Hf.
  - repeat split; try reflexivity; [discriminate | left; reflexivity].
  - repeat split; try reflexivity; [discriminate | left; reflexivity].
  - assert (Hin : In p (List.filter kept (split endpoint)))
      by (rewrite Hf; right; left; reflexivity).
    apply List.filter_In in Hin. destruct Hin as [Hin Hk].
    split; [|split; [|split; [|split]]].
    + apply (split_isascii endpoint p Hascii Hin).
    + intros ->. discriminate.
    + destruct p; [reflexivity|]. simpl in Hk. apply negb_true_iff in Hk. exact Hk.
    + apply (split_no_separator endpoint p Hin).
    + right. exact Hin.
Qed.

Lemma extract_resource_is_a_name_witness :
  extract_resource "/api/users/{id}" <> "" /\
  isdigit (extract_resource "/api/users/{id}") = false.
Proof.
  destruct (extract_resource_is_a_name "/api/users/{id}" eq_refl)
    as (_ & H1 & H2 & _).
  split; [exact H1 | exact H2].
Defined.

Lemma kept_filter_plain a ps :
  plain a -> List.filter kept (a :: ps) = a :: List.filter kept ps.
Proof. intros (_ & _ & Hk). simpl. rewrite Hk. reflexivity. Qed.

(** X17.  The resource of an endpoint is its second kept segment: for
    the endpoint made of the segments [a] and [b] of ASCII characters,
    as in /api/users, it is [b], whatever follows a further separator
    and also when a segment of digits stands between them; for an
    endpoint of one segment, as in /users, or of one segment and a
    segment of digits, as in /users/42, it is the word General. *)
Theorem extract_resource_second_segment a b c rest n :
  plain a -> plain b -> is_separator c = true ->
  has_separator n = false -> kept n = false ->
  extract_resource ("/" +:+ a +:+ "/" +:+ b) = b /\
  extract_resource ("/" +:+ a +:+ "/" +:+ b +:+ String c rest) = b /\
  extract_resource ("/" +:+ a +:+ "/" +:+ n +:+ "/" +:+ b) = b /\
  extract_resource ("/" +:+ a) = "General" /\
  extract_resource ("/" +:+ a +:+ "/" +:+ n) = "General".
Proof.
  intros Ha Hb Hc Hn Hkn.
  pose proof Ha as (_ & Ha1 & Ha2). pose proof Hb as (_ & Hb1 & Hb2).
  assert (Hslash : is_separator "/" = true) by reflexivity.
  unfold extract_resource.
  change ("/" +:+ a +:+ "/" +:+ b) with (String "/" (a +:+ String "/" b)).
  change ("/" +:+ a +:+ "/" +:+ b +:+ String c rest)
    with (String "/" (a +:+ String "/" (b +:+ String c rest))).
  change ("/" +:+ a +:+ "/" +:+ n +:+ "/" +:+ b)
    with (String "/" (a +:+ String "/" (n +:+ String "/" b))).
  change ("/" +:+ a) with (String "/" a).
  change ("/" +:+ a +:+ "/" +:+ n) with (String "/" (a +:+ String "/" n)).
  cbn [split]. rewrite Hslash.
  rewrite !(split_append a "/") by assumption.
  rewrite (split_append b c rest) by assumption.
  rewrite (split_append n "/" b) by assumption.
  rewrite !(split_plain a), !(split_plain b), !(split_plain n) by assumption.
  cbn [List.filter]. change (kept "") with false. cbv iota.
  rewrite Ha2, Hb2, Hkn. repeat split; reflexivity.
Qed.

Lemma extract_resource_second_segment_witness :
  extract_resource "/api/users" = "users" /\
  extract_resource "/api/users/{id}" = "users" /\
  extract_resource "/api/42/users" = "users" /\
  extract_resource "/api" = "General" /\
  extract_resource "/api/42" = "General".
Proof.
  apply (extract_resource_second_segment "api" "users" "/" "{id}" "42");
    try reflexivity; repeat split; reflexivity.
Defined.



Section Runs.

Variable base_url : string.
Variable http : nat -> Http.


Lemma run_from_raised i rows k row msg :
  rows !! k = Some row ->
  http (i + k) (call_of base_url row) = Raised msg ->
  (forall j r, j < k -> rows !! j = Some r ->
     exists response, http (i + j) (call_of base_url r) = Responded response) ->
  run_from base_url http i rows =
    (inl msg, map (call_of base_url) (firstn (S k) rows)).
Proof.
  revert i k. induction rows as [|r0 rows IH]; intros i k Hk Hm Hbefore;
    [discriminate|].
  destruct k as [|k].
  - injection Hk as ->. rewrite Nat.add_0_r in Hm.
    cbn [run_from]. rewrite Hm. reflexivity.
  - destruct (Hbefore 0 r0 ltac:(lia) eq_refl) as [response Hr].
    rewrite Nat.add_0_r in Hr.
    cbn [run_from]. rewrite Hr.
    rewrite (IH (S i) k Hk).
    + reflexivity.
    + rewrite <- Hm. f_equal. lia.
    + intros j r Hj Hl. destruct (Hbefore (S j) r ltac:(lia) Hl) as [resp Hresp].
      exists resp. rewrite <- Hresp. f_equal. lia.
Qed.

End Runs.



(** X19.  The executor has no handler around its calls: when the call of
    a row raises, the calls of the rows before it having been answered,
    the run ends with that exception and returns no report, not even the
    rows already judged; the calls issued are those of the rows up to
    that one, and no later row is tried. *)
Theorem run_tests_stops_at_first_failure rows base_url http k row msg :
  rows !! k = Some row ->
  http k (call_of base_url row) = Raised msg ->
  (forall j r, j < k -> rows !! j = Some r ->
     exists response, http j (call_of base_url r) = Responded response) ->
  run_tests rows base_url http =
    (inl msg, map (call_of base_url) (firstn (S k) rows)).
Proof.
  intros Hk Hm Hbefore. unfold run_tests.
  apply (run_from_raised base_url http 0 rows k row msg Hk Hm Hbefore).
Qed.

Lemma run_tests_stops_at_first_failure_witness :
  fst (run_tests sample_rows "http://127.0.0.1:5000" flaky) =
    inl "Connection refused".
Proof.
  rewrite (run_tests_stops_at_first_failure sample_rows "http://127.0.0.1:5000"
             flaky 1 create_user_row "Connection refused" eq_refl eq_refl).
  - reflexivity.
  - intros [|j] r Hj Hr; [|lia]. eexists. reflexivity.
Defined.

End GeneratorProperties.

(** * Properties of the demonstration server *)

Module ServerProperties.

Import Server.

Local Open Scope Z_scope.

Section OrderedFacts.

Context {V : Type}.
Implicit Types (d : list (Z * V)) (k : Z) (v : V).

Lemma get_set_eq k v d : get k (set k v d) = Some v.
Proof.
  induction d as [|[k' v'] d IH]; simpl.
  - rewrite Z.eqb_refl. reflexivity.
  - destruct (Z.eqb k k') eqn:E; simpl; rewrite ?Z.eqb_refl, ?E; auto.
Qed.

Lemma get_set_ne k k' v d : k <> k' -> get k' (set k v d) = get k' d.
Proof.
  intros Hne. induction d as [|[k0 v0] d IH]; simpl.
  - destruct (Z.eqb k' k) eqn:E; [apply Z.eqb_eq in E; congruence | reflexivity].
  - destruct (Z.eqb k k0) eqn:E; simpl.
    + apply Z.eqb_eq in E. subst k0.
      destruct (Z.eqb k' k) eqn:E'; [apply Z.eqb_eq in E'; congruence | reflexivity].
    + destruct (Z.eqb k' k0); [reflexivity | exact IH].
Qed.

Lemma get_del_ne k k' d : k <> k' -> get k' (del k d) = get k' d.
Proof.
  intros Hne. induction d as [|[k0 v0] d IH]; simpl; [reflexivity|].
  destruct (Z.eqb k k0) eqn:E; simpl.
  - apply Z.eqb_eq in E. subst k0.
    destruct (Z.eqb k' k) eqn:E'; [apply Z.eqb_eq in E'; congruence | reflexivity].
  - destruct (Z.eqb k' k0); [reflexivity | exact IH].
Qed.

Lemma get_none_keys k d : get k d = None <-> ~ In k (keys d).
Proof.
  induction d as [|[k0 v0] d IH]; simpl; [tauto|].
  destruct (Z.eqb k k0) eqn:E.
  - apply Z.eqb_eq in E. subst k0. split; [discriminate | tauto].
  - apply Z.eqb_neq in E. rewrite IH. split; [intros H [H'|H']; auto | tauto].
Qed.

Lemma get_in k v d : get k d = Some v -> In (k, v) d.
Proof.
  induction d as [|[k0 v0] d IH]; simpl; [discriminate|].
  destruct (Z.eqb k k0) eqn:E.
  - apply Z.eqb_eq in E. subst k0. intros [= ->]. left. reflexivity.
  - intros H. right. apply IH, H.
Qed.

Lemma get_del_eq k d : StronglySorted Z.lt (keys d) -> get k (del k d) = None.
Proof.
  induction d as [|[k0 v0] d IH]; simpl; intros Hs; [reflexivity|].
  apply StronglySorted_inv in Hs. destruct Hs as [Hs Hall].
  destruct (Z.eqb k k0) eqn:E; simpl.
  - apply Z.eqb_eq in E. subst k0. apply get_none_keys.
    intros Hin. rewrite List.Forall_forall in Hall. specialize (Hall k Hin). lia.
  - rewrite E. apply IH, Hs.
Qed.

Lemma keys_set_present k v d :
  get k d <> None -> keys (set k v d) = keys d.
Proof.
  induction d as [|[k0 v0] d IH]; simpl; [congruence|].
  destruct (Z.eqb k k0) eqn:E; simpl.
  - apply Z.eqb_eq in E. subst k0. reflexivity.
  - intros H. rewrite (IH H). reflexivity.
Qed.

Lemma set_absent k v d : get k d = None -> set k v d = d ++ [(k, v)].
Proof.
  induction d as [|[k0 v0] d IH]; simpl; [reflexivity|].
  destruct (Z.eqb k k0) eqn:E; [discriminate|].
  intros H. rewrite (IH H). reflexivity.
Qed.

Lemma set_same k v d : get k d = Some v -> set k v d = d.
Proof.
  induction d as [|[k0 v0] d IH]; simpl; [discriminate|].
  destruct (Z.eqb k k0) eqn:E.
  - apply Z.eqb_eq in E. subst k0. intros [= ->]. reflexivity.
  - intros H. rewrite (IH H). reflexivity.
Qed.

Lemma del_last k v d : get k d = None -> del k (d ++ [(k, v)]) = d.
Proof.
  induction d as [|[k0 v0] d IH]; simpl.
  - rewrite Z.eqb_refl. reflexivity.
  - destruct (Z.eqb k k0) eqn:E; [discriminate|].
    intros H. rewrite (IH H). reflexivity.
Qed.

Lemma in_set k v d e : In e (set k v d) -> e = (k, v) \/ In e d.
Proof.
  induction d as [|[k0 v0] d IH]; simpl.
  - intros [<-|[]]. auto.
  - destruct (Z.eqb k k0); simpl; intros [<-|H]; auto.
    destruct (IH H); auto.
Qed.

Lemma in_del k d e : In e (del k d) -> In e d.
Proof.
  induction d as [|[k0 v0] d IH]; simpl; [tauto|].
  destruct (Z.eqb k k0); simpl; intros H; auto.
  destruct H as [<-|H]; auto.
Qed.

Lemma sorted_del k d :
  StronglySorted Z.lt (keys d) -> StronglySorted Z.lt (keys (del k d)).
Proof.
  induction d as [|[k0 v0] d IH]; simpl; intros Hs; [constructor|].
  apply StronglySorted_inv in Hs. destruct Hs as [Hs Hall].
  destruct (Z.eqb k k0); simpl; [exact Hs|].
  constructor; [apply IH, Hs|].
  rewrite List.Forall_forall in *. intros x Hx. apply Hall.
  unfold keys in *. apply in_map_iff in Hx. destruct Hx as ([k1 v1] & <- & Hin).
  apply in_map_iff. exists (k1, v1). split; [reflexivity | apply (in_del k d _ Hin)].
Qed.

Lemma fold_max_start ks a : a <= fold_left Z.max ks a.
Proof.
  revert a. induction ks as [|b ks IH]; intros a; simpl; [lia|].
  specialize (IH (Z.max a b)). lia.
Qed.

Lemma fold_max_ge ks a x : In x (a :: ks) -> x <= fold_left Z.max ks a.
Proof.
  intros [<-|H]; [apply fold_max_start|].
  revert a. induction ks as [|b ks IH]; intros a; [destruct H|].
  simpl. destruct H as [<-|H].
  - pose proof (fold_max_start ks (Z.max a b)). lia.
  - apply IH, H.
Qed.

Lemma new_id_greater d k : In k (keys d) -> k < new_id d.
Proof.
  unfold new_id. destruct (keys d) as [|a ks]; [intros []|].
  intros H. pose proof (fold_max_ge ks a k H). lia.
Qed.

Lemma new_id_fresh d : get (new_id d) d = None.
Proof.
  apply get_none_keys. intros H. apply new_id_greater in H. lia.
Qed.

Lemma sorted_append_new d v :
  StronglySorted Z.lt (keys d) ->
  StronglySorted Z.lt (keys (d ++ [(new_id d, v)])).
Proof.
  intros Hs. pose proof (new_id_greater d) as Hnew.
  unfold keys in *. rewrite map_app. simpl.
  induction (map fst d) as [|a ks IH]; simpl.
  - constructor; constructor.
  - apply StronglySorted_inv in Hs. destruct Hs as [Hs Hall]. constructor.
    + apply IH; [exact Hs|]. intros k Hk. apply Hnew. right. exact Hk.
    + rewrite List.Forall_forall in *. intros x Hx. apply in_app_or in Hx.
      destruct Hx as [Hx|[<-|[]]]; [apply Hall, Hx | apply Hnew; left; reflexivity].
Qed.

Lemma store_ok_new (id : V -> Z) d v :
  store_ok id d -> id v = new_id d -> store_ok id (set (new_id d) v d).
Proof.
  intros [Hs Hid] Hv. rewrite set_absent by apply new_id_fresh. split.
  - apply sorted_append_new, Hs.
  - intros k v' Hin. apply in_app_or in Hin.
    destruct Hin as [Hin|[[= <- <-]|[]]]; [apply Hid, Hin | exact Hv].
Qed.

Lemma store_ok_update (id : V -> Z) d k v :
  store_ok id d -> get k d <> None -> id v = k -> store_ok id (set k v d).
Proof.
  intros [Hs Hid] Hk Hv. split.
  - rewrite keys_set_present by exact Hk. exact Hs.
  - intros k' v' Hin. apply in_set in Hin.
    destruct Hin as [[= -> ->]|Hin]; [exact Hv | apply Hid, Hin].
Qed.

Lemma store_ok_del (id : V -> Z) d k : store_ok id d -> store_ok id (del k d).
Proof.
  intros [Hs Hid]. split; [apply sorted_del, Hs|].
  intros k' v' Hin. apply Hid, (in_del k d _ Hin).
Qed.

End OrderedFacts.

Lemma initial_ok : state_ok initial.
Proof.
  split; split.
  - simpl. repeat constructor.
  - intros k v [[= <- <-]|[[= <- <-]|[]]]; reflexivity.
  - simpl. repeat constructor.
  - intros k v [[= <- <-]|[[= <- <-]|[]]]; reflexivity.
Qed.

Lemma handle_ok st r : state_ok st -> state_ok (fst (handle st r)).
Proof.
  intros [Hu Ho]. destruct r as [ |i|d|i d|i| |i|d|i s]; simpl; try (split; assumption).
  - unfold create_user. destruct (d_name d), (d_email d); simpl; try (split; assumption).
    split; [|exact Ho]. apply store_ok_new; [exact Hu | reflexivity].
  - unfold update_user. destruct (get i (users st)) as [u|] eqn:E; simpl;
      [|split; assumption].
    split; [|exact Ho]. apply store_ok_update; [exact Hu | congruence |].
    simpl. destruct Hu as [_ Hid]. apply Hid, get_in, E.
  - unfold delete_user. destruct (get i (users st)); simpl; [|split; assumption].
    split; [|exact Ho]. apply store_ok_del, Hu.
  - unfold create_order. destruct (d_user_id d), (d_items d), (d_total d);
      simpl; try (split; assumption).
    destruct (get z (users st)); simpl; [|split; assumption].
    split; [exact Hu|]. apply store_ok_new; [exact Ho | reflexivity].
  - unfold update_order_status.
    destruct (get i (orders st)) as [o|] eqn:E; simpl; [|split; assumption].
    destruct s; simpl; [|split; assumption].
    split; [exact Hu|]. apply store_ok_update; [exact Ho | congruence |].
    simpl. destruct Ho as [_ Hid]. apply Hid, get_in, E.
Qed.

(** X20.  Whatever requests the server has handled since it started, in
    both stores the ids are listed in increasing order, so no id occurs
    twice, and every stored user and order carries the id under which it
    is stored. *)
Theorem server_stores_stay_consistent rs :
  let st := serve initial rs in
  StronglySorted Z.lt (keys (users st)) /\
  StronglySorted Z.lt (keys (orders st)) /\
  (forall k u, get k (users st) = Some u -> u_id u = k) /\
  (forall k o, get k (orders st) = Some o -> o_id o = k).
Proof.
  intros st.
  assert (H : state_ok st).
  { unfold st, serve. generalize initial_ok. generalize initial.
    induction rs as [|r rs IH]; intros s Hs; simpl; [exact Hs|].
    apply IH, handle_ok, Hs. }
  destruct H as [[Hs1 Hi1] [Hs2 Hi2]].
  repeat split; try assumption.
  - intros k u Hk. apply Hi1, get_in, Hk.
  - intros k o Hk. apply Hi2, get_in, Hk.
Qed.


(** X21.  Creating a user with both fields answers 201 with a user whose
    id is greater than every id in the store; from then on that id is
    found with that user, every other id is found as before, and the
    orders are untouched.  Without one of the two fields the answer is
    400 and nothing changes. *)
Theorem create_user_round_trip st data :
  let '(st', reply) := create_user st data in
  match d_name data, d_email data with
  | Some name, Some email =>
      let id := new_id (users st) in
      let u := {| u_id := id; u_name := name; u_email := email |} in
      reply = (201, BUser u) /\
      (forall k, In k (keys (users st)) -> k < id) /\
      get_user st id = (404, BError "User not found") /\
      get_user st' id = (200, BUser u) /\
      (forall k, k <> id -> get_user st' k = get_user st k) /\
      values (users st') = values (users st) ++ [u] /\
      orders st' = orders st
  | _, _ => st' = st /\ reply = (400, BError "Missing required fields")
  end.
Proof.
  unfold create_user.
  destruct (d_name data) as [name|], (d_email data) as [email|]; auto.
  split; [reflexivity|]. split; [apply new_id_greater|].
  unfold get_user. cbn [users orders].
  rewrite new_id_fresh, get_set_eq.
  split; [reflexivity|]. split; [reflexivity|]. split.
  - intros k Hk. rewrite get_set_ne by congruence. reflexivity.
  - split; [|reflexivity].
    rewrite set_absent by apply new_id_fresh.
    unfold values. rewrite map_app. reflexivity.
Qed.

(** X22.  Deleting a stored user answers 204; from then on its id is not
    found, every other id is found as before, and the orders are left as
    they were, those of the deleted user included.  Deleting an id that
    is not stored answers 404 and changes nothing. *)
Theorem delete_user_removes st user_id :
  StronglySorted Z.lt (keys (users st)) ->
  let '(st', reply) := delete_user st user_id in
  match get user_id (users st) with
  | Some _ =>
      reply = (204, BEmpty) /\
      get_user st' user_id = (404, BError "User not found") /\
      (forall k, k <> user_id -> get_user st' k = get_user st k) /\
      orders st' = orders st
  | None => st' = st /\ reply = (404, BError "User not found")
  end.
Proof.
  intros Hs. unfold delete_user.
  destruct (get user_id (users st)) as [u|] eqn:E; [|auto].
  unfold get_user. cbn [users orders]. rewrite get_del_eq by exact Hs.
  split; [reflexivity|]. split; [reflexivity|]. split; [|reflexivity].
  intros k Hk. rewrite get_del_ne by congruence. reflexivity.
Qed.

Lemma delete_user_removes_witness :
  get_user (fst (delete_user initial 1)) 1 = (404, BError "User not found") /\
  orders (fst (delete_user initial 1)) = orders initial.
Proof.
  pose proof (delete_user_removes initial 1) as H.
  cbv zeta in H. simpl in H.
  destruct H as (_ & H1 & _ & H2); [repeat constructor|].
  split; [exact H1 | exact H2].
Defined.

(** X23.  Ids are given again.  A user created while the one created
    before is still stored gets another id; but when the user created
    last is deleted, the store of users is as before its creation and the
    next user created gets the id that user had. *)
Theorem deleted_id_is_reused st d1 d2 n1 e1 n2 e2 :
  d_name d1 = Some n1 -> d_email d1 = Some e1 ->
  d_name d2 = Some n2 -> d_email d2 = Some e2 ->
  let st1 := fst (create_user st d1) in
  let id := new_id (users st) in
  let st2 := fst (delete_user st1 id) in
  snd (create_user st1 d1) <> snd (create_user st d1) /\
  users st2 = users st /\
  snd (create_user st2 d2) =
    (201, BUser {| u_id := id; u_name := n2; u_email := e2 |}).
Proof.
  intros Hn1 He1 Hn2 He2 st1 id st2.
  assert (H1 : users st1 = users st ++ [(id, {| u_id := id; u_name := n1; u_email := e1 |})]).
  { unfold st1, create_user. rewrite Hn1, He1. cbn [fst users].
    apply set_absent, new_id_fresh. }
  assert (H2 : users st2 = users st).
  { unfold st2, delete_user. rewrite H1.
    assert (Hg : get id (users st ++ [(id, {| u_id := id; u_name := n1; u_email := e1 |})])
                 <> None).
    { rewrite <- set_absent by apply new_id_fresh. rewrite get_set_eq. discriminate. }
    destruct (get id _); [|congruence]. cbn [fst users].
    apply del_last, new_id_fresh. }
  split; [|split; [exact H2|]].
  - unfold create_user. rewrite Hn1, He1. cbn [snd]. intros Heq.
    injection Heq as Heq. fold id in Heq.
    assert (Hlt : id < new_id (users st1)).
    { apply new_id_greater. rewrite H1. unfold keys. rewrite map_app.
      apply in_or_app. right. left. reflexivity. }
    lia.
  - unfold create_user. rewrite Hn2, He2. cbn [snd]. rewrite H2. reflexivity.
Qed.

Lemma deleted_id_is_reused_witness :
  let d := {| d_name := Some "Ann"; d_email := Some "ann@example.com" |} in
  snd (create_user (fst (delete_user (fst (create_user initial d)) 3)) d) =
    (201, BUser {| u_id := 3; u_name := "Ann"; u_email := "ann@example.com" |}).
Proof.
  intros d.
  exact (proj2 (proj2 (deleted_id_is_reused initial d d "Ann" "ann@example.com"
                         "Ann" "ann@example.com" eq_refl eq_refl eq_refl eq_refl))).
Defined.

(** X24.  An order is created only for a user that is stored: the answer
    is 400 when a field is missing, 404 when the user is not stored, and
    in both cases nothing changes; otherwise it is 201 with an order of
    status pending under an id greater than every order id, which is
    found from then on, and the users are untouched. *)
Theorem create_order_checks_user st data :
  let '(st', reply) := create_order st data in
  match d_user_id data, d_items data, d_total data with
  | Some user_id, Some items, Some total =>
      match get user_id (users st) with
      | Some _ =>
          let id := new_id (orders st) in
          let o := {| o_id := id; o_user_id := user_id; o_items := items;
                      o_total := total; o_status := "pending" |} in
          reply = (201, BOrder o) /\
          (forall k, In k (keys (orders st)) -> k < id) /\
          get_order st' id = (200, BOrder o) /\
          (forall k, k <> id -> get_order st' k = get_order st k) /\
          users st' = users st
      | None => st' = st /\ reply = (404, BError "User not found")
      end
  | _, _, _ => st' = st /\ reply = (400, BError "Missing required fields")
  end.
Proof.
  unfold create_order.
  destruct (d_user_id data) as [user_id|], (d_items data) as [items|],
    (d_total data) as [total|]; auto.
  destruct (get user_id (users st)); [|auto].
  split; [reflexivity|]. split; [apply new_id_greater|].
  unfold get_order. cbn [users orders]. rewrite get_set_eq.
  split; [reflexivity|]. split; [|reflexivity].
  intros k Hk. rewrite get_set_ne by congruence. reflexivity.
Qed.

(** X25.  Updating a stored user changes the fields that the request
    gives and keeps the others and the id; the user stays in its place
    in the listing, and every other user and the orders are as before.
    A request that gives neither field changes nothing and still answers
    200.  An id that is not stored answers 404. *)
Theorem update_user_changes_given_fields st user_id data :
  let '(st', reply) := update_user st user_id data in
  match get user_id (users st) with
  | Some u =>
      let u' := {| u_id := u_id u;
                   u_name := default (u_name u) (d_name data);
                   u_email := default (u_email u) (d_email data) |} in
      reply = (200, BUser u') /\
      get_user st' user_id = (200, BUser u') /\
      (forall k, k <> user_id -> get_user st' k = get_user st k) /\
      keys (users st') = keys (users st) /\
      orders st' = orders st /\
      (d_name data = None -> d_email data = None -> st' = st)
  | None => st' = st /\ reply = (404, BError "User not found")
  end.
Proof.
  unfold update_user.
  destruct (get user_id (users st)) as [u|] eqn:E; [|auto].
  unfold get_user. cbn [users orders]. rewrite get_set_eq.
  split; [reflexivity|]. split; [reflexivity|]. split; [|split; [|split]].
  - intros k Hk. rewrite get_set_ne by congruence. reflexivity.
  - apply keys_set_present. congruence.
  - reflexivity.
  - intros -> ->. simpl. rewrite set_same; [destruct st; reflexivity|].
    rewrite E. destruct u; reflexivity.
Qed.

Lemma update_user_changes_given_fields_witness :
  fst (update_user initial 1 {| d_name := None; d_email := None |}) = initial.
Proof.
  pose proof (update_user_changes_given_fields initial 1
                {| d_name := None; d_email := None |}) as H.
  cbv zeta in H. simpl in H.
  destruct H as (_ & _ & _ & _ & _ & H). exact (H eq_refl eq_refl).
Defined.

(** X26.  Setting the status of an order: an order id that is not stored
    answers 404, also when the request has no status; a stored order
    and no status answers 400; in both cases nothing changes.  Otherwise
    the answer is 200 with the order as it was but for its status, and
    the other orders and the users are as before. *)
Theorem update_order_status_sets_status st order_id status :
  let '(st', reply) := update_order_status st order_id status in
  match get order_id (orders st), status with
  | None, _ => st' = st /\ reply = (404, BError "Order not found")
  | Some _, None => st' = st /\ reply = (400, BError "Status field is required")
  | Some o, Some s =>
      let o' := {| o_id := o_id o; o_user_id := o_user_id o; o_items := o_items o;
                   o_total := o_total o; o_status := s |} in
      reply = (200, BOrder o') /\
      get_order st' order_id = (200, BOrder o') /\
      (forall k, k <> order_id -> get_order st' k = get_order st k) /\
      users st' = users st
  end.
Proof.
  unfold update_order_status.
  destruct (get order_id (orders st)) as [o|]; [|auto].
  destruct status as [s|]; [|auto].
  unfold get_order. cbn [users orders]. rewrite get_set_eq.
  split; [reflexivity|]. split; [reflexivity|]. split; [|reflexivity].
  intros k Hk. rewrite get_set_ne by congruence. reflexivity.
Qed.

End ServerProperties.

(** * Properties of the sample API *)

Module SampleProperties.

Import Sample.

Lemma prefix_drop p s : String.prefix p s = true -> s = p +:+ drop (String.length p) s.
Proof.
  revert s. induction p as [|a p IH]; intros s; [reflexivity|].
  destruct s as [|b s]; simpl; [discriminate|].
  destruct (Ascii.ascii_dec a b) as [->|]; [|discriminate].
  intros H. change (String b s = String b (p +:+ drop (String.length p) s)).
  f_equal. apply IH, H.
Qed.

Lemma prefix_append p r : String.prefix p (p +:+ r) = true.
Proof.
  induction p as [|a p IH]; [destruct r; reflexivity|].
  change (String.prefix (String a p) (String a (p +:+ r)) = true). simpl.
  destruct (Ascii.ascii_dec a a); [exact IH | congruence].
Qed.

Lemma drop_append p r : drop (String.length p) (p +:+ r) = r.
Proof.
  induction p as [|a p IH]; [destruct r; reflexivity|].
  change (drop (S (String.length p)) (String a (p +:+ r)) = r). simpl. exact IH.
Qed.

Lemma length_append p r :
  String.length (p +:+ r) = String.length p + String.length r.
Proof.
  induction p as [|a p IH]; [reflexivity|].
  change (S (String.length (p +:+ r)) = S (String.length p + String.length r)).
  rewrite IH. reflexivity.
Qed.

Lemma remove_from_free fuel old s :
  free_of old s = true -> remove_from fuel old s = s.
Proof.
  revert s. induction fuel as [|f IH]; intros s; [reflexivity|].
  destruct s as [|c s]; [reflexivity|].
  intros H. change (negb (String.prefix old (String c s)) && free_of old s = true) in H.
  apply andb_true_iff in H. destruct H as [Hp Hf].
  apply negb_true_iff in Hp.
  change (remove_from (S f) old (String c s)) with
    (if String.prefix old (String c s)
     then remove_from f old (drop (String.length old) (String c s))
     else String c (remove_from f old s)).
  rewrite Hp, (IH s Hf). reflexivity.
Qed.

Lemma remove_from_prefix f a old r :
  remove_from (S f) (String a old) (String a old +:+ r) =
    remove_from f (String a old) r.
Proof.
  change (String a old +:+ r) with (String a (old +:+ r)).
  cbn [remove_from].
  change (String a (old +:+ r)) with (String a old +:+ r).
  rewrite prefix_append, drop_append. reflexivity.
Qed.

Lemma remove_bearer r :
  free_of "Bearer " r = true -> remove "Bearer " ("Bearer " +:+ r) = r.
Proof.
  intros Hf. unfold remove. rewrite length_append.
  change (String.length "Bearer " + String.length r)%nat
    with (S (6 + String.length r)).
  rewrite remove_from_prefix. apply remove_from_free, Hf.
Qed.

(** X27.  [verify_token] returns only for a header that begins with the
    word Bearer and a space, and what it returns is valid_token; a
    missing or empty header, or one without that beginning, raises 401.
    For a header made of that beginning and a rest in which it does not
    occur again, the token is accepted exactly when the rest is
    valid_token. *)
Theorem verify_token_accepts :
  (forall authorization token,
     verify_token authorization = inr token ->
     token = "valid_token" /\
     exists rest, authorization = Some ("Bearer " +:+ rest)) /\
  verify_token None = inl (401%Z, "Invalid authentication") /\
  verify_token (Some "") = inl (401%Z, "Invalid authentication") /\
  (forall rest,
     free_of "Bearer " rest = true ->
     (verify_token (Some ("Bearer " +:+ rest)) = inr "valid_token" <->
      rest = "valid_token") /\
     (rest <> "valid_token" ->
      verify_token (Some ("Bearer " +:+ rest)) = inl (401%Z, "Invalid token"))).
Proof.
  split; [|split; [reflexivity|split; [reflexivity|]]].
  - intros [a|] token; [|discriminate]. unfold verify_token.
    destruct (String.eqb a ""); [discriminate|]. simpl.
    destruct (String.prefix "Bearer " a) eqn:Hp; [|discriminate]. simpl.
    destruct (String.eqb (remove "Bearer " a) "valid_token") eqn:He; [|discriminate].
    intros [= <-]. apply String.eqb_eq in He. split; [exact He|].
    exists (drop 7 a). f_equal. apply (prefix_drop "Bearer " a Hp).
  - intros rest Hf. unfold verify_token.
    change (String.eqb ("Bearer " +:+ rest) "") with false.
    rewrite (prefix_append "Bearer " rest), (remove_bearer rest Hf). simpl.
    destruct (String.eqb rest "valid_token") eqn:He.
    + apply String.eqb_eq in He. subst rest. split; [tauto | congruence].
    + apply String.eqb_neq in He. split; [split; [discriminate | congruence] | reflexivity].
Qed.

Lemma verify_token_accepts_witness :
  verify_token (Some "Bearer valid_token") = inr "valid_token" /\
  verify_token (Some "Bearer other") = inl (401%Z, "Invalid token").
Proof.
  destruct verify_token_accepts as (_ & _ & _ & H). split.
  - apply (proj1 (H "valid_token" eq_refl)). reflexivity.
  - apply (proj2 (H "other" eq_refl)). discriminate.
Defined.

Lemma filter_length_le {A : Type} (f : A -> bool) (l : list A) :
  length (List.filter f l) <= length l.
Proof.
  induction l as [|x l IH]; simpl; [lia|]. destruct (f x); simpl; lia.
Qed.

(** X28.  A page of users is the users that match the filter with the
    first [skip] left out and at most [limit] kept, in their order; the
    test on [skip] at the beginning never changes that.  Every user
    returned is stored and matches the filter. *)
Theorem get_users_is_a_page db active_filter skip limit :
  let matching :=
    match active_filter with
    | Some a => List.filter (fun user => Bool.eqb (active user) a) db
    | None => db
    end in
  let page := get_users db active_filter skip limit in
  page = firstn limit (skipn skip matching) /\
  length page <= limit /\
  (forall user, In user page ->
     In user db /\
     match active_filter with
     | Some a => active user = a
     | None => True
     end).
Proof.
  intros matching page.
  assert (Hlen : length matching <= length db).
  { unfold matching. destruct active_filter; [apply filter_length_le | lia]. }
  assert (Hpage : page = firstn limit (skipn skip matching)).
  { unfold page, get_users, slice. fold matching.
    replace (skip + limit - skip)%nat with limit by lia.
    destruct (Nat.ltb (length db) skip) eqn:Hs; [|reflexivity].
    apply Nat.ltb_lt in Hs. rewrite skipn_all2 by lia. destruct limit; reflexivity. }
  split; [exact Hpage|]. split.
  - rewrite Hpage, length_firstn. lia.
  - intros user Hin. rewrite Hpage in Hin.
    apply list_elem_of_In in Hin. apply subseteq_take, subseteq_drop in Hin.
    apply list_elem_of_In in Hin.
    unfold matching in Hin. destruct active_filter as [a|]; [|auto].
    apply List.filter_In in Hin. destruct Hin as [Hin Ha].
    apply Bool.eqb_prop in Ha. auto.
Qed.

Lemma find_app {A : Type} (f : A -> bool) (l1 l2 : list A) :
  List.find f (l1 ++ l2) =
    match List.find f l1 with
    | Some x => Some x
    | None => List.find f l2
    end.
Proof.
  induction l1 as [|x l1 IH]; simpl; [reflexivity|].
  destruct (f x); [reflexivity | exact IH].
Qed.

(** X29.  Creating a user whose name is taken raises 400 and stores
    nothing.  Otherwise the user is stored last, active, under the number
    of stored users plus one; names stay distinct.  That id may already
    belong to a stored user, after a deletion say: looking the id up then
    still gives the older user, and gives the new one only when no stored
    user had it. *)
Theorem create_user_numbers_by_length db user :
  let '(db', reply) := create_user db user in
  if existsb (fun u => String.eqb (username u) (new_username user)) db
  then db' = db /\ reply = inl (400%Z, "Username already exists")
  else
    let u := {| id := Z.of_nat (length db) + 1; username := new_username user;
                email := new_email user; active := true |} in
    db' = db ++ [u] /\ reply = inr u /\
    (NoDup (map username db) -> NoDup (map username db')) /\
    get_user db' (id u) =
      match get_user db (id u) with
      | inr older => inr older
      | inl _ => inr u
      end.
Proof.
  unfold create_user.
  destruct (existsb (fun u => String.eqb (username u) (new_username user)) db) eqn:He;
    [auto|].
  split; [reflexivity|]. split; [reflexivity|]. split.
  - intros Hnd. rewrite map_app. simpl.
    apply NoDup_app; repeat split.
    + exact Hnd.
    + intros x Hx Hx'. apply list_elem_of_In in Hx, Hx'.
      destruct Hx' as [<-|[]].
      apply in_map_iff in Hx. destruct Hx as (u0 & Hu0 & Hin).
      assert (existsb (fun u => String.eqb (username u) (new_username user)) db = true).
      { apply existsb_exists. exists u0. split; [exact Hin|].
        apply String.eqb_eq. exact Hu0. }
      congruence.
    + apply NoDup_singleton.
  - unfold get_user. rewrite find_app. cbn [id].
    destruct (List.find _ db); [reflexivity|].
    simpl. rewrite Z.eqb_refl. reflexivity.
Qed.

Lemma get_user_not_found db user_id :
  (forall u, In u db -> id u <> user_id) ->
  get_user db user_id = inl (404%Z, "User not found").
Proof.
  intros H. unfold get_user.
  destruct (List.find (fun user => Z.eqb (id user) user_id) db) as [u|] eqn:Hf;
    [|reflexivity].
  apply find_some in Hf. destruct Hf as [Hin He]. apply Z.eqb_eq in He.
  exfalso. apply (H u Hin He).
Qed.

(** X30.  Deleting an id that some stored user has removes the first
    such user and nothing else: one user fewer, and every other id is
    looked up as before; when the ids are distinct the id is not found
    afterwards.  Deleting an id that no stored user has raises 404 and
    changes nothing. *)
Theorem delete_user_removes_first db user_id :
  let '(db', reply) := delete_user db user_id in
  match get_user db user_id with
  | inr _ =>
      reply = inr "User deleted" /\
      length db = S (length db') /\
      (forall k, k <> user_id -> get_user db' k = get_user db k) /\
      (NoDup (map id db) -> get_user db' user_id = inl (404%Z, "User not found"))
  | inl _ => db' = db /\ reply = inl (404%Z, "User not found")
  end.
Proof.
  unfold get_user. induction db as [|u db IH]; simpl; [auto|].
  destruct (Z.eqb (id u) user_id) eqn:He.
  - apply Z.eqb_eq in He. split; [reflexivity|]. split; [reflexivity|]. split.
    + intros k Hk. simpl.
      destruct (Z.eqb (id u) k) eqn:Hk'; [apply Z.eqb_eq in Hk'; congruence|].
      reflexivity.
    + intros Hnd. apply NoDup_cons in Hnd as [Hnin _].
      apply get_user_not_found. intros u' Hin Heq. apply Hnin.
      apply list_elem_of_In, in_map_iff. exists u'. split; [congruence | exact Hin].
  - destruct (delete_user db user_id) as [db' reply].
    destruct (List.find (fun user => Z.eqb (id user) user_id) db) as [found|].
    + destruct IH as (Hr & Hl & Hk & Hn).
      split; [exact Hr|]. split; [simpl; lia|]. split.
      * intros k Hne. simpl. destruct (Z.eqb (id u) k); [reflexivity | apply Hk, Hne].
      * intros Hnd. apply NoDup_cons in Hnd as [_ Hnd].
        simpl. rewrite He. apply Hn, Hnd.
    + destruct IH as [-> ->]. auto.
Qed.

Lemma delete_user_removes_first_witness :
  fst (delete_user users_db 1) =
    [{| id := 2; username := "jane_smith"; email := "jane@example.com"; active := true |};
     {| id := 3; username := "bob_johnson"; email := "bob@example.com"; active := false |}] /\
  get_user (fst (delete_user users_db 1)) 1 = inl (404%Z, "User not found").
Proof.
  split; [reflexivity|].
  pose proof (delete_user_removes_first users_db 1) as H. simpl in H.
  destruct H as (_ & _ & _ & H). apply H.
  apply (bool_decide_unpack _). vm_compute. exact I.
Defined.

End SampleProperties.
